(** * Segmented reductions of pytorch_scatter (cpu/segment.cpp)

    A shallow embedding of [segment_csr] and [segment_coo] together with the
    [Reducer] policy they are instantiated with, and the properties of the
    specification that concern them.

    Modelling conventions.
    - [scalar_t] ranges over the integer element types of
      [AT_DISPATCH_ALL_TYPES]; a value is a [Z] and every arithmetic result
      stored into a [scalar_t] is reduced by [wrap] (two's complement for the
      signed types; the overflow of a signed sum, which the language leaves
      undefined, is taken to wrap as the hardware does).  The floating point
      element types are not covered.
    - A buffer reached through a pointer ([src_data], [out_data],
      [arg_out_data], [index_info.data], the vectors [vals] and [args]) is a
      [list Z] addressed by a [Z] offset.  The source performs no bounds
      check; [load] and [store] are total (an access outside the buffer reads
      [0], respectively writes nothing), and the theorems that rely on an
      access being inside its buffer say so in their hypotheses.
    - Loop counters and extents ([int] and [int64_t] in the source) are
      unbounded [Z]: tensors whose extents do not fit an [int] are outside
      the model.  The parameter [count] of [write] is an [int]:
      [segment_csr] passes it the difference of two offsets read from
      [indptr], which [int_cast] narrows to 32 bits; [segment_coo] passes it
      a number of positions between [1] and the extent [E_2], which the
      conversion leaves as it is.
    - [assert] is the macro of <cassert>: it checks its argument unless
      [NDEBUG] is defined, and then expands to nothing.  [NDEBUG] is a
      parameter of [segment_coo]; the checks written with [AT_ASSERTM] do
      not depend on it.
    - The first part of the file holds the definitions, the second part the
      lemmas and the theorems about them. *)

From Stdlib Require Import String Ascii.
From Stdlib Require Import ZArith List Lia Bool.
Import ListNotations.
Local Open Scope Z_scope.

(** ** Buffers and counted loops *)

Definition load (l : list Z) (i : Z) : Z :=
  if i <? 0 then 0 else nth (Z.to_nat i) l 0.

Fixpoint store_nat (l : list Z) (n : nat) (v : Z) : list Z :=
  match l, n with
  | [], _ => []
  | _ :: t, O => v :: t
  | x :: t, S m => x :: store_nat t m v
  end.

Definition store (l : list Z) (i : Z) (v : Z) : list Z :=
  if i <? 0 then l else store_nat l (Z.to_nat i) v.

(** The values taken by [i] in [for (i = lo; i < hi; i++)]. *)
Definition zrange (lo hi : Z) : list Z :=
  map (fun i => lo + Z.of_nat i) (seq 0 (Z.to_nat (hi - lo))).

Definition for_range {St : Type} (lo hi : Z) (body : Z -> St -> St) (s : St) : St :=
  fold_left (fun s i => body i s) (zrange lo hi) s.

(** ** Element types *)

(** The integer cases of [AT_DISPATCH_ALL_TYPES]. *)
Inductive scalar_type := uint8_t | int8_t | int16_t | int32_t | int64_t.

Definition bits (ty : scalar_type) : Z :=
  match ty with
  | uint8_t | int8_t => 8
  | int16_t => 16
  | int32_t => 32
  | int64_t => 64
  end.

Definition is_signed (ty : scalar_type) : bool :=
  match ty with
  | uint8_t => false
  | _ => true
  end.

(** Conversion of a mathematical integer to the element type. *)
Definition wrap (ty : scalar_type) (z : Z) : Z :=
  if is_signed ty
  then (z + 2 ^ (bits ty - 1)) mod 2 ^ bits ty - 2 ^ (bits ty - 1)
  else z mod 2 ^ bits ty.

(** [std::numeric_limits<scalar_t>::max()] and [::lowest()]. *)
Definition numeric_max (ty : scalar_type) : Z :=
  if is_signed ty then 2 ^ (bits ty - 1) - 1 else 2 ^ bits ty - 1.

Definition numeric_lowest (ty : scalar_type) : Z :=
  if is_signed ty then - 2 ^ (bits ty - 1) else 0.

(** The conversion of an [int64_t] to [int], which an argument for the
    parameter [int count] of [write] undergoes: [int] has 32 bits, and a
    value outside its range is reduced modulo [2 ^ 32]. *)
Definition int_cast (z : Z) : Z := wrap int32_t z.

(** ** Reduction kinds *)

Inductive ReductionType := SUM | MEAN | MIN | MAX.

Definition ReductionType_eqb (a b : ReductionType) : bool :=
  match a, b with
  | SUM, SUM | MEAN, MEAN | MIN, MIN | MAX, MAX => true
  | _, _ => false
  end.

(** [reduce2REDUCE], a [std::map] from strings, kept as its initialiser list. *)
Definition reduce2REDUCE : list (string * ReductionType) :=
  [("sum", SUM); ("add", SUM); ("mean", MEAN); ("min", MIN); ("max", MAX)]%string.

(** [std::map::at]: [None] stands for the [std::out_of_range] it throws. *)
Fixpoint map_at (m : list (string * ReductionType)) (key : string)
  : option ReductionType :=
  match m with
  | [] => None
  | (k, v) :: m' => if String.eqb k key then Some v else map_at m' key
  end.

(** ** The [Reducer] policy

    A pointer argument is a buffer together with an offset into it; each
    function returns the buffers it may have written. *)

Module Reducer.
Section Reducer.
Variable scalar_t : scalar_type.
Variable REDUCE : ReductionType.

Definition init : Z :=
  match REDUCE with
  | MIN => numeric_max scalar_t
  | MAX => numeric_lowest scalar_t
  | _ => 0
  end.

Definition update (vals : list Z) (val : Z) (new_val : Z)
                  (args : list Z) (arg : Z) (new_arg : Z)
  : list Z * list Z :=
  match REDUCE with
  | SUM | MEAN =>
      (store vals val (wrap scalar_t (load vals val + new_val)), args)
  | MIN =>
      if new_val <? load vals val
      then (store vals val new_val, store args arg new_arg)
      else (vals, args)
  | MAX =>
      if new_val >? load vals val
      then (store vals val new_val, store args arg new_arg)
      else (vals, args)
  end.

Definition write (out : list Z) (address : Z) (val : Z)
                 (arg_out : list Z) (arg_address : Z) (arg : Z) (count : Z)
  : list Z * list Z :=
  match REDUCE with
  | SUM => (store out address val, arg_out)
  | MEAN =>
      (store out address
         (wrap scalar_t (Z.quot val (if count >? 0 then count else 1))),
       arg_out)
  | MIN | MAX =>
      if count >? 0
      then (store out address val, store arg_out arg_address arg)
      else (store out address 0, arg_out)
  end.
End Reducer.
End Reducer.

(** ** Tensors of the host runtime

    Only what the two operators use: extents, strides and the storage.  The
    operators call [contiguous()] on [src] and [out] and address them densely;
    these two are taken to be contiguous already, so that [contiguous()]
    returns the tensor itself and [out] aliases the caller's buffer. *)

Record Tensor := { sizes : list Z; strides : list Z; data : list Z }.

Inductive failure :=
| InputMismatch      (* AT_ASSERTM *)
| IndexError         (* Tensor::size on a dimension the tensor lacks *)
| ExpandError        (* Tensor::expand on incompatible extents *)
| AllocError         (* torch::empty on a negative extent *)
| OutOfRange         (* std::map::at on a missing key *)
| DivideByZero       (* integer division by zero *)
| AssertionFailed.   (* assert, where NDEBUG is not defined *)

Inductive result (A : Type) :=
| Ok (a : A)
| Raise (f : failure).
Arguments Ok {A} a.
Arguments Raise {A} f.

Definition bind {A B : Type} (r : result A) (k : A -> result B) : result B :=
  match r with
  | Ok a => k a
  | Raise f => Raise f
  end.

Notation "x <- r ;; k" := (bind r (fun x => k))
  (at level 61, r at next level, right associativity).
Notation "'check' b 'else' f ;; k" := (if b then k else Raise f)
  (at level 61, b at next level, f at next level, right associativity).

Definition dim (t : Tensor) : Z := Z.of_nat (length (sizes t)).

Definition numel (t : Tensor) : Z := fold_right Z.mul 1 (sizes t).

(** [t.size(i)]; a negative [i] counts from the last dimension. *)
Definition size (t : Tensor) (i : Z) : result Z :=
  let j := if i <? 0 then i + dim t else i in
  if (0 <=? j) && (j <? dim t) then Ok (load (sizes t) j) else Raise IndexError.

Fixpoint contiguous_strides (sz : list Z) : list Z :=
  match sz with
  | [] => []
  | _ :: rest => fold_right Z.mul 1 rest :: contiguous_strides rest
  end.

(** [t.expand(new_sizes)] for [new_sizes] of the rank of [t]: an extent of 1
    is repeated with stride 0, any other extent must be kept. *)
Fixpoint expand_dims (sz st new_sizes : list Z) : result (list Z) :=
  match sz, st, new_sizes with
  | [], [], [] => Ok []
  | s :: sz', k :: st', n :: new' =>
      rest <- expand_dims sz' st' new' ;;
      if s =? n then Ok (k :: rest)
      else if s =? 1 then Ok (0 :: rest)
      else Raise ExpandError
  | _, _, _ => Raise ExpandError
  end.

Definition expand (t : Tensor) (new_sizes : list Z) : result Tensor :=
  st <- expand_dims (sizes t) (strides t) new_sizes ;;
  Ok {| sizes := new_sizes; strides := st; data := data t |}.

(** [torch::full_like(t, v)]. *)
Definition full_like (t : Tensor) (v : Z) : Tensor :=
  {| sizes := sizes t;
     strides := contiguous_strides (sizes t);
     data := repeat v (Z.to_nat (numel t)) |}.

(** ** index_info.h *)

(** Modelled from the spec: index_info.h ([TensorInfo], [IndexToOffset],
    [IndexPtrToOffset]) is not part of the sources.  Section 4.2 describes the
    resolver as the row-major unravel of a flat logical index into one
    coordinate per dimension, combined with the strides of the array;
    [unravel] walks the dimensions from the last to the first. *)
Fixpoint unravel (dims_rev : list (Z * Z)) (idx offset : Z) : Z :=
  match dims_rev with
  | [] => offset
  | (sz, st) :: rest =>
      unravel rest (Z.quot idx sz) (offset + Z.rem idx sz * st)
  end.

(** Modelled from the spec: the resolver of section 4.2 over all dimensions of
    the index array. *)
Definition IndexToOffset_get (idx : Z) (info : Tensor) : Z :=
  unravel (rev (combine (sizes info) (strides info))) idx 0.

(** Modelled from the spec: the resolver of section 4.2 applied to a group
    number; the last dimension of [indptr] holds one group less than it has
    offsets (section 4.3: group [g] spans two adjacent offsets). *)
Definition IndexPtrToOffset_get (idx : Z) (info : Tensor) : Z :=
  match rev (combine (sizes info) (strides info)) with
  | [] => 0
  | (sz, st) :: rest =>
      unravel rest (Z.quot idx (sz - 1)) (Z.rem idx (sz - 1) * st)
  end.

(** ** The kernels *)

(** The buffers the loops of both operators write: the vectors [vals] and
    [args], and the storage behind [out_data] and [arg_out_data]. *)
Record buffers := {
  vals : list Z;
  args : list Z;
  out_data : list Z;
  arg_out_data : list Z
}.

Definition set_accs (b : buffers) (va : list Z * list Z) : buffers :=
  {| vals := fst va; args := snd va;
     out_data := out_data b; arg_out_data := arg_out_data b |}.

Definition set_vals (b : buffers) (v : list Z) : buffers :=
  set_accs b (v, args b).

Definition set_outs (b : buffers) (oa : list Z * list Z) : buffers :=
  {| vals := vals b; args := args b;
     out_data := fst oa; arg_out_data := snd oa |}.

(** State of the loops of [segment_coo]: [failed] records that [assert]
    aborted the run, after which nothing more is executed. *)
Record coo_state := {
  bufs : buffers;
  idx : Z;
  row_start : Z;
  failed : bool
}.

Section Kernels.
(** The element type of [src] chosen by [AT_DISPATCH_ALL_TYPES] and the
    kind chosen by [AT_DISPATCH_REDUCTION_TYPES]. *)
Variable scalar_t : scalar_type.
Variable REDUCE : ReductionType.

Section CSR.
Variable src_data : list Z.
Variable indptr_info : Tensor.
Variable indptr_size_last : Z.      (* indptr.size(-1) *)
Variables stride N K E : Z.

(** One iteration of [for (int n = 0; n < N; n++)].  [row_end - row_start]
    is an [int64_t], the parameter [count] of [write] an [int]. *)
Definition csr_group (n : Z) (b : buffers) : buffers :=
  let offset := IndexPtrToOffset_get n indptr_info in
  let row_start := load (data indptr_info) offset in
  let row_end := load (data indptr_info) (offset + stride) in
  let offset := Z.quot n (indptr_size_last - 1) * E * K in
  let b :=
    for_range 0 K (fun k b =>
      set_vals b (store (vals b) k (Reducer.init scalar_t REDUCE))) b in
  let b :=
    for_range row_start row_end (fun e b =>
      for_range 0 K (fun k b =>
        set_accs b
          (Reducer.update scalar_t REDUCE
             (vals b) k (load src_data (offset + e * K + k))
             (args b) k e)) b) b in
  for_range 0 K (fun k b =>
    set_outs b
      (Reducer.write scalar_t REDUCE
         (out_data b) (n * K + k) (load (vals b) k)
         (arg_out_data b) (n * K + k) (load (args b) k)
         (int_cast (row_end - row_start)))) b.

Definition csr_kernel (out arg_out : list Z) : buffers :=
  for_range 0 N csr_group
    {| vals := repeat 0 (Z.to_nat K); args := repeat 0 (Z.to_nat K);
       out_data := out; arg_out_data := arg_out |}.
End CSR.

Section COO.
Variable src_data : list Z.
Variable index_info : Tensor.
Variables stride E_1 E_2 K N : Z.
(** Whether the macro [NDEBUG] is defined where the file is compiled:
    [assert(idx <= next_idx)] stops the program when it is not, and expands
    to nothing when it is. *)
Variable NDEBUG : bool.

(** One iteration of [for (int e_2 = 0; e_2 < E_2; e_2++)].  The [count]
    given to [write], [e_2 + 1 - row_start], lies between [1] and [E_2]. *)
Definition coo_step (e_1 offset e_2 : Z) (s : coo_state) : coo_state :=
  if failed s then s else
  let b :=
    for_range 0 K (fun k b =>
      set_accs b
        (Reducer.update scalar_t REDUCE
           (vals b) k (load src_data (e_1 * E_2 * K + e_2 * K + k))
           (args b) k e_2)) (bufs s) in
  if e_2 =? E_2 - 1 then
    {| bufs :=
         for_range 0 K (fun k b =>
           set_outs b
             (Reducer.write scalar_t REDUCE
                (out_data b) (e_1 * N * K + idx s * K + k) (load (vals b) k)
                (arg_out_data b) (e_1 * N * K + idx s * K + k)
                (load (args b) k)
                (e_2 + 1 - row_start s))) b;
       idx := idx s; row_start := row_start s; failed := false |}
  else
    let next_idx := load (data index_info) (offset + (e_2 + 1) * stride) in
    if negb NDEBUG && negb (idx s <=? next_idx) then
      {| bufs := b; idx := idx s; row_start := row_start s;
         failed := true |}
    else if negb (idx s =? next_idx) then
      {| bufs :=
           for_range 0 K (fun k b =>
             let b :=
               set_outs b
                 (Reducer.write scalar_t REDUCE
                    (out_data b) (e_1 * N * K + idx s * K + k)
                    (load (vals b) k)
                    (arg_out_data b) (e_1 * N * K + idx s * K + k)
                    (load (args b) k)
                    (e_2 + 1 - row_start s)) in
             set_vals b
               (store (vals b) k
                  (load (out_data b) (e_1 * N * K + next_idx * K + k)))) b;
         idx := next_idx; row_start := e_2 + 1; failed := false |}
    else
      {| bufs := b; idx := next_idx; row_start := row_start s;
         failed := false |}.

(** One iteration of [for (int e_1 = 0; e_1 < E_1; e_1++)]. *)
Definition coo_block (e_1 : Z) (s : coo_state) : coo_state :=
  if failed s then s else
  let offset := IndexToOffset_get (e_1 * E_2) index_info in
  let idx0 := load (data index_info) offset in
  let b :=
    for_range 0 K (fun k b =>
      set_vals b
        (store (vals b) k (load (out_data b) (e_1 * N * K + k))))
      (bufs s) in
  for_range 0 E_2 (coo_step e_1 offset)
    {| bufs := b; idx := idx0; row_start := 0; failed := false |}.

(** [idx], [next_idx] and [row_start] are declared without an
    initialiser; they are assigned before their first use, and start
    here at [0]. *)
Definition coo_kernel (out arg_out : list Z) : coo_state :=
  for_range 0 E_1 coo_block
    {| bufs := {| vals := repeat 0 (Z.to_nat K);
                  args := repeat 0 (Z.to_nat K);
                  out_data := out; arg_out_data := arg_out |};
       idx := 0; row_start := 0; failed := false |}.
End COO.
End Kernels.

(** ** The operators *)

Definition is_arg_reduction (r : ReductionType) : bool :=
  ReductionType_eqb r MIN || ReductionType_eqb r MAX.

Definition lookup_reduce (reduce : string) : result ReductionType :=
  match map_at reduce2REDUCE reduce with
  | Some r => Ok r
  | None => Raise OutOfRange
  end.

(** [for (i = 0; i < out.dim(); i++) if (i != reduce_dim)
    AT_ASSERTM(src.size(i) == out.size(i))], over the values [ds] of [i]. *)
Fixpoint check_sizes (src out : Tensor) (reduce_dim : Z) (ds : list Z)
  : result unit :=
  match ds with
  | [] => Ok tt
  | i :: rest =>
      if i =? reduce_dim then check_sizes src out reduce_dim rest
      else
        s <- size src i ;;
        o <- size out i ;;
        check (s =? o) else InputMismatch ;;
        check_sizes src out reduce_dim rest
  end.

Definition with_data (t : Tensor) (d : list Z) : Tensor :=
  {| sizes := sizes t; strides := strides t; data := d |}.

Section Operators.
(** Element type of [src]. *)
Variable scalar_t : scalar_type.
(** [fresh i] is the indeterminate value that element [i] of a buffer
    returned by [torch::empty] holds. *)
Variable fresh : Z -> Z.
(** Whether [NDEBUG] is defined (see [coo_step]). *)
Variable NDEBUG : bool.

Definition torch_empty (sz : list Z) : result Tensor :=
  check (forallb (fun s => 0 <=? s) sz) else AllocError ;;
  Ok {| sizes := sz;
        strides := contiguous_strides sz;
        data := map fresh (zrange 0 (fold_right Z.mul 1 sz)) |}.

(** What [segment_csr] has established when its loops start. *)
Record csr_setup := {
  csr_REDUCE : ReductionType;
  csr_indptr : Tensor;              (* after [expand] *)
  csr_out : Tensor;
  csr_arg_out : option Tensor;
  csr_last : Z;                     (* indptr.size(-1) *)
  csr_stride : Z;
  csr_N : Z;
  csr_K : Z;
  csr_E : Z
}.

(** Lines 80 to 109: the shape checks, the broadcast of [indptr] and the
    choice of [out].  Returns [indptr] after [expand], and [out]. *)
Definition segment_csr_shapes (src indptr : Tensor)
    (out_opt : option Tensor) : result (Tensor * Tensor) :=
  check (dim src >=? dim indptr) else InputMismatch ;;
  let sizes_ :=
    for_range 0 (dim indptr - 1)
      (fun i s => store s i (load (sizes src) i)) (sizes indptr) in
  indptr <- expand indptr sizes_ ;;
  let reduce_dim := dim indptr - 1 in
  out <- match out_opt with
         | Some out =>
             _ <- check_sizes src out reduce_dim (zrange 0 (dim out)) ;;
             o <- size out reduce_dim ;;
             i <- size indptr reduce_dim ;;
             check (o =? i - 1) else InputMismatch ;;
             Ok out
         | None =>
             i <- size indptr reduce_dim ;;
             torch_empty (store (sizes src) reduce_dim (i - 1))
         end ;;
  Ok (indptr, out).

(** Lines 111 to 123, for [indptr] after [expand] and the chosen [out]. *)
Definition segment_csr_params (src indptr out : Tensor) (reduce : string)
  : result csr_setup :=
  let reduce_dim := dim indptr - 1 in
  REDUCE <- lookup_reduce reduce ;;
  arg_out <- (if is_arg_reduction REDUCE
              then e <- size src reduce_dim ;; Ok (Some (full_like out e))
              else Ok None) ;;
  o <- size out reduce_dim ;;
  last <- size indptr (-1) ;;
  check (negb (last =? 0)) else DivideByZero ;;
  let N := o * Z.quot (numel indptr) last in
  check (negb (N =? 0)) else DivideByZero ;;
  let K := Z.quot (numel out) N in
  E <- size src reduce_dim ;;
  Ok {| csr_REDUCE := REDUCE; csr_indptr := indptr; csr_out := out;
        csr_arg_out := arg_out; csr_last := last;
        csr_stride := load (strides indptr) (dim indptr - 1);
        csr_N := N; csr_K := K; csr_E := E |}.

Definition segment_csr_setup (src indptr : Tensor)
    (out_opt : option Tensor) (reduce : string) : result csr_setup :=
  io <- segment_csr_shapes src indptr out_opt ;;
  segment_csr_params src (fst io) (snd io) reduce.

(** [arg_out_data]: the storage of [arg_out], or [nullptr]. *)
Definition arg_data (arg_out : option Tensor) : list Z :=
  match arg_out with
  | Some a => data a
  | None => []
  end.

Definition segment_csr_run (src : Tensor) (c : csr_setup) : buffers :=
  csr_kernel scalar_t (csr_REDUCE c) (data src) (csr_indptr c)
    (csr_last c) (csr_stride c) (csr_N c) (csr_K c) (csr_E c)
    (data (csr_out c)) (arg_data (csr_arg_out c)).

Definition segment_csr (src indptr : Tensor) (out_opt : option Tensor)
    (reduce : string) : result (Tensor * option Tensor) :=
  c <- segment_csr_setup src indptr out_opt reduce ;;
  let b := segment_csr_run src c in
  Ok (with_data (csr_out c) (out_data b),
      option_map (fun a => with_data a (arg_out_data b)) (csr_arg_out c)).

(** What [segment_coo] has established when its loops start. *)
Record coo_setup := {
  coo_REDUCE : ReductionType;
  coo_index : Tensor;               (* after [expand] *)
  coo_arg_out : option Tensor;
  coo_stride : Z;
  coo_E_1 : Z;
  coo_E_2 : Z;
  coo_K : Z;
  coo_N : Z
}.

(** Lines 162 to 181: the shape checks and the broadcast of [index].
    Returns [index] after [expand]. *)
Definition segment_coo_shapes (src index out : Tensor) : result Tensor :=
  check (dim src >=? dim index) else InputMismatch ;;
  let sizes_ :=
    for_range 0 (dim index)
      (fun i s => store s i (load (sizes src) i)) (sizes index) in
  index <- expand index sizes_ ;;
  let reduce_dim := dim index - 1 in
  _ <- check_sizes src out reduce_dim (zrange 0 (dim out)) ;;
  Ok index.

(** Lines 183 to 196. *)
Definition segment_coo_setup (src index out : Tensor) (reduce : string)
  : result coo_setup :=
  index <- segment_coo_shapes src index out ;;
  let reduce_dim := dim index - 1 in
  REDUCE <- lookup_reduce reduce ;;
  arg_out <- (if is_arg_reduction REDUCE
              then e <- size src reduce_dim ;; Ok (Some (full_like out e))
              else Ok None) ;;
  E_2 <- size src reduce_dim ;;
  check (negb (E_2 =? 0)) else DivideByZero ;;
  let E_1 := Z.quot (numel index) E_2 in
  check (negb (numel index =? 0)) else DivideByZero ;;
  let K := Z.quot (numel src) (numel index) in
  N <- size out reduce_dim ;;
  Ok {| coo_REDUCE := REDUCE; coo_index := index; coo_arg_out := arg_out;
        coo_stride := load (strides index) (dim index - 1);
        coo_E_1 := E_1; coo_E_2 := E_2; coo_K := K; coo_N := N |}.

Definition segment_coo_run (src out : Tensor) (c : coo_setup) : coo_state :=
  coo_kernel scalar_t (coo_REDUCE c) (data src) (coo_index c)
    (coo_stride c) (coo_E_1 c) (coo_E_2 c) (coo_K c) (coo_N c) NDEBUG
    (data out) (arg_data (coo_arg_out c)).

(** [out] is written in place: the first component is the storage of the
    caller's [out] when the call ends, whether it returns or raises. *)
Definition segment_coo (src index out : Tensor) (reduce : string)
  : list Z * result (Tensor * option Tensor) :=
  match segment_coo_setup src index out reduce with
  | Raise f => (data out, Raise f)
  | Ok c =>
      let s := segment_coo_run src out c in
      let b := bufs s in
      (out_data b,
       if failed s then Raise AssertionFailed
       else Ok (with_data out (out_data b),
                option_map (fun a => with_data a (arg_out_data b))
                  (coo_arg_out c)))
  end.
End Operators.

(** ** What one call of the policy does to the cells it is given

    [Reducer.update] and [Reducer.write] restated on the contents of the
    cells their pointers address; [update_spec] and [write_spec] relate them
    to the functions above. *)

Section Cells.
Variable scalar_t : scalar_type.
Variable REDUCE : ReductionType.

(** New contents of [( *val, *arg )] after [update]. *)
Definition accumulate (va : Z * Z) (new_val new_arg : Z) : Z * Z :=
  match REDUCE with
  | SUM | MEAN => (wrap scalar_t (fst va + new_val), snd va)
  | MIN => if new_val <? fst va then (new_val, new_arg) else va
  | MAX => if new_val >? fst va then (new_val, new_arg) else va
  end.

(** Value stored at [address] by [write]. *)
Definition written_value (val count : Z) : Z :=
  match REDUCE with
  | SUM => val
  | MEAN => wrap scalar_t (Z.quot val (if count >? 0 then count else 1))
  | MIN | MAX => if count >? 0 then val else 0
  end.

(** Whether [write] stores at [arg_address]. *)
Definition writes_arg (count : Z) : bool :=
  is_arg_reduction REDUCE && (count >? 0).
End Cells.

(** [store_lanes l a K f]: the buffer [l] after [l[a + k] = f k] for each
    lane [k] of [0 .. K-1] in turn. *)
Definition store_lanes (l : list Z) (a K : Z) (f : Z -> Z) : list Z :=
  for_range 0 K (fun k l => store l (a + k) (f k)) l.

(** The sum of [f] over [lo <= e < hi]. *)
Definition sum_range (f : Z -> Z) (lo hi : Z) : Z :=
  fold_left (fun acc e => acc + f e) (zrange lo hi) 0.

(** [better REDUCE x y]: [x] replaces the accumulator [y] in [update]. *)
Definition better (REDUCE : ReductionType) (x y : Z) : Prop :=
  match REDUCE with
  | MIN => x < y
  | MAX => x > y
  | _ => False
  end.

(** The pair [(vals[k], args[k])]. *)
Definition cell (b : buffers) (k : Z) : Z * Z :=
  (load (vals b) k, load (args b) k).

(** ** One group of [segment_csr], lane by lane *)

Section CSRLanes.
Variable scalar_t : scalar_type.
Variable REDUCE : ReductionType.
Variable src_data : list Z.
Variable indptr_info : Tensor.
Variable indptr_size_last : Z.
Variables stride K E : Z.

(** [row_start] and [row_end] of group [n]. *)
Definition csr_row_start (n : Z) : Z :=
  load (data indptr_info) (IndexPtrToOffset_get n indptr_info).

Definition csr_row_end (n : Z) : Z :=
  load (data indptr_info) (IndexPtrToOffset_get n indptr_info + stride).

(** The [count] that [write] receives for group [n]:
    [row_end - row_start] as an [int]. *)
Definition csr_count (n : Z) : Z :=
  int_cast (csr_row_end n - csr_row_start n).

(** [src_data[offset + e * K + k]] for group [n]. *)
Definition csr_src (n e k : Z) : Z :=
  load src_data (Z.quot n (indptr_size_last - 1) * E * K + e * K + k).

(** The accumulation of lane [k] of group [n] started from the cells [va]. *)
Definition csr_lane (n k : Z) (va : Z * Z) : Z * Z :=
  fold_left (fun va e => accumulate scalar_t REDUCE va (csr_src n e k) e)
    (zrange (csr_row_start n) (csr_row_end n)) va.

(** The value of lane [k] of group [n] when its accumulation ends. *)
Definition csr_lane_val (n k : Z) : Z :=
  fst (csr_lane n k (Reducer.init scalar_t REDUCE, 0)).
End CSRLanes.

(** ** Well-formed tensors *)

(** A contiguous tensor: extents are not negative and the storage holds
    exactly [numel] elements. *)
Definition dense (t : Tensor) : bool :=
  forallb (fun s => 0 <=? s) (sizes t)
  && (Z.of_nat (length (data t)) =? numel t).

(** The product of [f i] over [lo <= i < hi]. *)
Definition prod_range (f : Z -> Z) (lo hi : Z) : Z :=
  fold_left (fun acc i => acc * f i) (zrange lo hi) 1.

(** A contiguous 1-D tensor. *)
Definition vector (l : list Z) : Tensor :=
  {| sizes := [Z.of_nat (length l)]; strides := [1]; data := l |}.

(** ** The index array as [segment_coo] reads it *)

Section COOIndex.
Variable index_info : Tensor.
Variables stride E_2 : Z.

(** [offset] of block [e_1]. *)
Definition coo_offset (e_1 : Z) : Z :=
  IndexToOffset_get (e_1 * E_2) index_info.

(** The group index of element [e_2] of block [e_1]:
    [index_info.data[offset + e_2 * stride]]. *)
Definition coo_idx (e_1 e_2 : Z) : Z :=
  load (data index_info) (coo_offset e_1 + e_2 * stride).

(** The index array decreases somewhere along the reduce dimension, within
    the first [blocks] blocks. *)
Definition coo_decreases (blocks : Z) : Prop :=
  exists e_1 e_2, 0 <= e_1 < blocks /\ 0 <= e_2 < E_2 - 1 /\
                  coo_idx e_1 (e_2 + 1) < coo_idx e_1 e_2.
End COOIndex.

(** [first_winner REDUCE x lo hi v a]: among [x lo .. x (hi-1)], [v] is the
    winning value (the least for [MIN], the greatest for [MAX]) and [a] is the
    lowest position that attains it. *)
Definition first_winner (REDUCE : ReductionType) (x : Z -> Z) (lo hi : Z)
           (v a : Z) : Prop :=
  lo <= a < hi /\ x a = v /\
  (forall e, lo <= e < hi -> ~ better REDUCE (x e) v) /\
  (forall e, lo <= e < a -> better REDUCE v (x e)).

(** [extremum REDUCE x lo hi v]: [v] is one of [x lo .. x (hi-1)] and none
    of them is better (less for [MIN], greater for [MAX]). *)
Definition extremum (REDUCE : ReductionType) (x : Z -> Z) (lo hi : Z)
           (v : Z) : Prop :=
  (exists e, lo <= e < hi /\ x e = v) /\
  (forall e, lo <= e < hi -> ~ better REDUCE (x e) v).

(** ** What [segment_coo] computes for a sorted index array *)

Section COORuns.
Variable scalar_t : scalar_type.
Variable REDUCE : ReductionType.
Variable src_data : list Z.
Variable index_info : Tensor.
Variables stride E_2 K N : Z.

(** [src_data[e_1 * E_2 * K + e_2 * K + k]]. *)
Definition coo_src (e_1 e_2 k : Z) : Z :=
  load src_data (e_1 * E_2 * K + e_2 * K + k).

(** The offset [e_1 * N * K + g * K + k] of lane [k] of group [g] of block
    [e_1] in [out_data] and [arg_out_data]. *)
Definition coo_addr (e_1 g k : Z) : Z := e_1 * N * K + g * K + k.

(** The positions [lo <= e_2 < hi] of block [e_1] are a whole group: they
    carry one group index, and the positions next to them another. *)
Definition coo_run (e_1 lo hi : Z) : Prop :=
  0 <= lo < hi /\ hi <= E_2 /\
  (forall e, lo <= e < hi ->
     coo_idx index_info stride E_2 e_1 e
     = coo_idx index_info stride E_2 e_1 lo) /\
  (lo = 0 \/ coo_idx index_info stride E_2 e_1 (lo - 1)
             <> coo_idx index_info stride E_2 e_1 lo) /\
  (hi = E_2 \/ coo_idx index_info stride E_2 e_1 hi
               <> coo_idx index_info stride E_2 e_1 lo).

(** The cell of [out] from which the accumulator of the group that starts at
    position [lo] is read: the cell of the group itself at a change of group
    (line 239), the cell of group 0 at the start of the block (line 210). *)
Definition coo_seed (out : list Z) (e_1 lo k : Z) : Z :=
  load out
    (coo_addr e_1
       (if lo =? 0 then 0 else coo_idx index_info stride E_2 e_1 lo) k).

(** The accumulation of lane [k] over the positions [lo <= e_2 < hi] of
    block [e_1], started from the cells [va]. *)
Definition coo_lane (e_1 lo hi k : Z) (va : Z * Z) : Z * Z :=
  fold_left (fun va e => accumulate scalar_t REDUCE va (coo_src e_1 e k) e)
    (zrange lo hi) va.

(** What the group at the positions [lo <= e_2 < hi] of block [e_1] leaves
    in lane [k] of its cells: [out0] and [arg0] are the buffers and [args0]
    the vector [args] when the block starts, [out'] and [arg'] the buffers
    later on.  The argument slot of a lane is not reset between groups: the
    accumulation of a group starts from the argument [a0] that the group
    before it has left there. *)
Definition coo_run_result (out0 arg0 args0 out' arg' : list Z)
           (e_1 lo hi k : Z) : Prop :=
  let p := coo_addr e_1 (coo_idx index_info stride E_2 e_1 lo) k in
  let q := coo_addr e_1 (coo_idx index_info stride E_2 e_1 (lo - 1)) k in
  let seed := coo_seed out0 e_1 lo k in
  (0 <= p < Z.of_nat (length out0) ->
   load out' p =
   written_value scalar_t REDUCE
     (fst (coo_lane e_1 lo hi k (seed, 0))) (hi - lo)) /\
  (is_arg_reduction REDUCE = true -> 0 <= p < Z.of_nat (length arg0) ->
   exists a0,
     load arg' p = snd (coo_lane e_1 lo hi k (seed, a0)) /\
     (lo = 0 -> a0 = load args0 k) /\
     (0 < lo -> 0 <= q < Z.of_nat (length arg0) -> load arg' q = a0)).
End COORuns.

(** The index array of [segment_coo] is sorted along the reduce dimension
    and names groups of [out] only. *)
Definition coo_sorted (index_info : Tensor) (stride E_1 E_2 : Z) : Prop :=
  forall e_1 e_2, 0 <= e_1 < E_1 -> 0 <= e_2 < E_2 - 1 ->
    coo_idx index_info stride E_2 e_1 e_2
    <= coo_idx index_info stride E_2 e_1 (e_2 + 1).

Definition coo_in_range (index_info : Tensor) (stride E_1 E_2 N : Z) : Prop :=
  forall e_1 e_2, 0 <= e_1 < E_1 -> 0 <= e_2 < E_2 ->
    0 <= coo_idx index_info stride E_2 e_1 e_2 < N.

(** * Properties *)

(** ** Buffers *)

Lemma store_nat_length (l : list Z) (n : nat) (v : Z) :
  length (store_nat l n v) = length l.
Proof.
  revert n; induction l as [|x l IH]; intros [|n]; simpl; auto.
Qed.

Lemma store_length (l : list Z) (i v : Z) : length (store l i v) = length l.
Proof.
  unfold store; destruct (i <? 0); auto using store_nat_length.
Qed.

Lemma nth_store_nat_same (l : list Z) (n : nat) (v : Z) :
  (n < length l)%nat -> nth n (store_nat l n v) 0 = v.
Proof.
  revert n; induction l as [|x l IH]; intros [|n] H; simpl in *;
    try lia; auto.
  apply IH; lia.
Qed.

Lemma nth_store_nat_other (l : list Z) (n m : nat) (v : Z) :
  n <> m -> nth m (store_nat l n v) 0 = nth m l 0.
Proof.
  revert n m; induction l as [|x l IH]; intros [|n] [|m] H; simpl;
    try congruence; auto.
Qed.

Lemma load_store_same (l : list Z) (i v : Z) :
  0 <= i < Z.of_nat (length l) -> load (store l i v) i = v.
Proof.
  intros H; unfold load, store.
  destruct (Z.ltb_spec i 0); [lia|].
  apply nth_store_nat_same; lia.
Qed.

Lemma load_store_other (l : list Z) (i j v : Z) :
  i <> j -> load (store l i v) j = load l j.
Proof.
  intros H; unfold load, store.
  destruct (Z.ltb_spec j 0); auto.
  destruct (Z.ltb_spec i 0); auto.
  apply nth_store_nat_other; lia.
Qed.

Lemma store_outside (l : list Z) (i v : Z) :
  i < 0 \/ Z.of_nat (length l) <= i -> store l i v = l.
Proof.
  intros H; unfold store.
  destruct (Z.ltb_spec i 0); auto.
  assert (Hn : (length l <= Z.to_nat i)%nat) by lia.
  revert Hn; generalize (Z.to_nat i); clear.
  induction l as [|x l IH]; intros [|n] Hn; simpl in *; auto; try lia.
  f_equal; apply IH; lia.
Qed.

Lemma load_store (l : list Z) (i j v : Z) :
  load (store l i v) j =
  if (j =? i) && (0 <=? i) && (i <? Z.of_nat (length l)) then v else load l j.
Proof.
  destruct (Z.eqb_spec j i) as [->|Hne]; simpl.
  - destruct (Z.leb_spec 0 i); simpl.
    + destruct (Z.ltb_spec i (Z.of_nat (length l))).
      * apply load_store_same; lia.
      * rewrite store_outside by lia; auto.
    + rewrite store_outside by lia; auto.
  - apply load_store_other; congruence.
Qed.

Lemma list_ext (l1 l2 : list Z) :
  length l1 = length l2 ->
  (forall i, 0 <= i < Z.of_nat (length l1) -> load l1 i = load l2 i) ->
  l1 = l2.
Proof.
  revert l2; induction l1 as [|x l1 IH]; intros [|y l2] Hlen H;
    simpl in *; try discriminate; auto.
  f_equal.
  - apply (H 0); lia.
  - apply IH; [lia|].
    intros i Hi. specialize (H (i + 1)).
    unfold load in *.
    destruct (Z.ltb_spec i 0); [lia|].
    destruct (Z.ltb_spec (i + 1) 0); [lia|].
    replace (Z.to_nat (i + 1)) with (S (Z.to_nat i)) in H by lia.
    apply H; lia.
Qed.

Lemma load_repeat (v : Z) (n : nat) (i : Z) :
  0 <= i < Z.of_nat n -> load (repeat v n) i = v.
Proof.
  intros H; unfold load.
  destruct (Z.ltb_spec i 0); [lia|].
  apply nth_repeat_lt; lia.
Qed.

(** ** Counted loops *)

Lemma zrange_empty (lo hi : Z) : hi <= lo -> zrange lo hi = [].
Proof.
  intros H; unfold zrange.
  replace (Z.to_nat (hi - lo)) with 0%nat by lia; reflexivity.
Qed.

Lemma zrange_snoc (lo hi : Z) :
  lo <= hi -> zrange lo (hi + 1) = zrange lo hi ++ [hi].
Proof.
  intros H; unfold zrange.
  replace (Z.to_nat (hi + 1 - lo)) with (Z.to_nat (hi - lo) + 1)%nat by lia.
  rewrite seq_app, map_app; simpl.
  do 2 f_equal; lia.
Qed.

Lemma zrange_app (lo mid hi : Z) :
  lo <= mid <= hi -> zrange lo hi = zrange lo mid ++ zrange mid hi.
Proof.
  intros H.
  replace hi with (mid + Z.of_nat (Z.to_nat (hi - mid))) by lia.
  generalize (Z.to_nat (hi - mid)) as n.
  induction n as [|n IH].
  - rewrite Z.add_0_r, (zrange_empty mid mid), app_nil_r by lia. reflexivity.
  - replace (mid + Z.of_nat (S n)) with (mid + Z.of_nat n + 1) by lia.
    rewrite !zrange_snoc by lia. now rewrite IH, app_assoc.
Qed.

Lemma zrange_In (lo hi x : Z) : In x (zrange lo hi) <-> lo <= x < hi.
Proof.
  unfold zrange; rewrite in_map_iff; split.
  - intros (i & <- & Hi); apply in_seq in Hi; lia.
  - intros H; exists (Z.to_nat (x - lo)); split; [lia|].
    apply in_seq; lia.
Qed.

Lemma zrange_length (lo hi : Z) : length (zrange lo hi) = Z.to_nat (hi - lo).
Proof. unfold zrange; now rewrite length_map, length_seq. Qed.

Lemma for_range_empty {St : Type} (lo hi : Z) (body : Z -> St -> St) (s : St) :
  hi <= lo -> for_range lo hi body s = s.
Proof. intros H; unfold for_range; now rewrite zrange_empty. Qed.

Lemma for_range_snoc {St : Type} (lo hi : Z) (body : Z -> St -> St) (s : St) :
  lo <= hi ->
  for_range lo (hi + 1) body s = body hi (for_range lo hi body s).
Proof.
  intros H; unfold for_range; rewrite zrange_snoc by auto.
  now rewrite fold_left_app.
Qed.

(** Loop invariant rule: [P i s] holds of the state [s] with which iteration
    [i] starts. *)
Lemma for_range_ind {St : Type} (P : Z -> St -> Prop)
      (lo hi : Z) (body : Z -> St -> St) (s : St) :
  lo <= hi ->
  P lo s ->
  (forall i s, lo <= i < hi -> P i s -> P (i + 1) (body i s)) ->
  P hi (for_range lo hi body s).
Proof.
  intros Hle H0 Hstep.
  assert (H : forall n, P (lo + Z.of_nat n) s \/ True ->
              (Z.of_nat n <= hi - lo) ->
              P (lo + Z.of_nat n) (for_range lo (lo + Z.of_nat n) body s)).
  { induction n as [|n IH]; intros _ Hn.
    - rewrite for_range_empty by lia. now replace (lo + Z.of_nat 0) with lo by lia.
    - replace (lo + Z.of_nat (S n)) with (lo + Z.of_nat n + 1) by lia.
      rewrite for_range_snoc by lia.
      apply Hstep; [lia|]. apply IH; [auto|lia]. }
  specialize (H (Z.to_nat (hi - lo))).
  replace (lo + Z.of_nat (Z.to_nat (hi - lo))) with hi in H by lia.
  apply H; [auto|lia].
Qed.

(** ** The reduction strings *)

Lemma lookup_reduce_unknown (reduce : string) :
  ~ In reduce ["sum"; "add"; "mean"; "min"; "max"]%string ->
  lookup_reduce reduce = Raise OutOfRange.
Proof.
  intros H; unfold lookup_reduce, reduce2REDUCE, map_at.
  repeat match goal with
         | |- context [String.eqb ?k reduce] =>
             destruct (String.eqb_spec k reduce) as [E|_];
             [exfalso; apply H; rewrite <- E; simpl; tauto|]
         end.
  reflexivity.
Qed.

Lemma lookup_reduce_known (reduce : string) (r : ReductionType) :
  lookup_reduce reduce = Ok r ->
  In reduce ["sum"; "add"; "mean"; "min"; "max"]%string.
Proof.
  unfold lookup_reduce, reduce2REDUCE, map_at.
  repeat match goal with
         | |- context [String.eqb ?k reduce] =>
             destruct (String.eqb_spec k reduce) as [E|_];
             [intros _; rewrite <- E; simpl; tauto|]
         end.
  discriminate.
Qed.

(** C6: the reduce strings accepted by [reduce2REDUCE.at] are exactly "sum",
    "add", "mean", "min" and "max", with "add" and "sum" both naming [SUM];
    on any other string [segment_csr] and [segment_coo] raise the
    [std::out_of_range] of the lookup as soon as the shape checks have
    passed (or the failure of a shape check), the loops never start and the
    storage of [out] is left as it was. *)
Theorem unknown_reduce_raises
    (scalar_t : scalar_type) (NDEBUG : bool) (fresh : Z -> Z)
    (src indptr index out : Tensor) (out_opt : option Tensor)
    (reduce : string) :
  lookup_reduce "sum" = Ok SUM /\ lookup_reduce "add" = Ok SUM /\
  lookup_reduce "mean" = Ok MEAN /\ lookup_reduce "min" = Ok MIN /\
  lookup_reduce "max" = Ok MAX /\
  ((exists r, lookup_reduce reduce = Ok r) <->
   In reduce ["sum"; "add"; "mean"; "min"; "max"]%string) /\
  (~ In reduce ["sum"; "add"; "mean"; "min"; "max"]%string ->
   segment_csr scalar_t fresh src indptr out_opt reduce =
     match segment_csr_shapes fresh src indptr out_opt with
     | Ok _ => Raise OutOfRange
     | Raise f => Raise f
     end /\
   segment_coo scalar_t NDEBUG src index out reduce =
     (data out,
      match segment_coo_shapes src index out with
      | Ok _ => Raise OutOfRange
      | Raise f => Raise f
      end)).
Proof.
  repeat (split; [reflexivity|]).
  split.
  - split.
    + intros [r H]; eapply lookup_reduce_known; eauto.
    + simpl; intros [<-|[<-|[<-|[<-|[<-|[]]]]]]; eexists; reflexivity.
  - intros H. apply lookup_reduce_unknown in H.
    unfold segment_csr, segment_coo, segment_csr_setup, segment_csr_params,
      segment_coo_setup.
    split.
    + destruct (segment_csr_shapes fresh src indptr out_opt); simpl; auto.
      now rewrite H.
    + destruct (segment_coo_shapes src index out); simpl; auto.
      now rewrite H.
Qed.

Lemma unknown_reduce_raises_witness :
  segment_csr int64_t (fun _ => 0)
    {| sizes := [2]; strides := [1]; data := [1; 2] |}
    {| sizes := [2]; strides := [1]; data := [0; 2] |} None "prod"
  = Raise OutOfRange /\
  segment_coo int64_t false
    {| sizes := [2]; strides := [1]; data := [1; 2] |}
    {| sizes := [2]; strides := [1]; data := [0; 0] |}
    {| sizes := [1]; strides := [1]; data := [7] |} "prod"
  = ([7], Raise OutOfRange).
Proof.
  assert (H : ~ In "prod"%string ["sum"; "add"; "mean"; "min"; "max"]%string).
  { simpl; intros [H|[H|[H|[H|[H|[]]]]]]; discriminate H. }
  pose proof
    (unknown_reduce_raises int64_t false (fun _ => 0)
       {| sizes := [2]; strides := [1]; data := [1; 2] |}
       {| sizes := [2]; strides := [1]; data := [0; 2] |}
       {| sizes := [2]; strides := [1]; data := [0; 0] |}
       {| sizes := [1]; strides := [1]; data := [7] |} None "prod")
    as (_ & _ & _ & _ & _ & _ & Hraise).
  destruct (Hraise H) as [Hcsr Hcoo].
  split; [exact Hcsr | exact Hcoo].
Defined.

(** ** Element arithmetic *)

Lemma wrap_zero (ty : scalar_type) : wrap ty 0 = 0.
Proof. destruct ty; reflexivity. Qed.

Lemma wrap_add_l (ty : scalar_type) (a b : Z) :
  wrap ty (wrap ty a + b) = wrap ty (a + b).
Proof.
  unfold wrap; destruct (is_signed ty).
  - set (h := 2 ^ (bits ty - 1)); set (m := 2 ^ bits ty).
    replace ((a + h) mod m - h + b + h) with ((a + h) mod m + b) by lia.
    rewrite Zplus_mod_idemp_l. do 2 f_equal; lia.
  - now rewrite Zplus_mod_idemp_l.
Qed.

(** ** The conversion to [int] *)

Lemma int_cast_id (z : Z) : - 2 ^ 31 <= z < 2 ^ 31 -> int_cast z = z.
Proof.
  intros H. unfold int_cast, wrap. cbn [is_signed bits].
  change (2 ^ (32 - 1)) with (2 ^ 31).
  rewrite Z.mod_small; lia.
Qed.

Lemma csr_count_id (indptr_info : Tensor) (stride n : Z) :
  - 2 ^ 31
  <= csr_row_end indptr_info stride n - csr_row_start indptr_info n
  < 2 ^ 31 ->
  csr_count indptr_info stride n
  = csr_row_end indptr_info stride n - csr_row_start indptr_info n.
Proof. intros H. unfold csr_count. now apply int_cast_id. Qed.

(** ** The policy on cells *)

Lemma store_load_id (l : list Z) (i : Z) : store l i (load l i) = l.
Proof.
  apply list_ext; [apply store_length|].
  intros j _. rewrite load_store.
  destruct (Z.eqb_spec j i) as [->|]; simpl; auto.
  destruct (_ && _); auto.
Qed.

Section CellLemmas.
Variable scalar_t : scalar_type.
Variable REDUCE : ReductionType.

Lemma update_spec (vals : list Z) (k new_val : Z) (args : list Z)
      (k' new_arg : Z) :
  Reducer.update scalar_t REDUCE vals k new_val args k' new_arg =
  (store vals k
     (fst (accumulate scalar_t REDUCE (load vals k, load args k')
             new_val new_arg)),
   store args k'
     (snd (accumulate scalar_t REDUCE (load vals k, load args k')
             new_val new_arg))).
Proof.
  unfold Reducer.update, accumulate; destruct REDUCE; simpl;
    try (now rewrite store_load_id);
    match goal with |- context [if ?c then _ else _] => destruct c end;
    simpl; now rewrite ?store_load_id.
Qed.

Lemma write_spec (out : list Z) (address val : Z) (arg_out : list Z)
      (arg_address arg count : Z) :
  Reducer.write scalar_t REDUCE out address val arg_out arg_address arg count =
  (store out address (written_value scalar_t REDUCE val count),
   if writes_arg REDUCE count then store arg_out arg_address arg
   else arg_out).
Proof.
  unfold Reducer.write, written_value, writes_arg; destruct REDUCE; simpl;
    auto; destruct (count >? 0); auto.
Qed.

Lemma accumulate_fst_indep (v a a' new_val new_arg : Z) :
  fst (accumulate scalar_t REDUCE (v, a) new_val new_arg) =
  fst (accumulate scalar_t REDUCE (v, a') new_val new_arg).
Proof.
  unfold accumulate; destruct REDUCE; simpl; auto;
    match goal with |- context [if ?c then _ else _] => destruct c end; auto.
Qed.
End CellLemmas.

(** ** Stores over the lanes *)

Lemma store_lanes_length (l : list Z) (a K : Z) (f : Z -> Z) :
  length (store_lanes l a K f) = length l.
Proof.
  unfold store_lanes.
  destruct (Z.le_gt_cases 0 K) as [HK|HK].
  - apply (for_range_ind (fun _ l' => length l' = length l)); auto.
    intros i s _ H; now rewrite store_length.
  - now rewrite for_range_empty by lia.
Qed.

Lemma store_lanes_snoc (l : list Z) (a K : Z) (f : Z -> Z) :
  0 <= K ->
  store_lanes l a (K + 1) f = store (store_lanes l a K f) (a + K) (f K).
Proof. intros H; unfold store_lanes; now rewrite for_range_snoc. Qed.

Lemma load_store_lanes (l : list Z) (a K : Z) (f : Z -> Z) (p : Z) :
  load (store_lanes l a K f) p =
  if (a <=? p) && (p <? a + K) && (0 <=? p) && (p <? Z.of_nat (length l))
  then f (p - a) else load l p.
Proof.
  destruct (Z.le_gt_cases 0 K) as [HK|HK].
  - unfold store_lanes.
    apply (for_range_ind
             (fun i l' =>
                length l' = length l /\
                load l' p =
                if (a <=? p) && (p <? a + i) && (0 <=? p)
                   && (p <? Z.of_nat (length l))
                then f (p - a) else load l p)); auto.
    + split; auto.
      destruct (Z.leb_spec a p), (Z.ltb_spec p (a + 0)); simpl; auto; lia.
    + intros i s Hi [Hlen IH]. rewrite store_length. split; auto.
      rewrite load_store, IH, Hlen.
      destruct (Z.eqb_spec p (a + i)) as [->|Hne]; simpl.
      * replace (a + i - a) with i by lia.
        destruct (Z.leb_spec a (a + i)), (Z.ltb_spec (a + i) (a + (i + 1))),
          (Z.ltb_spec (a + i) (a + i)); try lia; simpl.
        destruct (0 <=? a + i); simpl; auto.
      * destruct (Z.leb_spec a p), (Z.ltb_spec p (a + (i + 1))),
          (Z.ltb_spec p (a + i)); try lia; simpl; auto.
  - unfold store_lanes; rewrite for_range_empty by lia.
    destruct (Z.leb_spec a p), (Z.ltb_spec p (a + K)); simpl; auto; lia.
Qed.

Lemma store_lanes_ext (l : list Z) (a K : Z) (f g : Z -> Z) :
  (forall k, 0 <= k < K -> f k = g k) ->
  store_lanes l a K f = store_lanes l a K g.
Proof.
  intros H. apply list_ext.
  - now rewrite !store_lanes_length.
  - intros p _. rewrite !load_store_lanes.
    destruct (Z.leb_spec a p), (Z.ltb_spec p (a + K)); simpl; auto.
    destruct (_ && _); auto. apply H; lia.
Qed.

(** ** Loops over the lanes *)

Lemma set_accs_id (b : buffers) : set_accs b (vals b, args b) = b.
Proof. now destruct b. Qed.

Lemma set_outs_id (b : buffers) : set_outs b (out_data b, arg_out_data b) = b.
Proof. now destruct b. Qed.

Lemma store_lanes_zero (l : list Z) (a : Z) (f : Z -> Z) :
  store_lanes l a 0 f = l.
Proof. unfold store_lanes; now rewrite for_range_empty by lia. Qed.

Lemma store_lanes_neg (l : list Z) (a K : Z) (f : Z -> Z) :
  K <= 0 -> store_lanes l a K f = l.
Proof. intros H; unfold store_lanes; now rewrite for_range_empty by lia. Qed.

Lemma cell_store_lanes_later (b : buffers) (i k : Z) (f g : Z -> Z) :
  i <= k ->
  cell (set_accs b (store_lanes (vals b) 0 i f, store_lanes (args b) 0 i g)) k
  = cell b k.
Proof.
  intros H. unfold cell; simpl. rewrite !load_store_lanes.
  replace ((0 <=? k) && (k <? 0 + i)) with false; auto.
  destruct (Z.leb_spec 0 k), (Z.ltb_spec k (0 + i)); auto; lia.
Qed.

(** A loop that rewrites [(vals[k], args[k])] by [F k] for each lane. *)
Lemma accs_loop (K : Z) (F : Z -> Z * Z -> Z * Z)
      (body : Z -> buffers -> buffers) (b : buffers) :
  (forall k b', body k b' =
     set_accs b' (store (vals b') k (fst (F k (cell b' k))),
                  store (args b') k (snd (F k (cell b' k))))) ->
  for_range 0 K body b =
  set_accs b (store_lanes (vals b) 0 K (fun k => fst (F k (cell b k))),
              store_lanes (args b) 0 K (fun k => snd (F k (cell b k)))).
Proof.
  intros Hbody.
  destruct (Z.le_gt_cases 0 K) as [HK|HK].
  - apply (for_range_ind
             (fun i b' =>
                b' = set_accs b
                       (store_lanes (vals b) 0 i (fun k => fst (F k (cell b k))),
                        store_lanes (args b) 0 i (fun k => snd (F k (cell b k)))))); auto.
    + now rewrite !store_lanes_zero, set_accs_id.
    + intros i b' Hi ->. rewrite Hbody.
      rewrite !cell_store_lanes_later by lia.
      rewrite !store_lanes_snoc by lia.
      unfold set_accs; simpl. now rewrite ?Z.add_0_l.
  - rewrite for_range_empty, !store_lanes_neg by lia.
    now rewrite set_accs_id.
Qed.

(** The loop of [write] calls that ends a group whose cells start at
    address [a] of [out_data] and [arg_out_data]. *)
Lemma write_loop (scalar_t : scalar_type) (REDUCE : ReductionType)
      (K a count : Z) (b : buffers) :
  for_range 0 K (fun k b =>
    set_outs b
      (Reducer.write scalar_t REDUCE
         (out_data b) (a + k) (load (vals b) k)
         (arg_out_data b) (a + k) (load (args b) k) count)) b =
  set_outs b
    (store_lanes (out_data b) a K
       (fun k => written_value scalar_t REDUCE (load (vals b) k) count),
     if writes_arg REDUCE count
     then store_lanes (arg_out_data b) a K (fun k => load (args b) k)
     else arg_out_data b).
Proof.
  destruct (Z.le_gt_cases 0 K) as [HK|HK].
  - apply (for_range_ind
             (fun i b' =>
                b' = set_outs b
                       (store_lanes (out_data b) a i
                          (fun k => written_value scalar_t REDUCE
                                      (load (vals b) k) count),
                        if writes_arg REDUCE count
                        then store_lanes (arg_out_data b) a i
                               (fun k => load (args b) k)
                        else arg_out_data b))); auto.
    + rewrite !store_lanes_zero. destruct (writes_arg _ _);
        now rewrite set_outs_id.
    + intros i b' Hi ->. rewrite write_spec; simpl.
      rewrite !store_lanes_snoc by lia.
      unfold set_outs; simpl. now destruct (writes_arg _ _).
  - rewrite for_range_empty, !store_lanes_neg by lia.
    destruct (writes_arg _ _); now rewrite set_outs_id.
Qed.

(** The loop that seeds every lane of [vals] with the same value. *)
Lemma init_loop (K c : Z) (b : buffers) :
  for_range 0 K (fun k b => set_vals b (store (vals b) k c)) b =
  set_accs b (store_lanes (vals b) 0 K (fun _ => c), args b).
Proof.
  rewrite (accs_loop K (fun _ va => (c, snd va)))
    by (intros; unfold set_vals, cell; simpl; now rewrite store_load_id).
  simpl. f_equal. f_equal.
  apply list_ext; [apply store_lanes_length|].
  intros p _. rewrite load_store_lanes.
  destruct (_ && _); auto. f_equal; lia.
Qed.

Lemma cell_store_lanes (b : buffers) (K : Z) (f g : Z -> Z) (k : Z) :
  length (vals b) = Z.to_nat K -> length (args b) = Z.to_nat K ->
  0 <= k < K ->
  cell (set_accs b (store_lanes (vals b) 0 K f, store_lanes (args b) 0 K g)) k
  = (f k, g k).
Proof.
  intros Hv Ha Hk. unfold cell; simpl. rewrite !load_store_lanes, Hv, Ha.
  replace ((0 <=? k) && (k <? 0 + K) && (0 <=? k) && (k <? Z.of_nat (Z.to_nat K)))
    with true.
  - now rewrite Z.sub_0_r.
  - symmetry. rewrite !andb_true_iff.
    repeat split; try apply Z.leb_le; try apply Z.ltb_lt; lia.
Qed.

Section CSRGroup.
Variable scalar_t : scalar_type.
Variable REDUCE : ReductionType.
Variable src_data : list Z.
Variable indptr_info : Tensor.
Variable indptr_size_last : Z.
Variables stride N K E : Z.

Abbreviation lane := (csr_lane scalar_t REDUCE src_data indptr_info
                    indptr_size_last stride K E).
Abbreviation row_start := (csr_row_start indptr_info).
Abbreviation row_end := (csr_row_end indptr_info stride).
Abbreviation group := (csr_group scalar_t REDUCE src_data indptr_info
                     indptr_size_last stride K E).

(** The loop over the rows of a group, from any starting cells. *)
Lemma update_rows (offset rs re : Z) (b : buffers) :
  length (vals b) = Z.to_nat K -> length (args b) = Z.to_nat K ->
  let b' :=
    for_range rs re (fun e b =>
      for_range 0 K (fun k b =>
        set_accs b
          (Reducer.update scalar_t REDUCE
             (vals b) k (load src_data (offset + e * K + k))
             (args b) k e)) b) b in
  length (vals b') = Z.to_nat K /\ length (args b') = Z.to_nat K /\
  out_data b' = out_data b /\ arg_out_data b' = arg_out_data b /\
  forall k, 0 <= k < K ->
    cell b' k =
    fold_left (fun va e =>
                 accumulate scalar_t REDUCE va
                   (load src_data (offset + e * K + k)) e)
      (zrange rs re) (cell b k).
Proof.
  intros Hv Ha; simpl.
  destruct (Z.le_gt_cases rs re) as [Hle|Hgt].
  - apply (for_range_ind
             (fun i b' =>
                length (vals b') = Z.to_nat K /\
                length (args b') = Z.to_nat K /\
                out_data b' = out_data b /\
                arg_out_data b' = arg_out_data b /\
                forall k, 0 <= k < K ->
                  cell b' k =
                  fold_left (fun va e =>
                               accumulate scalar_t REDUCE va
                                 (load src_data (offset + e * K + k)) e)
                    (zrange rs i) (cell b k))); auto.
    + repeat split; auto. intros k Hk. now rewrite zrange_empty by lia.
    + intros i b' Hi (Hv' & Ha' & Ho & Hao & IH).
      rewrite (accs_loop K
                 (fun k va => accumulate scalar_t REDUCE va
                                (load src_data (offset + i * K + k)) i))
        by (intros; now rewrite update_spec).
      simpl. rewrite !store_lanes_length.
      repeat split; auto.
      intros k Hk. rewrite cell_store_lanes by auto.
      rewrite zrange_snoc, fold_left_app by lia; simpl.
      rewrite <- IH by auto. now destruct (accumulate _ _ _ _ _).
  - rewrite for_range_empty by lia. repeat split; auto.
    intros k Hk. now rewrite zrange_empty by lia.
Qed.

(** What one group does to the buffers. *)
Lemma csr_group_spec (n : Z) (b : buffers) :
  length (vals b) = Z.to_nat K -> length (args b) = Z.to_nat K ->
  let b' := group n b in
  let count := csr_count indptr_info stride n in
  length (vals b') = Z.to_nat K /\ length (args b') = Z.to_nat K /\
  (forall k, 0 <= k < K ->
     cell b' k =
     lane n k (Reducer.init scalar_t REDUCE, load (args b) k)) /\
  out_data b' =
    store_lanes (out_data b) (n * K) K
      (fun k => written_value scalar_t REDUCE
                  (fst (lane n k (Reducer.init scalar_t REDUCE,
                                  load (args b) k))) count) /\
  arg_out_data b' =
    if writes_arg REDUCE count
    then store_lanes (arg_out_data b) (n * K) K
           (fun k => snd (lane n k (Reducer.init scalar_t REDUCE,
                                    load (args b) k)))
    else arg_out_data b.
Proof.
  intros Hv Ha; simpl.
  unfold csr_group.
  rewrite init_loop.
  set (b1 := set_accs b _).
  assert (Hv1 : length (vals b1) = Z.to_nat K)
    by (unfold b1; simpl; now rewrite store_lanes_length).
  assert (Ha1 : length (args b1) = Z.to_nat K) by (unfold b1; auto).
  assert (Hc1 : forall k, 0 <= k < K ->
            cell b1 k = (Reducer.init scalar_t REDUCE, load (args b) k)).
  { intros k Hk. unfold b1, cell; simpl.
    rewrite load_store_lanes, Hv.
    replace ((0 <=? k) && (k <? 0 + K) && (0 <=? k)
             && (k <? Z.of_nat (Z.to_nat K))) with true; auto.
    symmetry. rewrite !andb_true_iff.
    repeat split; try apply Z.leb_le; try apply Z.ltb_lt; lia. }
  destruct (update_rows
              (Z.quot n (indptr_size_last - 1) * E * K)
              (row_start n) (row_end n) b1 Hv1 Ha1)
    as (Hv2 & Ha2 & Ho2 & Hao2 & Hc2).
  fold (row_start n) (row_end n).
  set (b2 := for_range (row_start n) (row_end n) _ b1) in *.
  rewrite write_loop; simpl.
  assert (Hlane : forall k, 0 <= k < K ->
            cell b2 k =
            lane n k (Reducer.init scalar_t REDUCE, load (args b) k)).
  { intros k Hk. rewrite Hc2, Hc1 by auto. reflexivity. }
  repeat split; auto.
  - rewrite Ho2. unfold b1; simpl. apply store_lanes_ext.
    intros k Hk. now rewrite <- Hlane by auto.
  - rewrite Hao2. unfold b1; simpl.
    destruct (writes_arg _ _); auto.
    apply store_lanes_ext. intros k Hk. now rewrite <- Hlane by auto.
Qed.
End CSRGroup.

Lemma lane_addr_lt (n n' k K : Z) :
  0 <= k < K -> n' < n -> n' * K + k < n * K.
Proof. intros Hk Hn. nia. Qed.

Lemma lane_addr_inj (n n' k k' K : Z) :
  0 <= k < K -> 0 <= k' < K -> n * K + k = n' * K + k' -> n = n' /\ k = k'.
Proof.
  intros Hk Hk' H.
  assert (n = n') by nia. subst. lia.
Qed.

Section CSRKernel.
Variable scalar_t : scalar_type.
Variable REDUCE : ReductionType.
Variable src_data : list Z.
Variable indptr_info : Tensor.
Variable indptr_size_last : Z.
Variables stride N K E : Z.

Abbreviation lane' := (csr_lane scalar_t REDUCE src_data indptr_info
                         indptr_size_last stride K E).
Abbreviation lane_val := (csr_lane_val scalar_t REDUCE src_data indptr_info
                            indptr_size_last stride K E).
Abbreviation count := (csr_count indptr_info stride).

Lemma csr_lane_fst_indep (n k v a a' : Z) :
  fst (lane' n k (v, a)) = fst (lane' n k (v, a')).
Proof.
  unfold csr_lane.
  generalize (zrange (csr_row_start indptr_info n)
                (csr_row_end indptr_info stride n)).
  intros l; revert v a a'; induction l as [|e l IH]; intros v a a'; simpl; auto.
  pose proof (accumulate_fst_indep scalar_t REDUCE v a a'
                (csr_src src_data indptr_size_last K E n e k) e) as H.
  destruct (accumulate scalar_t REDUCE (v, a) _ e) as [v1 a1].
  destruct (accumulate scalar_t REDUCE (v, a') _ e) as [v2 a2].
  simpl in H; subst v2. apply IH.
Qed.

(** The buffers when the loop over the groups ends. *)
Lemma csr_kernel_spec (out arg_out : list Z) :
  0 <= N -> 0 <= K ->
  let b := csr_kernel scalar_t REDUCE src_data indptr_info indptr_size_last
             stride N K E out arg_out in
  length (out_data b) = length out /\
  length (arg_out_data b) = length arg_out /\
  (forall n k, 0 <= n < N -> 0 <= k < K ->
     n * K + k < Z.of_nat (length out) ->
     load (out_data b) (n * K + k) =
     written_value scalar_t REDUCE (lane_val n k) (count n)) /\
  (forall p, ~ 0 <= p < N * K -> load (out_data b) p = load out p) /\
  (forall n k, 0 <= n < N -> 0 <= k < K ->
     n * K + k < Z.of_nat (length arg_out) ->
     if writes_arg REDUCE (count n)
     then exists a, load (arg_out_data b) (n * K + k) =
                    snd (lane' n k (Reducer.init scalar_t REDUCE, a))
     else load (arg_out_data b) (n * K + k) = load arg_out (n * K + k)) /\
  (forall p, ~ 0 <= p < N * K -> load (arg_out_data b) p = load arg_out p).
Proof.
  intros HN HK; simpl. unfold csr_kernel.
  match goal with |- ?G => cut (length (vals (for_range 0 N
      (csr_group scalar_t REDUCE src_data indptr_info indptr_size_last
         stride K E)
      {| vals := repeat 0 (Z.to_nat K); args := repeat 0 (Z.to_nat K);
         out_data := out; arg_out_data := arg_out |})) = Z.to_nat K /\
    length (args (for_range 0 N
      (csr_group scalar_t REDUCE src_data indptr_info indptr_size_last
         stride K E)
      {| vals := repeat 0 (Z.to_nat K); args := repeat 0 (Z.to_nat K);
         out_data := out; arg_out_data := arg_out |})) = Z.to_nat K /\ G);
    [intros (_ & _ & H); exact H|] end.
  apply (for_range_ind
    (fun i b =>
       length (vals b) = Z.to_nat K /\ length (args b) = Z.to_nat K /\
       length (out_data b) = length out /\
       length (arg_out_data b) = length arg_out /\
       (forall n k, 0 <= n < i -> 0 <= k < K ->
          n * K + k < Z.of_nat (length out) ->
          load (out_data b) (n * K + k) =
          written_value scalar_t REDUCE (lane_val n k) (count n)) /\
       (forall p, ~ 0 <= p < i * K -> load (out_data b) p = load out p) /\
       (forall n k, 0 <= n < i -> 0 <= k < K ->
          n * K + k < Z.of_nat (length arg_out) ->
          if writes_arg REDUCE (count n)
          then exists a, load (arg_out_data b) (n * K + k) =
                         snd (lane' n k (Reducer.init scalar_t REDUCE, a))
          else load (arg_out_data b) (n * K + k) = load arg_out (n * K + k)) /\
       (forall p, ~ 0 <= p < i * K ->
          load (arg_out_data b) p = load arg_out p))
    0 N); [exact HN | |].
  - simpl. rewrite !repeat_length.
    repeat split; auto; intros; lia.
  - intros i b Hi (Hv & Ha & Hlo & Hla & Hout & Hfo & Harg & Hfa).
    destruct (csr_group_spec scalar_t REDUCE src_data indptr_info
                indptr_size_last stride K E i b Hv Ha)
      as (Hv' & Ha' & _ & Ho' & Hao').
    rewrite Ho', Hao'.
    repeat split; auto.
    + now rewrite store_lanes_length.
    + destruct (writes_arg _ _); auto. now rewrite store_lanes_length.
    + intros n k Hn Hk Hlen. rewrite load_store_lanes, Hlo.
      destruct (Z.eq_dec n i) as [->|Hne].
      * replace ((i * K <=? i * K + k) && (i * K + k <? i * K + K)
                 && (0 <=? i * K + k)
                 && (i * K + k <? Z.of_nat (length out))) with true.
        -- replace (i * K + k - i * K) with k by lia.
           unfold csr_lane_val.
           now rewrite (csr_lane_fst_indep i k _ (load (args b) k) 0).
        -- symmetry. rewrite !andb_true_iff.
           repeat split; try apply Z.leb_le; try apply Z.ltb_lt; try lia; nia.
      * assert (n * K + k < i * K) by (apply lane_addr_lt; lia).
        replace ((i * K <=? n * K + k)) with false
          by (symmetry; apply Z.leb_gt; lia).
        simpl. apply Hout; auto; lia.
    + intros p Hp. rewrite load_store_lanes.
      replace ((i * K <=? p) && (p <? i * K + K) && (0 <=? p)) with false.
      * simpl. apply Hfo. nia.
      * symmetry.
        destruct (Z.leb_spec (i * K) p), (Z.ltb_spec p (i * K + K)),
          (Z.leb_spec 0 p); simpl; auto. exfalso; apply Hp; nia.
    + intros n k Hn Hk Hlen.
      destruct (Z.eq_dec n i) as [->|Hne].
      * destruct (writes_arg REDUCE (count i)) eqn:Hw.
        -- exists (load (args b) k).
           rewrite load_store_lanes, Hla.
           replace ((i * K <=? i * K + k) && (i * K + k <? i * K + K)
                    && (0 <=? i * K + k)
                    && (i * K + k <? Z.of_nat (length arg_out))) with true.
           ++ now replace (i * K + k - i * K) with k by lia.
           ++ symmetry. rewrite !andb_true_iff.
              repeat split; try apply Z.leb_le; try apply Z.ltb_lt;
                try lia; nia.
        -- apply Hfa. assert (i * K <= i * K + k) by lia. lia.
      * assert (Hlt : n * K + k < i * K) by (apply lane_addr_lt; lia).
        assert (Hn' : 0 <= n < i) by lia.
        specialize (Harg n k Hn' Hk Hlen).
        assert (Hsame : load (if writes_arg REDUCE (count i)
                              then store_lanes (arg_out_data b) (i * K) K
                                     (fun k0 => snd (lane' i k0
                                        (Reducer.init scalar_t REDUCE,
                                         load (args b) k0)))
                              else arg_out_data b) (n * K + k)
                        = load (arg_out_data b) (n * K + k)).
        { destruct (writes_arg REDUCE (count i)); auto.
          rewrite load_store_lanes.
          replace ((i * K <=? n * K + k)) with false
            by (symmetry; apply Z.leb_gt; lia).
          reflexivity. }
        rewrite Hsame. exact Harg.
    + intros p Hp.
      destruct (writes_arg REDUCE (count i)).
      * rewrite load_store_lanes.
        replace ((i * K <=? p) && (p <? i * K + K) && (0 <=? p)) with false.
        -- simpl. apply Hfa. nia.
        -- symmetry.
           destruct (Z.leb_spec (i * K) p), (Z.ltb_spec p (i * K + K)),
             (Z.leb_spec 0 p); simpl; auto. exfalso; apply Hp; nia.
      * apply Hfa. nia.
Qed.
End CSRKernel.

(** ** Extents *)

Lemma prod_range_empty (f : Z -> Z) (lo hi : Z) :
  hi <= lo -> prod_range f lo hi = 1.
Proof. intros H; unfold prod_range; now rewrite zrange_empty. Qed.

Lemma prod_range_snoc (f : Z -> Z) (lo hi : Z) :
  lo <= hi -> prod_range f lo (hi + 1) = prod_range f lo hi * f hi.
Proof.
  intros H; unfold prod_range.
  now rewrite zrange_snoc, fold_left_app.
Qed.

Lemma prod_range_ext (f g : Z -> Z) (lo hi : Z) :
  (forall i, lo <= i < hi -> f i = g i) ->
  prod_range f lo hi = prod_range g lo hi.
Proof.
  intros H. destruct (Z.le_gt_cases lo hi) as [Hle|Hgt].
  - apply (for_range_ind
             (fun i acc => acc = prod_range g lo i) lo hi
             (fun i acc => acc * f i) 1); auto.
    + now rewrite prod_range_empty by lia.
    + intros i acc Hi ->. rewrite prod_range_snoc by lia.
      now rewrite H by lia.
  - now rewrite !prod_range_empty by lia.
Qed.

Lemma prod_range_split (f : Z -> Z) (lo mid hi : Z) :
  lo <= mid <= hi ->
  prod_range f lo hi = prod_range f lo mid * prod_range f mid hi.
Proof.
  intros [H1 H2].
  assert (Hinv : for_range mid hi (fun i acc => acc * f i) (prod_range f lo mid)
                 = prod_range f lo mid * prod_range f mid hi).
  { apply (for_range_ind
             (fun i acc => acc = prod_range f lo mid * prod_range f mid i));
      auto.
    - rewrite (prod_range_empty f mid mid) by lia. lia.
    - intros i acc Hi ->. rewrite prod_range_snoc by lia. lia. }
  rewrite <- Hinv. unfold for_range, prod_range.
  rewrite (zrange_app lo mid hi) by lia.
  now rewrite fold_left_app.
Qed.

Lemma prod_range_nonneg (f : Z -> Z) (lo hi : Z) :
  (forall i, lo <= i < hi -> 0 <= f i) -> 0 <= prod_range f lo hi.
Proof.
  intros H. destruct (Z.le_gt_cases lo hi) as [Hle|Hgt].
  - apply (for_range_ind (fun _ acc => 0 <= acc) lo hi
             (fun i acc => acc * f i) 1); auto; try lia.
    intros i acc Hi Hacc. specialize (H i Hi). nia.
  - rewrite prod_range_empty by lia. lia.
Qed.

Lemma load_app_l (l1 l2 : list Z) (i : Z) :
  i < Z.of_nat (length l1) -> load (l1 ++ l2) i = load l1 i.
Proof.
  intros H; unfold load. destruct (Z.ltb_spec i 0); auto.
  apply app_nth1; lia.
Qed.

Lemma load_app_last (l : list Z) (x : Z) :
  load (l ++ [x]) (Z.of_nat (length l)) = x.
Proof.
  unfold load. destruct (Z.ltb_spec (Z.of_nat (length l)) 0); [lia|].
  rewrite app_nth2 by lia.
  now replace (Z.to_nat (Z.of_nat (length l)) - length l)%nat with 0%nat by lia.
Qed.

Lemma fold_mul_prod_range (l : list Z) :
  fold_right Z.mul 1 l = prod_range (load l) 0 (Z.of_nat (length l)).
Proof.
  induction l as [|x l IH] using rev_ind.
  - reflexivity.
  - rewrite fold_right_app; simpl.
    rewrite length_app; simpl.
    replace (Z.of_nat (length l + 1)) with (Z.of_nat (length l) + 1) by lia.
    rewrite prod_range_snoc by lia.
    rewrite load_app_last.
    rewrite (prod_range_ext (load (l ++ [x])) (load l))
      by (intros; apply load_app_l; lia).
    rewrite <- IH.
    assert (E : forall a, fold_right Z.mul a l = fold_right Z.mul 1 l * a).
    { clear. induction l as [|y l IH]; intros a; cbn [fold_right]; [ring|].
      rewrite IH. ring. }
    rewrite E. ring.
Qed.

Lemma numel_prod_range (t : Tensor) :
  numel t = prod_range (load (sizes t)) 0 (dim t).
Proof. apply fold_mul_prod_range. Qed.

Lemma forallb_nonneg_load (l : list Z) (i : Z) :
  forallb (fun s => 0 <=? s) l = true -> 0 <= load l i.
Proof.
  intros H. rewrite forallb_forall in H.
  unfold load. destruct (Z.ltb_spec i 0); [lia|].
  destruct (Nat.lt_ge_cases (Z.to_nat i) (length l)) as [Hlt|Hge].
  - apply Z.leb_le, H, nth_In; auto.
  - rewrite nth_overflow; lia.
Qed.

(** ** The shape checks of [segment_csr] *)

Lemma size_ok (t : Tensor) (i v : Z) :
  size t i = Ok v ->
  let j := if i <? 0 then i + dim t else i in
  0 <= j < dim t /\ v = load (sizes t) j.
Proof.
  unfold size; simpl.
  destruct (Z.leb_spec 0 (if i <? 0 then i + dim t else i));
    destruct (Z.ltb_spec (if i <? 0 then i + dim t else i) (dim t));
    simpl; intros Hs; inversion Hs; subst; split; auto; lia.
Qed.

Lemma size_nonneg (t : Tensor) (i v : Z) :
  0 <= i -> size t i = Ok v -> 0 <= i < dim t /\ v = load (sizes t) i.
Proof.
  intros Hi H. apply size_ok in H; simpl in H.
  destruct (Z.ltb_spec i 0); [lia|]. exact H.
Qed.

Lemma size_last (t : Tensor) (v : Z) :
  size t (-1) = Ok v -> 1 <= dim t /\ v = load (sizes t) (dim t - 1).
Proof.
  intros H. apply size_ok in H. cbv zeta in H.
  change (-1 <? 0) with true in H. cbv iota in H.
  replace (-1 + dim t) with (dim t - 1) in H by lia.
  split; [lia|tauto].
Qed.

Lemma check_sizes_ok (src out : Tensor) (reduce_dim : Z) (ds : list Z) :
  check_sizes src out reduce_dim ds = Ok tt ->
  forall i, In i ds -> 0 <= i -> i <> reduce_dim ->
            load (sizes src) i = load (sizes out) i.
Proof.
  induction ds as [|d ds IH]; simpl; intros H i Hin Hi Hne; [tauto|].
  destruct (Z.eqb_spec d reduce_dim) as [->|Hd].
  - destruct Hin as [->|Hin]; [congruence|]. eapply IH; eauto.
  - destruct (size src d) as [s|] eqn:Es; simpl in H; try discriminate.
    destruct (size out d) as [o|] eqn:Eo; simpl in H; try discriminate.
    destruct (Z.eqb_spec s o) as [->|]; try discriminate.
    destruct Hin as [->|Hin]; [|eapply IH; eauto].
    apply size_nonneg in Es, Eo; auto.
    destruct Es as [_ ->], Eo as [_ E]. exact E.
Qed.

Lemma dense_sizes (t : Tensor) (i : Z) :
  dense t = true -> 0 <= load (sizes t) i.
Proof.
  unfold dense; rewrite andb_true_iff; intros [H _].
  now apply forallb_nonneg_load.
Qed.

Lemma dense_length (t : Tensor) :
  dense t = true -> Z.of_nat (length (data t)) = numel t.
Proof.
  unfold dense; rewrite andb_true_iff; intros [_ H]. now apply Z.eqb_eq.
Qed.

Lemma load_store_lanes_zero (l : list Z) (K : Z) (f : Z -> Z) (p : Z) :
  load (store_lanes l 0 K f) p =
  if (0 <=? p) && (p <? K) && (p <? Z.of_nat (length l))
  then f p else load l p.
Proof.
  rewrite load_store_lanes, Z.sub_0_r.
  destruct (Z.leb_spec 0 p), (Z.ltb_spec p (0 + K)), (Z.ltb_spec p K);
    simpl; auto; lia.
Qed.

(** The facts that the shape checks of [segment_csr] establish. *)
Lemma csr_shapes_ok (fresh : Z -> Z) (src indptr : Tensor)
      (out_opt : option Tensor) (indptr' out : Tensor) :
  segment_csr_shapes fresh src indptr out_opt = Ok (indptr', out) ->
  dense src = true ->
  (forall o, out_opt = Some o -> dense o = true) ->
  let d := dim indptr in
  data indptr' = data indptr /\ dim indptr' = d /\
  1 <= d <= dim src /\ d <= dim out /\
  (forall i, load (sizes indptr') i =
             if (0 <=? i) && (i <? d - 1) then load (sizes src) i
             else load (sizes indptr) i) /\
  dense out = true /\
  load (sizes out) (d - 1) = load (sizes indptr) (d - 1) - 1 /\
  (forall i, 0 <= i < d - 1 -> load (sizes out) i = load (sizes src) i) /\
  match out_opt with
  | Some o => out = o
  | None => sizes out = store (sizes src) (d - 1)
                          (load (sizes indptr) (d - 1) - 1)
  end.
Proof.
  intros H Hsrc Hout d. unfold segment_csr_shapes in H.
  destruct (Z.geb_spec (dim src) (dim indptr)) as [Hdim|]; try discriminate.
  change (for_range 0 (dim indptr - 1)
            (fun i s => store s i (load (sizes src) i)) (sizes indptr))
    with (store_lanes (sizes indptr) 0 (dim indptr - 1) (load (sizes src)))
    in H.
  set (sizes_ := store_lanes (sizes indptr) 0 (dim indptr - 1)
                   (load (sizes src))) in *.
  unfold expand in H.
  destruct (expand_dims (sizes indptr) (strides indptr) sizes_) as [st|] eqn:Ex;
    simpl in H; try discriminate.
  set (ip := {| sizes := sizes_; strides := st; data := data indptr |}) in *.
  assert (Hd : dim ip = d).
  { unfold dim, ip; simpl. unfold sizes_. now rewrite store_lanes_length. }
  assert (Hld : forall i, load (sizes ip) i =
                          if (0 <=? i) && (i <? d - 1) then load (sizes src) i
                          else load (sizes indptr) i).
  { intros i. unfold ip; simpl. unfold sizes_.
    rewrite load_store_lanes_zero. fold d.
    destruct (Z.leb_spec 0 i), (Z.ltb_spec i (d - 1)); simpl; auto.
    destruct (Z.ltb_spec i (Z.of_nat (length (sizes indptr)))); auto.
    unfold d, dim in *; lia. }
  rewrite Hd in H.
  assert (Hlast : load (sizes ip) (d - 1) = load (sizes indptr) (d - 1)).
  { rewrite Hld. destruct (Z.ltb_spec (d - 1) (d - 1)); [lia|].
    now rewrite andb_false_r. }
  destruct out_opt as [o|].
  - destruct (check_sizes src o (d - 1) (zrange 0 (dim o))) as [[]|] eqn:Ec;
      simpl in H; try discriminate.
    destruct (size o (d - 1)) as [so|] eqn:Eso; simpl in H; try discriminate.
    destruct (size ip (d - 1)) as [si|] eqn:Esi; simpl in H; try discriminate.
    destruct (Z.eqb_spec so (si - 1)) as [Heq|]; try discriminate.
    inversion H; subst indptr' out; clear H.
    apply size_ok in Esi; simpl in Esi. rewrite Hd in Esi.
    assert (Hd1 : 1 <= d).
    { destruct (Z.ltb_spec (d - 1) 0); lia. }
    destruct (Z.ltb_spec (d - 1) 0); [lia|]. destruct Esi as [_ Esi].
    change (load sizes_ (d - 1)) with (load (sizes ip) (d - 1)) in Esi.
    apply size_nonneg in Eso; [|lia]. destruct Eso as [Hdo Eso].
    repeat split; auto; try lia.
    + intros i Hi. symmetry.
      eapply check_sizes_ok; eauto; try lia. apply zrange_In; lia.
  - destruct (size ip (d - 1)) as [si|] eqn:Esi; simpl in H; try discriminate.
    unfold torch_empty in H.
    destruct (forallb (fun s => 0 <=? s)
                (store (sizes src) (d - 1) (si - 1))) eqn:Ef;
      simpl in H; try discriminate.
    inversion H; subst indptr' out; clear H.
    apply size_ok in Esi; simpl in Esi. rewrite Hd in Esi.
    assert (Hd1 : 1 <= d).
    { destruct (Z.ltb_spec (d - 1) 0); lia. }
    destruct (Z.ltb_spec (d - 1) 0); [lia|]. destruct Esi as [_ Esi].
    change (load sizes_ (d - 1)) with (load (sizes ip) (d - 1)) in Esi.
    rewrite Hlast in Esi. subst si.
    repeat split; auto; try lia.
    + unfold dim; simpl. rewrite store_length. fold (dim src). lia.
    + unfold dense; simpl. rewrite Ef; simpl.
      apply Z.eqb_eq. unfold numel; simpl.
      rewrite length_map, zrange_length.
      assert (0 <= fold_right Z.mul 1
                     (store (sizes src) (d - 1)
                        (load (sizes indptr) (d - 1) - 1))).
      { rewrite fold_mul_prod_range. apply prod_range_nonneg.
        intros; now apply forallb_nonneg_load. }
      lia.
    + simpl. apply load_store_same. unfold dim in *; lia.
    + intros i Hi. simpl. apply load_store_other; lia.
Qed.

(** The facts that [segment_csr] has established when its loops start. *)
Lemma csr_setup_ok (fresh : Z -> Z) (src indptr : Tensor)
      (out_opt : option Tensor) (reduce : string) (c : csr_setup) :
  segment_csr_setup fresh src indptr out_opt reduce = Ok c ->
  dense src = true ->
  (forall o, out_opt = Some o -> dense o = true) ->
  let d := dim indptr in
  segment_csr_shapes fresh src indptr out_opt = Ok (csr_indptr c, csr_out c) /\
  lookup_reduce reduce = Ok (csr_REDUCE c) /\
  csr_arg_out c =
    (if is_arg_reduction (csr_REDUCE c)
     then Some (full_like (csr_out c) (csr_E c)) else None) /\
  csr_E c = load (sizes src) (d - 1) /\
  csr_last c = load (sizes indptr) (d - 1) /\
  csr_stride c = load (strides (csr_indptr c)) (d - 1) /\
  csr_N c = (csr_last c - 1) * prod_range (load (sizes src)) 0 (d - 1) /\
  0 < csr_N c /\ 0 <= csr_K c /\
  csr_N c * csr_K c = numel (csr_out c).
Proof.
  intros H Hsrc Hout d. unfold segment_csr_setup, segment_csr_params in H.
  destruct (segment_csr_shapes fresh src indptr out_opt) as [[ip out]|] eqn:Es;
    simpl in H; try discriminate.
  destruct (csr_shapes_ok _ _ _ _ _ _ Es Hsrc Hout)
    as (Hdata & Hd & Hdr & Hdo & Hsz & Hdense & Hlast & Hpre & _).
  fold d in Hd, Hdr, Hdo, Hsz, Hlast, Hpre.
  rewrite Hd in H.
  destruct (lookup_reduce reduce) as [R|] eqn:El; simpl in H; try discriminate.
  assert (HE : forall v, size src (d - 1) = Ok v -> v = load (sizes src) (d - 1)).
  { intros v Hv. apply size_nonneg in Hv; [tauto|lia]. }
  destruct (if is_arg_reduction R
            then bind (size src (d - 1))
                   (fun e => Ok (Some (full_like out e)))
            else Ok None) as [ao|] eqn:Ea; simpl in H; try discriminate.
  destruct (size out (d - 1)) as [so|] eqn:Eso; simpl in H; try discriminate.
  destruct (size ip (-1)) as [last|] eqn:Ela; simpl in H; try discriminate.
  destruct (Z.eqb_spec last 0) as [|Hl0]; simpl in H; try discriminate.
  destruct (Z.eqb_spec (so * Z.quot (numel ip) last) 0) as [|HN0];
    simpl in H; try discriminate.
  destruct (size src (d - 1)) as [E|] eqn:EE; simpl in H; try discriminate.
  inversion H; subst c; clear H; simpl.
  pose proof (HE _ eq_refl) as ->.
  apply size_nonneg in Eso; [|lia]. destruct Eso as [_ ->].
  apply size_last in Ela. rewrite Hd in Ela. destruct Ela as [_ Ela].
  assert (Hlast' : last = load (sizes indptr) (d - 1)).
  { rewrite Ela, Hsz. destruct (Z.ltb_spec (d - 1) (d - 1)); [lia|].
    now rewrite andb_false_r. }
  set (B := prod_range (load (sizes src)) 0 (d - 1)).
  assert (Hnum : numel ip = B * last).
  { rewrite numel_prod_range, Hd.
    replace d with (d - 1 + 1) at 1 by lia.
    rewrite prod_range_snoc by lia. rewrite <- Ela. f_equal.
    apply prod_range_ext. intros i Hi. rewrite Hsz.
    destruct (Z.leb_spec 0 i), (Z.ltb_spec i (d - 1)); simpl; auto; lia. }
  assert (HB : 0 <= B).
  { apply prod_range_nonneg. intros; now apply dense_sizes. }
  rewrite Hnum, Z.quot_mul in * by auto.
  set (R' := prod_range (load (sizes out)) d (dim out)).
  assert (Hout' : numel out = B * load (sizes out) (d - 1) * R').
  { rewrite numel_prod_range.
    rewrite (prod_range_split _ 0 d (dim out)) by lia.
    replace d with (d - 1 + 1) at 1 by lia.
    rewrite prod_range_snoc by lia. fold R'. do 2 f_equal.
    apply prod_range_ext. intros i Hi. apply Hpre; lia. }
  assert (HR : 0 <= R').
  { apply prod_range_nonneg. intros; now apply dense_sizes. }
  assert (Hso : 0 <= load (sizes out) (d - 1)) by now apply dense_sizes.
  assert (HK : Z.quot (numel out) (load (sizes out) (d - 1) * B) = R').
  { rewrite Hout'.
    replace (B * load (sizes out) (d - 1) * R')
      with (R' * (load (sizes out) (d - 1) * B)) by ring.
    now apply Z.quot_mul. }
  rewrite HK.
  repeat split; auto.
  - destruct (is_arg_reduction R); simpl in Ea; now inversion Ea.
  - rewrite Hlast', <- Hlast. reflexivity.
  - nia.
  - rewrite Hout'. ring.
Qed.

(** ** [segment_csr] and the contents of [out] *)

Lemma size_sizes (t1 t2 : Tensor) (i : Z) :
  sizes t1 = sizes t2 -> size t1 i = size t2 i.
Proof. intros H; unfold size, dim; now rewrite H. Qed.

Lemma check_sizes_sizes (src o1 o2 : Tensor) (reduce_dim : Z) (ds : list Z) :
  sizes o1 = sizes o2 ->
  check_sizes src o1 reduce_dim ds = check_sizes src o2 reduce_dim ds.
Proof.
  intros H; induction ds as [|d ds IH]; simpl; auto.
  rewrite IH, (size_sizes o1 o2 d H). reflexivity.
Qed.

(** The set-up of [segment_csr] looks at the extents of [out] only. *)
Lemma csr_setup_out_irrelevant (fresh : Z -> Z) (src indptr out1 out2 : Tensor)
      (reduce : string) :
  sizes out1 = sizes out2 ->
  match segment_csr_setup fresh src indptr (Some out1) reduce,
        segment_csr_setup fresh src indptr (Some out2) reduce with
  | Ok c1, Ok c2 =>
      csr_REDUCE c1 = csr_REDUCE c2 /\ csr_indptr c1 = csr_indptr c2 /\
      csr_out c1 = out1 /\ csr_out c2 = out2 /\
      csr_arg_out c1 = csr_arg_out c2 /\ csr_last c1 = csr_last c2 /\
      csr_stride c1 = csr_stride c2 /\ csr_N c1 = csr_N c2 /\
      csr_K c1 = csr_K c2 /\ csr_E c1 = csr_E c2
  | Raise f1, Raise f2 => f1 = f2
  | _, _ => False
  end.
Proof.
  intros H.
  assert (E1 : forall rd ds, check_sizes src out1 rd ds
                             = check_sizes src out2 rd ds)
    by (intros; now apply check_sizes_sizes).
  assert (E2 : forall i, size out1 i = size out2 i)
    by (intros; now apply size_sizes).
  assert (E3 : numel out1 = numel out2) by (unfold numel; now rewrite H).
  assert (E4 : forall e, full_like out1 e = full_like out2 e)
    by (intros; unfold full_like; now rewrite H, E3).
  assert (E5 : dim out1 = dim out2) by (unfold dim; now rewrite H).
  unfold segment_csr_setup, segment_csr_params, segment_csr_shapes.
  destruct (dim src >=? dim indptr); simpl; auto.
  destruct (expand indptr _) as [ip|]; simpl; auto.
  rewrite E1, E2, E5.
  destruct (check_sizes src out2 _ _) as [[]|]; simpl; auto.
  destruct (size out2 (dim ip - 1)) as [so|]; simpl; auto.
  destruct (size ip (dim ip - 1)) as [si|]; simpl; auto.
  destruct (so =? si - 1); simpl; auto.
  destruct (lookup_reduce reduce) as [R|]; simpl; auto.
  rewrite E2, E3.
  destruct (is_arg_reduction R); simpl.
  - destruct (size src (dim ip - 1)) as [e|]; simpl; auto.
    destruct (size out2 (dim ip - 1)) as [so'|]; simpl; auto.
    destruct (size ip (-1)) as [la|]; simpl; auto.
    destruct (la =? 0); simpl; auto.
    destruct (so' * Z.quot (numel ip) la =? 0); simpl; auto.
    rewrite E4. repeat split; auto.
  - destruct (size out2 (dim ip - 1)) as [so'|]; simpl; auto.
    destruct (size ip (-1)) as [la|]; simpl; auto.
    destruct (la =? 0); simpl; auto.
    destruct (so' * Z.quot (numel ip) la =? 0); simpl; auto.
    destruct (size src (dim ip - 1)) as [e|]; simpl; auto.
    repeat split; auto.
Qed.

Lemma csr_group_frame (scalar_t : scalar_type) (REDUCE : ReductionType)
      (src_data : list Z) (indptr_info : Tensor)
      (indptr_size_last stride K E n : Z) (b : buffers) (p : Z) :
  length (vals b) = Z.to_nat K -> length (args b) = Z.to_nat K ->
  ~ n * K <= p < n * K + K ->
  load (out_data (csr_group scalar_t REDUCE src_data indptr_info
                    indptr_size_last stride K E n b)) p
  = load (out_data b) p.
Proof.
  intros Hv Ha Hp.
  destruct (csr_group_spec scalar_t REDUCE src_data indptr_info
              indptr_size_last stride K E n b Hv Ha)
    as (_ & _ & _ & -> & _).
  rewrite load_store_lanes.
  destruct (Z.leb_spec (n * K) p), (Z.ltb_spec p (n * K + K)); simpl; auto.
  lia.
Qed.

Lemma lane_addr_decompose (p N K : Z) :
  0 <= p < N * K -> 0 <= N -> 0 <= K ->
  exists n k, 0 <= n < N /\ 0 <= k < K /\ p = n * K + k.
Proof.
  intros Hp HN HK.
  assert (0 < K) by nia.
  exists (p / K), (p mod K).
  pose proof (Z.div_mod p K ltac:(lia)).
  pose proof (Z.mod_pos_bound p K ltac:(lia)).
  repeat split; try lia.
  - apply Z.div_pos; lia.
  - apply Z.div_lt_upper_bound; lia.
Qed.

(** The storage of [out] returned by [segment_csr]: every position
    [n * K + k] holds what [write] stored for lane [k] of group [n]. *)
Lemma csr_run_out (scalar_t : scalar_type) (fresh : Z -> Z)
      (src indptr : Tensor) (out_opt : option Tensor) (reduce : string)
      (c : csr_setup) :
  segment_csr_setup fresh src indptr out_opt reduce = Ok c ->
  dense src = true ->
  (forall o, out_opt = Some o -> dense o = true) ->
  let b := segment_csr_run scalar_t src c in
  Z.of_nat (length (out_data b)) = csr_N c * csr_K c /\
  forall n k, 0 <= n < csr_N c -> 0 <= k < csr_K c ->
    load (out_data b) (n * csr_K c + k) =
    written_value scalar_t (csr_REDUCE c)
      (csr_lane_val scalar_t (csr_REDUCE c) (data src) (csr_indptr c)
         (csr_last c) (csr_stride c) (csr_K c) (csr_E c) n k)
      (csr_count (csr_indptr c) (csr_stride c) n).
Proof.
  intros Hs Hsrc Hout b.
  destruct (csr_setup_ok _ _ _ _ _ _ Hs Hsrc Hout)
    as (Hsh & _ & _ & _ & _ & _ & _ & HN & HK & HNK).
  destruct (csr_shapes_ok _ _ _ _ _ _ Hsh Hsrc Hout)
    as (_ & _ & _ & _ & _ & Hdense & _).
  apply dense_length in Hdense.
  destruct (csr_kernel_spec scalar_t (csr_REDUCE c) (data src) (csr_indptr c)
              (csr_last c) (csr_stride c) (csr_N c) (csr_K c) (csr_E c)
              (data (csr_out c)) (arg_data (csr_arg_out c))
              ltac:(lia) HK)
    as (Hlen & _ & Hval & _).
  fold (segment_csr_run scalar_t src c) in Hlen, Hval. fold b in Hlen, Hval.
  split; [lia|].
  intros n k Hn Hk. apply Hval; auto.
  rewrite Hdense, <- HNK. nia.
Qed.

(** C9: the values that [segment_csr] returns do not depend on what a
    caller-supplied [out] held.  Two calls that differ only in the storage
    of [out] fail alike or return the same values; the storage returned has
    exactly [N * K] elements, element [n * K + k] is the value that the
    [write] of lane [k] of group [n] stored, and a group leaves every
    position outside its own [K] lanes as it found it. *)
Theorem csr_output_independent_of_out
    (scalar_t : scalar_type) (fresh : Z -> Z)
    (src indptr out1 out2 : Tensor) (reduce : string) :
  dense src = true -> dense out1 = true -> dense out2 = true ->
  sizes out1 = sizes out2 ->
  match segment_csr scalar_t fresh src indptr (Some out1) reduce,
        segment_csr scalar_t fresh src indptr (Some out2) reduce with
  | Ok (o1, _), Ok (o2, _) => data o1 = data o2
  | Raise f1, Raise f2 => f1 = f2
  | _, _ => False
  end /\
  forall c, segment_csr_setup fresh src indptr (Some out1) reduce = Ok c ->
    let b := segment_csr_run scalar_t src c in
    Z.of_nat (length (out_data b)) = csr_N c * csr_K c /\
    (forall n k, 0 <= n < csr_N c -> 0 <= k < csr_K c ->
       load (out_data b) (n * csr_K c + k) =
       written_value scalar_t (csr_REDUCE c)
         (csr_lane_val scalar_t (csr_REDUCE c) (data src) (csr_indptr c)
            (csr_last c) (csr_stride c) (csr_K c) (csr_E c) n k)
         (csr_count (csr_indptr c) (csr_stride c) n)) /\
    (forall n b' p,
       length (vals b') = Z.to_nat (csr_K c) ->
       length (args b') = Z.to_nat (csr_K c) ->
       ~ n * csr_K c <= p < n * csr_K c + csr_K c ->
       load (out_data
               (csr_group scalar_t (csr_REDUCE c) (data src) (csr_indptr c)
                  (csr_last c) (csr_stride c) (csr_K c) (csr_E c) n b')) p
       = load (out_data b') p).
Proof.
  intros Hsrc Hd1 Hd2 Hsz.
  assert (Ho1 : forall o, Some out1 = Some o -> dense o = true)
    by (intros o E; now inversion E; subst).
  assert (Ho2 : forall o, Some out2 = Some o -> dense o = true)
    by (intros o E; now inversion E; subst).
  split.
  - pose proof (csr_setup_out_irrelevant fresh src indptr out1 out2 reduce Hsz)
      as Hirr.
    unfold segment_csr.
    destruct (segment_csr_setup fresh src indptr (Some out1) reduce)
      as [c1|f1] eqn:E1;
      destruct (segment_csr_setup fresh src indptr (Some out2) reduce)
      as [c2|f2] eqn:E2; simpl; auto.
    destruct Hirr as (HR & Hip & _ & _ & _ & Hla & Hst & HN & HK & HE).
    destruct (csr_run_out scalar_t _ _ _ _ _ _ E1 Hsrc Ho1) as [Hl1 Hv1].
    destruct (csr_run_out scalar_t _ _ _ _ _ _ E2 Hsrc Ho2) as [Hl2 Hv2].
    destruct (csr_setup_ok _ _ _ _ _ _ E1 Hsrc Ho1)
      as (_ & _ & _ & _ & _ & _ & _ & HN0 & HK0 & _).
    apply list_ext; [lia|].
    intros p Hp. rewrite Hl1 in Hp.
    destruct (lane_addr_decompose p (csr_N c1) (csr_K c1) Hp)
      as (n & k & Hn & Hk & ->); try lia.
    rewrite Hv1 by auto.
    replace (n * csr_K c1 + k) with (n * csr_K c2 + k) by now rewrite HK.
    rewrite Hv2 by lia.
    now rewrite HR, Hip, Hla, Hst, HK, HE.
  - intros c Hc b.
    destruct (csr_run_out scalar_t _ _ _ _ _ _ Hc Hsrc Ho1) as [Hl Hv].
    repeat split; auto.
    intros n b' p Hv' Ha' Hp. now apply csr_group_frame.
Qed.

Lemma csr_output_independent_of_out_witness :
  match segment_csr int64_t (fun _ => 0)
          {| sizes := [5]; strides := [1]; data := [1; 2; 3; 4; 5] |}
          {| sizes := [3]; strides := [1]; data := [0; 2; 5] |}
          (Some {| sizes := [2]; strides := [1]; data := [7; 8] |}) "sum",
        segment_csr int64_t (fun _ => 0)
          {| sizes := [5]; strides := [1]; data := [1; 2; 3; 4; 5] |}
          {| sizes := [3]; strides := [1]; data := [0; 2; 5] |}
          (Some {| sizes := [2]; strides := [1]; data := [-1; 40] |}) "sum"
  with
  | Ok (o1, _), Ok (o2, _) => data o1 = data o2
  | Raise f1, Raise f2 => f1 = f2
  | _, _ => False
  end.
Proof.
  apply (csr_output_independent_of_out int64_t (fun _ => 0)
           {| sizes := [5]; strides := [1]; data := [1; 2; 3; 4; 5] |}
           {| sizes := [3]; strides := [1]; data := [0; 2; 5] |}
           {| sizes := [2]; strides := [1]; data := [7; 8] |}
           {| sizes := [2]; strides := [1]; data := [-1; 40] |} "sum");
    reflexivity.
Defined.

(** ** The argument output of [segment_csr] *)

Lemma lookup_arg_reduction (reduce : string) (r : ReductionType) :
  lookup_reduce reduce = Ok r ->
  (is_arg_reduction r = true <-> reduce = "min"%string \/ reduce = "max"%string).
Proof.
  intros H. pose proof (lookup_reduce_known _ _ H) as Hin.
  simpl in Hin.
  destruct Hin as [<-|[<-|[<-|[<-|[<-|[]]]]]]; inversion H; subst; simpl;
    split; auto; try discriminate;
    intros [E|E]; discriminate E.
Qed.

(** The storage of [arg_out] when [segment_csr] returns: a position whose
    group called [write] with [count <= 0] still holds the value
    [src.size(reduce_dim)] that [full_like] put there. *)
Lemma csr_run_arg (scalar_t : scalar_type) (fresh : Z -> Z)
      (src indptr : Tensor) (out_opt : option Tensor) (reduce : string)
      (c : csr_setup) :
  segment_csr_setup fresh src indptr out_opt reduce = Ok c ->
  dense src = true ->
  (forall o, out_opt = Some o -> dense o = true) ->
  is_arg_reduction (csr_REDUCE c) = true ->
  let b := segment_csr_run scalar_t src c in
  csr_arg_out c = Some (full_like (csr_out c) (csr_E c)) /\
  Z.of_nat (length (arg_out_data b)) = csr_N c * csr_K c /\
  forall n k, 0 <= n < csr_N c -> 0 <= k < csr_K c ->
    if writes_arg (csr_REDUCE c)
         (csr_count (csr_indptr c) (csr_stride c) n)
    then exists a,
        load (arg_out_data b) (n * csr_K c + k) =
        snd (csr_lane scalar_t (csr_REDUCE c) (data src) (csr_indptr c)
               (csr_last c) (csr_stride c) (csr_K c) (csr_E c) n k
               (Reducer.init scalar_t (csr_REDUCE c), a))
    else load (arg_out_data b) (n * csr_K c + k) = csr_E c.
Proof.
  intros Hs Hsrc Hout Harg b.
  destruct (csr_setup_ok _ _ _ _ _ _ Hs Hsrc Hout)
    as (Hsh & _ & Hao & _ & _ & _ & _ & HN & HK & HNK).
  rewrite Harg in Hao.
  assert (Hlen0 : Z.of_nat (length (arg_data (csr_arg_out c)))
                  = csr_N c * csr_K c).
  { rewrite Hao; simpl. rewrite repeat_length. nia. }
  destruct (csr_kernel_spec scalar_t (csr_REDUCE c) (data src) (csr_indptr c)
              (csr_last c) (csr_stride c) (csr_N c) (csr_K c) (csr_E c)
              (data (csr_out c)) (arg_data (csr_arg_out c))
              ltac:(lia) HK)
    as (_ & Hlen & _ & _ & Hargs & _).
  fold (segment_csr_run scalar_t src c) in Hlen, Hargs. fold b in Hlen, Hargs.
  repeat split; auto; [lia|].
  intros n k Hn Hk.
  assert (Hin : n * csr_K c + k < csr_N c * csr_K c) by nia.
  specialize (Hargs n k Hn Hk ltac:(lia)).
  destruct (writes_arg _ _); auto.
  rewrite Hargs, Hao; simpl. apply load_repeat. nia.
Qed.

(** C5: for "min" and "max", [write] with [count == 0] stores [0] at the
    value address and leaves the argument buffer as it is; in [segment_csr]
    a group with [row_start == row_end] therefore ends with value [0] and
    with the sentinel [src.size(reduce_dim)] in its argument entry. *)
Theorem csr_empty_group_keeps_sentinel
    (scalar_t : scalar_type) (fresh : Z -> Z)
    (src indptr : Tensor) (out_opt : option Tensor) (reduce : string)
    (c : csr_setup) (n k : Z) :
  reduce = "min"%string \/ reduce = "max"%string ->
  dense src = true ->
  (forall o, out_opt = Some o -> dense o = true) ->
  segment_csr_setup fresh src indptr out_opt reduce = Ok c ->
  0 <= n < csr_N c -> 0 <= k < csr_K c ->
  csr_row_start (csr_indptr c) n = csr_row_end (csr_indptr c) (csr_stride c) n ->
  (forall out address val arg_out arg_address arg,
     Reducer.write scalar_t (csr_REDUCE c) out address val
       arg_out arg_address arg 0
     = (store out address 0, arg_out)) /\
  size src (dim indptr - 1) = Ok (csr_E c) /\
  exists o a,
    segment_csr scalar_t fresh src indptr out_opt reduce = Ok (o, Some a) /\
    load (data o) (n * csr_K c + k) = 0 /\
    load (data a) (n * csr_K c + k) = csr_E c.
Proof.
  intros Hred Hsrc Hout Hs Hn Hk Hrow.
  destruct (csr_setup_ok _ _ _ _ _ _ Hs Hsrc Hout)
    as (Hsh & Hl & _ & HE & _).
  assert (Harg : is_arg_reduction (csr_REDUCE c) = true)
    by (apply (lookup_arg_reduction reduce); auto).
  split; [|split].
  - intros. unfold Reducer.write.
    destruct (csr_REDUCE c); try discriminate; reflexivity.
  - destruct (csr_shapes_ok _ _ _ _ _ _ Hsh Hsrc Hout)
      as (_ & _ & Hd & _).
    unfold size. destruct (Z.ltb_spec (dim indptr - 1) 0); [lia|].
    destruct (Z.leb_spec 0 (dim indptr - 1)); [|lia].
    destruct (Z.ltb_spec (dim indptr - 1) (dim src)); [|lia].
    simpl. now rewrite HE.
  - destruct (csr_run_out scalar_t _ _ _ _ _ _ Hs Hsrc Hout) as [_ Hv].
    destruct (csr_run_arg scalar_t _ _ _ _ _ _ Hs Hsrc Hout Harg)
      as (Hao & _ & Ha).
    unfold segment_csr. rewrite Hs; simpl. rewrite Hao; simpl.
    eexists; eexists; split; [reflexivity|]. simpl.
    specialize (Hv n k Hn Hk). specialize (Ha n k Hn Hk).
    rewrite csr_count_id in Hv, Ha by lia.
    rewrite Hrow, Z.sub_diag in *.
    split.
    + rewrite Hv. unfold written_value.
      destruct (csr_REDUCE c); try discriminate; reflexivity.
    + unfold writes_arg in Ha. rewrite andb_false_r in Ha. exact Ha.
Qed.

Lemma csr_empty_group_keeps_sentinel_witness :
  exists o a,
    segment_csr int64_t (fun _ => 0)
      {| sizes := [2]; strides := [1]; data := [1; 2] |}
      {| sizes := [3]; strides := [1]; data := [0; 0; 2] |} None "min"
    = Ok (o, Some a) /\
    load (data o) (0 * 1 + 0) = 0 /\ load (data a) (0 * 1 + 0) = 2.
Proof.
  refine (proj2 (proj2
    (csr_empty_group_keeps_sentinel int64_t (fun _ => 0)
       {| sizes := [2]; strides := [1]; data := [1; 2] |}
       {| sizes := [3]; strides := [1]; data := [0; 0; 2] |} None "min"
       {| csr_REDUCE := MIN;
          csr_indptr := {| sizes := [3]; strides := [1]; data := [0; 0; 2] |};
          csr_out := {| sizes := [2]; strides := [1]; data := [0; 0] |};
          csr_arg_out := Some {| sizes := [2]; strides := [1];
                                 data := [2; 2] |};
          csr_last := 3; csr_stride := 1; csr_N := 2; csr_K := 1;
          csr_E := 2 |} 0 0 _ _ _ _ _ _ _))).
  - left; reflexivity.
  - reflexivity.
  - discriminate.
  - reflexivity.
  - simpl; lia.
  - simpl; lia.
  - reflexivity.
Defined.

(** ** Sums *)

Lemma sum_fold (scalar_t : scalar_type) (REDUCE : ReductionType)
      (x : Z -> Z) (l : list Z) (v a : Z) :
  REDUCE = SUM \/ REDUCE = MEAN ->
  fst (fold_left (fun va e => accumulate scalar_t REDUCE va (x e) e) l
         (wrap scalar_t v, a))
  = wrap scalar_t (fold_left (fun acc e => acc + x e) l v).
Proof.
  intros HR. revert v a; induction l as [|e l IH]; intros v a; simpl; auto.
  replace (accumulate scalar_t REDUCE (wrap scalar_t v, a) (x e) e)
    with (wrap scalar_t (v + x e), a).
  - apply IH.
  - unfold accumulate. destruct HR as [-> | ->]; simpl;
      now rewrite wrap_add_l.
Qed.

Lemma csr_lane_val_sum (scalar_t : scalar_type) (REDUCE : ReductionType)
      (src_data : list Z) (indptr_info : Tensor)
      (indptr_size_last stride K E n k : Z) :
  REDUCE = SUM \/ REDUCE = MEAN ->
  csr_lane_val scalar_t REDUCE src_data indptr_info indptr_size_last
    stride K E n k
  = wrap scalar_t
      (sum_range (fun e => csr_src src_data indptr_size_last K E n e k)
         (csr_row_start indptr_info n) (csr_row_end indptr_info stride n)).
Proof.
  intros HR. unfold csr_lane_val, csr_lane, sum_range.
  replace (Reducer.init scalar_t REDUCE) with (wrap scalar_t 0).
  - now apply sum_fold.
  - rewrite wrap_zero. now destruct HR as [-> | ->].
Qed.

Lemma sum_range_ext (f g : Z -> Z) (lo hi : Z) :
  (forall e, lo <= e < hi -> f e = g e) ->
  sum_range f lo hi = sum_range g lo hi.
Proof.
  intros H. unfold sum_range.
  assert (Hin : forall e, In e (zrange lo hi) -> f e = g e)
    by (intros e He; apply H, zrange_In, He).
  revert Hin. generalize 0. generalize (zrange lo hi).
  induction l as [|e l IH]; intros z Hin; simpl; auto.
  rewrite (Hin e) by (left; auto). apply IH.
  intros; apply Hin; right; auto.
Qed.

Lemma sum_range_empty (f : Z -> Z) (lo hi : Z) :
  hi <= lo -> sum_range f lo hi = 0.
Proof. intros H; unfold sum_range; now rewrite zrange_empty. Qed.

(** ** 1-D inputs *)

Lemma size_1d_first (t : Tensor) (s : Z) : sizes t = [s] -> size t 0 = Ok s.
Proof. intros E. unfold size, dim. rewrite E. reflexivity. Qed.

Lemma size_1d_last (t : Tensor) (s : Z) : sizes t = [s] -> size t (-1) = Ok s.
Proof. intros E. unfold size, dim. rewrite E. reflexivity. Qed.

Lemma numel_1d (t : Tensor) (s : Z) : sizes t = [s] -> numel t = s.
Proof. intros E. unfold numel. rewrite E. simpl. lia. Qed.

Lemma dim_1d (t : Tensor) (s : Z) : sizes t = [s] -> dim t = 1.
Proof. intros E. unfold dim. now rewrite E. Qed.

Lemma csr_params_1d (src ip out : Tensor) (reduce : string)
      (R : ReductionType) (E G st : Z) :
  sizes src = [E] -> sizes ip = [G + 1] -> strides ip = [st] ->
  sizes out = [G] -> 1 <= G ->
  lookup_reduce reduce = Ok R ->
  segment_csr_params src ip out reduce
  = Ok {| csr_REDUCE := R; csr_indptr := ip; csr_out := out;
          csr_arg_out :=
            (if is_arg_reduction R then Some (full_like out E) else None);
          csr_last := G + 1; csr_stride := st; csr_N := G; csr_K := 1;
          csr_E := E |}.
Proof.
  intros Hsrc Hip Hst Hout HG Hl. unfold segment_csr_params.
  rewrite (dim_1d ip _ Hip), Hl. change (1 - 1) with 0.
  rewrite (size_1d_first _ _ Hsrc), (size_1d_first _ _ Hout),
    (size_1d_last _ _ Hip), (numel_1d _ _ Hip), (numel_1d _ _ Hout), Hst.
  cbn [bind].
  rewrite Z.quot_same, Z.mul_1_r, Z.quot_same by lia.
  destruct (Z.eqb_spec (G + 1) 0); [lia|].
  destruct (Z.eqb_spec G 0); [lia|].
  destruct (is_arg_reduction R); reflexivity.
Qed.

Lemma csr_shapes_1d (fresh : Z -> Z) (values offsets : list Z)
      (out_opt : option Tensor) :
  let G := Z.of_nat (length offsets) - 1 in
  0 <= G ->
  match out_opt with
  | None => True
  | Some o => sizes o = [G]
  end ->
  exists out,
    segment_csr_shapes fresh (vector values) (vector offsets) out_opt
    = Ok (vector offsets, out) /\
    sizes out = [G] /\
    match out_opt with
    | None => Z.of_nat (length (data out)) = G
    | Some o => out = o
    end.
Proof.
  intros G HG Ho.
  unfold segment_csr_shapes.
  rewrite (dim_1d (vector values) _ eq_refl),
    (dim_1d (vector offsets) _ eq_refl).
  change (1 >=? 1) with true. cbv iota.
  rewrite for_range_empty by lia.
  unfold expand. cbn [vector sizes strides data expand_dims bind].
  rewrite Z.eqb_refl. cbn [bind].
  fold (vector offsets).
  rewrite (dim_1d (vector offsets) _ eq_refl). change (1 - 1) with 0.
  rewrite (size_1d_first (vector offsets) _ eq_refl).
  destruct out_opt as [o|].
  - exists o. split; [|split; auto].
    rewrite (dim_1d _ _ Ho). change (zrange 0 1) with [0].
    cbn [check_sizes Z.eqb bind].
    rewrite (size_1d_first _ _ Ho). cbn [bind].
    destruct (Z.eqb_spec G (Z.of_nat (length offsets) - 1)); [|unfold G in *; lia].
    reflexivity.
  - cbn [bind]. unfold torch_empty.
    change (store [Z.of_nat (length values)] 0
              (Z.of_nat (length offsets) - 1)) with [G].
    cbn [forallb andb].
    destruct (Z.leb_spec 0 G); [|lia].
    cbn [bind]. eexists; split; [reflexivity|split].
    + reflexivity.
    + cbn [data]. rewrite length_map, zrange_length.
      cbn [fold_right]. lia.
Qed.

Lemma csr_setup_1d (fresh : Z -> Z) (values offsets : list Z)
      (out_opt : option Tensor) (reduce : string) (R : ReductionType) :
  let G := Z.of_nat (length offsets) - 1 in
  1 <= G ->
  lookup_reduce reduce = Ok R ->
  match out_opt with
  | None => True
  | Some o => sizes o = [G]
  end ->
  exists out,
    segment_csr_setup fresh (vector values) (vector offsets) out_opt reduce
    = Ok {| csr_REDUCE := R; csr_indptr := vector offsets; csr_out := out;
            csr_arg_out :=
              (if is_arg_reduction R
               then Some (full_like out (Z.of_nat (length values)))
               else None);
            csr_last := G + 1; csr_stride := 1; csr_N := G; csr_K := 1;
            csr_E := Z.of_nat (length values) |} /\
    sizes out = [G] /\
    match out_opt with
    | None => Z.of_nat (length (data out)) = G
    | Some o => out = o
    end.
Proof.
  intros G HG Hl Ho.
  destruct (csr_shapes_1d fresh values offsets out_opt ltac:(fold G; lia) Ho)
    as (out & Hsh & Hsz & Hout).
  exists out. split; [|split; auto].
  unfold segment_csr_setup. rewrite Hsh. cbn [bind fst snd].
  apply csr_params_1d; auto.
  unfold vector; cbn [sizes]. f_equal. unfold G. lia.
Qed.

Lemma dense_vector (l : list Z) : dense (vector l) = true.
Proof.
  unfold dense, vector, numel; simpl.
  destruct (Z.leb_spec 0 (Z.of_nat (length l))); [|lia]. simpl.
  apply Z.eqb_eq. lia.
Qed.

Lemma IndexPtrToOffset_1d (offsets : list Z) (g : Z) :
  0 <= g < Z.of_nat (length offsets) - 1 ->
  IndexPtrToOffset_get g (vector offsets) = g.
Proof.
  intros H. unfold IndexPtrToOffset_get, vector; simpl.
  rewrite Z.rem_small by lia. lia.
Qed.

(** C2: on a 1-D [src] and a 1-D [indptr], "sum" (or "add") stores in
    [output[g]] the sum, in the element type, of [src] over
    [indptr[g] <= e < indptr[g+1]], for every group [g]; values
    [1,2,3,4,5] with offsets [0,2,5] give [3,12]. *)
Theorem csr_sum_1d
    (scalar_t : scalar_type) (fresh : Z -> Z) (values offsets : list Z)
    (out_opt : option Tensor) (reduce : string) (g : Z) :
  let G := Z.of_nat (length offsets) - 1 in
  reduce = "sum"%string \/ reduce = "add"%string ->
  match out_opt with
  | None => True
  | Some o => dense o = true /\ sizes o = [G]
  end ->
  (forall i, 0 <= i < G ->
     0 <= load offsets i <= load offsets (i + 1) /\
     load offsets (i + 1) <= Z.of_nat (length values)) ->
  0 <= g < G ->
  (exists out,
     segment_csr scalar_t fresh (vector values) (vector offsets) out_opt reduce
     = Ok (out, None) /\
     sizes out = [G] /\
     Z.of_nat (length (data out)) = G /\
     load (data out) g =
     wrap scalar_t
       (sum_range (load values) (load offsets g) (load offsets (g + 1)))) /\
  segment_csr scalar_t fresh (vector [1; 2; 3; 4; 5]) (vector [0; 2; 5])
    None "sum"
  = Ok ({| sizes := [2]; strides := [1]; data := [3; 12] |}, None).
Proof.
  intros G Hred Hout Hoff Hg.
  split; [|destruct scalar_t; reflexivity].
  assert (Hl : lookup_reduce reduce = Ok SUM)
    by (destruct Hred as [-> | ->]; reflexivity).
  assert (Ho : match out_opt with None => True | Some o => sizes o = [G] end)
    by (destruct out_opt; tauto).
  destruct (csr_setup_1d fresh values offsets out_opt reduce SUM
              ltac:(fold G; lia) Hl Ho) as (out & Hs & Hsz & Ho').
  fold G in Hs. cbn [is_arg_reduction ReductionType_eqb orb] in Hs.
  assert (Hdo : forall o, out_opt = Some o -> dense o = true)
    by (intros o ->; tauto).
  destruct (csr_run_out scalar_t _ _ _ _ _ _ Hs (dense_vector values) Hdo)
    as [Hlen Hv].
  cbn [csr_N csr_K csr_REDUCE csr_indptr csr_last csr_stride csr_E] in Hlen, Hv.
  unfold segment_csr. rewrite Hs. cbn [bind csr_out csr_arg_out option_map].
  eexists; split; [reflexivity|].
  cbn [with_data sizes data].
  split; [auto|]. split; [lia|].
  specialize (Hv g 0 Hg ltac:(lia)).
  replace (g * 1 + 0) with g in Hv by lia.
  rewrite Hv. unfold written_value.
  rewrite csr_lane_val_sum by auto.
  unfold csr_row_start, csr_row_end.
  rewrite IndexPtrToOffset_1d by (fold G; lia).
  f_equal. apply sum_range_ext. intros e _.
  unfold csr_src. cbn [vector data].
  replace (G + 1 - 1) with G by lia.
  rewrite Z.quot_small by lia. f_equal. lia.
Qed.

Lemma csr_sum_1d_witness :
  exists out,
    segment_csr int64_t (fun _ => 0) (vector [1; 2; 3; 4; 5])
      (vector [0; 2; 5]) None "sum" = Ok (out, None) /\
    sizes out = [2] /\
    Z.of_nat (length (data out)) = 2 /\
    load (data out) 1 =
    wrap int64_t (sum_range (load [1; 2; 3; 4; 5]) 2 5).
Proof.
  refine (proj1 (csr_sum_1d int64_t (fun _ => 0) [1; 2; 3; 4; 5] [0; 2; 5]
                   None "sum" 1 _ _ _ _)).
  - left; reflexivity.
  - exact I.
  - simpl. intros i Hi.
    assert (E : i = 0 \/ i = 1) by lia.
    destruct E as [-> | ->]; repeat split; vm_compute; discriminate.
  - simpl; lia.
Defined.

(** ** The loops of [segment_coo] *)

Lemma for_range_preserve {St A : Type} (f : St -> A) (lo hi : Z)
      (body : Z -> St -> St) (s : St) :
  (forall i s, f (body i s) = f s) ->
  f (for_range lo hi body s) = f s.
Proof.
  intros H. unfold for_range. generalize (zrange lo hi) as l.
  intros l; revert s; induction l as [|i l IH]; intros s; simpl; auto.
  now rewrite IH, H.
Qed.

(** The loop that, at a change of group, writes the finished group at
    address [a] and seeds the accumulators from address [a']. *)
Lemma transition_loop_outs (scalar_t : scalar_type) (REDUCE : ReductionType)
      (K a a' count : Z) (b : buffers) :
  let b' :=
    for_range 0 K (fun k b =>
      let b :=
        set_outs b
          (Reducer.write scalar_t REDUCE
             (out_data b) (a + k) (load (vals b) k)
             (arg_out_data b) (a + k) (load (args b) k) count) in
      set_vals b (store (vals b) k (load (out_data b) (a' + k)))) b in
  out_data b' =
    store_lanes (out_data b) a K
      (fun k => written_value scalar_t REDUCE (load (vals b) k) count) /\
  arg_out_data b' =
    (if writes_arg REDUCE count
     then store_lanes (arg_out_data b) a K (fun k => load (args b) k)
     else arg_out_data b) /\
  args b' = args b /\ length (vals b') = length (vals b).
Proof.
  simpl.
  destruct (Z.le_gt_cases 0 K) as [HK|HK].
  - match goal with |- ?G =>
      cut ((forall k, K <= k ->
              load (vals (for_range 0 K (fun k b =>
                let b := set_outs b
                  (Reducer.write scalar_t REDUCE
                     (out_data b) (a + k) (load (vals b) k)
                     (arg_out_data b) (a + k) (load (args b) k) count) in
                set_vals b (store (vals b) k (load (out_data b) (a' + k))))
                b)) k = load (vals b) k) /\ G); [tauto|] end.
    apply (for_range_ind
             (fun i b' =>
                (forall k, i <= k -> load (vals b') k = load (vals b) k) /\
                out_data b' =
                  store_lanes (out_data b) a i
                    (fun k => written_value scalar_t REDUCE
                                (load (vals b) k) count) /\
                arg_out_data b' =
                  (if writes_arg REDUCE count
                   then store_lanes (arg_out_data b) a i
                          (fun k => load (args b) k)
                   else arg_out_data b) /\
                args b' = args b /\ length (vals b') = length (vals b)));
      auto.
    + rewrite !store_lanes_zero. destruct (writes_arg _ _); auto.
    + intros i b' Hi (Hvals & Ho & Hao & Ha & Hlen).
      rewrite write_spec. cbn [set_outs set_vals set_accs fst snd vals args
                               out_data arg_out_data].
      rewrite !store_lanes_snoc by lia.
      rewrite Hvals by lia. rewrite Ho, Hao, Ha, store_length.
      repeat split; auto.
      * intros k Hk. rewrite load_store_other by lia. apply Hvals; lia.
      * now destruct (writes_arg _ _).
  - rewrite for_range_empty, !store_lanes_neg by lia.
    now destruct (writes_arg _ _).
Qed.

Section COOKernel.
Variable scalar_t : scalar_type.
Variable REDUCE : ReductionType.
Variable src_data : list Z.
Variable index_info : Tensor.
Variables stride E_1 E_2 K N : Z.
Variable NDEBUG : bool.

Abbreviation step := (coo_step scalar_t REDUCE src_data index_info
                        stride E_2 K N NDEBUG).
Abbreviation block := (coo_block scalar_t REDUCE src_data index_info
                         stride E_2 K N NDEBUG).
Abbreviation index_at := (coo_idx index_info stride E_2).

(** [out_data] after one iteration of the inner loop: only the [K] cells of
    the current group can have changed. *)
Lemma coo_step_frame (e_1 e_2 : Z) (s : coo_state) (p : Z) :
  (forall k, 0 <= k < K -> p <> e_1 * N * K + idx s * K + k) ->
  load (out_data (bufs (step e_1 (coo_offset index_info E_2 e_1) e_2 s))) p
  = load (out_data (bufs s)) p.
Proof.
  intros Hp. unfold coo_step.
  destruct (failed s); auto.
  set (b := for_range 0 K _ (bufs s)).
  assert (Hb : out_data b = out_data (bufs s)).
  { unfold b. apply (for_range_preserve out_data). intros; reflexivity. }
  assert (Hframe : forall f,
            load (store_lanes (out_data b) (e_1 * N * K + idx s * K) K f) p
            = load (out_data (bufs s)) p).
  { intros f. rewrite load_store_lanes, Hb.
    destruct (Z.leb_spec (e_1 * N * K + idx s * K) p),
      (Z.ltb_spec p (e_1 * N * K + idx s * K + K)); simpl; auto.
    exfalso. apply (Hp (p - (e_1 * N * K + idx s * K))); lia. }
  destruct (e_2 =? E_2 - 1).
  - cbn [bufs]. rewrite write_loop. cbn [set_outs out_data fst]. apply Hframe.
  - cbv zeta.
    set (next_idx := load (data index_info)
                       (coo_offset index_info E_2 e_1 + (e_2 + 1) * stride)).
    destruct (negb NDEBUG && negb (idx s <=? next_idx)); cbn [bufs];
      [now rewrite Hb|].
    destruct (negb (idx s =? next_idx)); cbn [bufs]; [|now rewrite Hb].
    destruct (transition_loop_outs scalar_t REDUCE K
                (e_1 * N * K + idx s * K) (e_1 * N * K + next_idx * K)
                (e_2 + 1 - row_start s) b) as (Ho & _).
    cbv zeta in Ho. rewrite Ho. apply Hframe.
Qed.
End COOKernel.

Section COOControl.
Variable scalar_t : scalar_type.
Variable REDUCE : ReductionType.
Variable src_data : list Z.
Variable index_info : Tensor.
Variables stride E_1 E_2 K N : Z.
Variable NDEBUG : bool.

Abbreviation step' := (coo_step scalar_t REDUCE src_data index_info
                         stride E_2 K N NDEBUG).
Abbreviation block' := (coo_block scalar_t REDUCE src_data index_info
                          stride E_2 K N NDEBUG).
Abbreviation index_at' := (coo_idx index_info stride E_2).
Abbreviation offset_of := (coo_offset index_info E_2).

(** [idx], [row_start] and [failed] after one iteration of the inner loop. *)
Lemma coo_step_control (e_1 e_2 : Z) (s : coo_state) :
  let s' := step' e_1 (offset_of e_1) e_2 s in
  if failed s then s' = s
  else if e_2 =? E_2 - 1
  then failed s' = false /\ idx s' = idx s /\ row_start s' = row_start s
  else if NDEBUG || (idx s <=? index_at' e_1 (e_2 + 1))
  then failed s' = false /\ idx s' = index_at' e_1 (e_2 + 1) /\
       (row_start s' = row_start s \/ row_start s' = e_2 + 1)
  else failed s' = true.
Proof.
  simpl. unfold coo_step.
  fold (coo_idx index_info stride E_2 e_1 (e_2 + 1)).
  destruct (failed s); auto.
  destruct (e_2 =? E_2 - 1); cbn [failed idx row_start]; auto.
  rewrite <- negb_orb.
  destruct (NDEBUG || (idx s <=? index_at' e_1 (e_2 + 1))); cbn [negb]; auto.
  destruct (negb (idx s =? index_at' e_1 (e_2 + 1)));
    cbn [failed idx row_start]; auto.
Qed.

(** The inner loop of block [e_1], stopped when iteration [i] is about to
    start. *)
Lemma coo_rows_inv (e_1 : Z) (b : buffers) (i : Z) :
  1 <= E_2 -> 0 <= i <= E_2 ->
  let s := for_range 0 i (step' e_1 (offset_of e_1))
             {| bufs := b; idx := load (data index_info) (offset_of e_1);
                row_start := 0; failed := false |} in
  (failed s = false ->
   idx s = index_at' e_1 (Z.min i (E_2 - 1)) /\
   0 <= row_start s <= Z.min i (E_2 - 1)) /\
  (failed s = true <->
   NDEBUG = false /\
   exists e_2, 0 <= e_2 < i /\ e_2 < E_2 - 1 /\
               index_at' e_1 (e_2 + 1) < index_at' e_1 e_2) /\
  (forall p,
     (forall e_2 k, 0 <= e_2 < E_2 -> 0 <= k < K ->
                    p <> e_1 * N * K + index_at' e_1 e_2 * K + k) ->
     load (out_data (bufs s)) p = load (out_data b) p).
Proof.
  intros HE [Hi0 HiE]; simpl.
  revert HiE.
  apply (for_range_ind
    (fun i s =>
       i <= E_2 ->
       (failed s = false ->
        idx s = index_at' e_1 (Z.min i (E_2 - 1)) /\
        0 <= row_start s <= Z.min i (E_2 - 1)) /\
       (failed s = true <->
        NDEBUG = false /\
        exists e_2, 0 <= e_2 < i /\ e_2 < E_2 - 1 /\
                    index_at' e_1 (e_2 + 1) < index_at' e_1 e_2) /\
       (forall p,
          (forall e_2 k, 0 <= e_2 < E_2 -> 0 <= k < K ->
                         p <> e_1 * N * K + index_at' e_1 e_2 * K + k) ->
          load (out_data (bufs s)) p = load (out_data b) p))); auto.
  - intros _. cbn [failed idx row_start bufs].
    replace (Z.min 0 (E_2 - 1)) with 0 by lia.
    repeat split; auto; try lia.
    + unfold coo_idx. f_equal. lia.
    + intros (_ & e_2 & H & _); lia.
  - intros j s Hj IH HjE.
    destruct (IH ltac:(lia)) as (Hidx & Hfail & Hfr); clear IH.
    pose proof (coo_step_control e_1 j s) as Hc; simpl in Hc.
    assert (Hframe : forall p,
              (forall e_2 k, 0 <= e_2 < E_2 -> 0 <= k < K ->
                 p <> e_1 * N * K + index_at' e_1 e_2 * K + k) ->
              load (out_data (bufs (step' e_1 (offset_of e_1) j s))) p
              = load (out_data b) p).
    { intros p Hp. destruct (failed s) eqn:Hf.
      - rewrite Hc. now apply Hfr.
      - rewrite (coo_step_frame scalar_t REDUCE src_data index_info
                   stride E_2 K N NDEBUG e_1 j s p).
        + now apply Hfr.
        + intros k Hk. destruct (Hidx eq_refl) as [-> _].
          replace (Z.min j (E_2 - 1)) with j by lia.
          apply Hp; lia. }
    destruct (failed s) eqn:Hf.
    + rewrite Hc in *. rewrite Hf.
      split; [discriminate|]. split; [|exact Hframe].
      split; auto. intros _.
      destruct (proj1 Hfail eq_refl) as (Hnd & e_2 & H1 & H2 & H3).
      split; auto. exists e_2; repeat split; auto; lia.
    + destruct (Hidx eq_refl) as (Hi & Hrs).
      replace (Z.min j (E_2 - 1)) with j in Hi, Hrs by lia.
      assert (Hnof : ~ (NDEBUG = false /\
                        exists e_2, 0 <= e_2 < j /\ e_2 < E_2 - 1 /\
                          index_at' e_1 (e_2 + 1) < index_at' e_1 e_2)).
      { intros H. apply Hfail in H. discriminate. }
      destruct (Z.eqb_spec j (E_2 - 1)) as [Hlast|Hlast].
      * destruct Hc as (Hf' & Hi' & Hr'). rewrite Hf', Hi', Hr'.
        replace (Z.min (j + 1) (E_2 - 1)) with j by lia.
        split; [intros _; split; auto; lia|].
        split; [|exact Hframe].
        split; [discriminate|].
        intros (Hnd & e_2 & H1 & H2 & H3). exfalso. apply Hnof.
        split; auto. exists e_2; repeat split; auto; lia.
      * rewrite Hi in Hc.
        destruct (NDEBUG || (index_at' e_1 j <=? index_at' e_1 (j + 1)))
          eqn:Hok.
        -- destruct Hc as (Hf' & Hi' & Hr'). rewrite Hf', Hi'.
           replace (Z.min (j + 1) (E_2 - 1)) with (j + 1) by lia.
           split; [intros _; split; auto; lia|].
           split; [|exact Hframe].
           split; [discriminate|].
           intros (Hnd & e_2 & H1 & H2 & H3). exfalso.
           rewrite Hnd in Hok. cbn [orb] in Hok. apply Z.leb_le in Hok.
           destruct (Z.eq_dec e_2 j) as [->|]; [lia|].
           apply Hnof. split; auto. exists e_2; repeat split; auto; lia.
        -- apply orb_false_iff in Hok. destruct Hok as [Hnd Hgt].
           apply Z.leb_gt in Hgt.
           rewrite Hc. split; [discriminate|].
           split; [|exact Hframe].
           split; auto. intros _. split; auto.
           exists j; repeat split; auto; lia.
Qed.
End COOControl.

Section COOSpec.
Variable scalar_t : scalar_type.
Variable REDUCE : ReductionType.
Variable src_data : list Z.
Variable index_info : Tensor.
Variables stride E_1 E_2 K N : Z.
Variable NDEBUG : bool.

Abbreviation block'' := (coo_block scalar_t REDUCE src_data index_info
                           stride E_2 K N NDEBUG).
Abbreviation index_at'' := (coo_idx index_info stride E_2).

(** One block: [assert] fails in it exactly when it is compiled in and the
    indices of the block decrease somewhere, and the block writes [out_data]
    only at the cells of the groups that its indices name. *)
Lemma coo_block_spec (e_1 : Z) (s : coo_state) :
  failed s = false ->
  let s' := block'' e_1 s in
  (failed s' = true <->
   NDEBUG = false /\
   exists e_2, 0 <= e_2 < E_2 - 1 /\
               index_at'' e_1 (e_2 + 1) < index_at'' e_1 e_2) /\
  (forall p,
     (forall e_2 k, 0 <= e_2 < E_2 -> 0 <= k < K ->
                    p <> e_1 * N * K + index_at'' e_1 e_2 * K + k) ->
     load (out_data (bufs s')) p = load (out_data (bufs s)) p).
Proof.
  intros Hf; simpl. unfold coo_block. rewrite Hf.
  fold (coo_offset index_info E_2 e_1).
  set (b := for_range 0 K _ (bufs s)).
  assert (Hb : out_data b = out_data (bufs s)).
  { unfold b. apply (for_range_preserve out_data). intros; reflexivity. }
  destruct (Z.le_gt_cases 1 E_2) as [HE|HE].
  - destruct (coo_rows_inv scalar_t REDUCE src_data index_info stride E_2
                K N NDEBUG e_1 b E_2 HE ltac:(lia)) as (_ & Hfail & Hfr).
    split.
    + rewrite Hfail.
      split; intros (Hnd & e_2 & H); (split; [auto|]); exists e_2; lia.
    + intros p Hp. rewrite <- Hb. now apply Hfr.
  - rewrite for_range_empty by lia. cbn [failed bufs]. split.
    + split; [discriminate|]. intros (_ & e_2 & H & _); lia.
    + intros p _. now rewrite Hb.
Qed.

(** The loops of [segment_coo]: the call stops at the assertion exactly
    when the assertion is compiled in and the index array decreases. *)
Lemma coo_kernel_spec (out arg_out : list Z) :
  let s := coo_kernel scalar_t REDUCE src_data index_info stride E_1 E_2 K N
             NDEBUG out arg_out in
  (failed s = true <->
   NDEBUG = false /\ coo_decreases index_info stride E_2 E_1) /\
  (forall p,
     (forall e_1 e_2 k, 0 <= e_1 < E_1 -> 0 <= e_2 < E_2 -> 0 <= k < K ->
                        p <> e_1 * N * K + index_at'' e_1 e_2 * K + k) ->
     load (out_data (bufs s)) p = load out p).
Proof.
  simpl. unfold coo_kernel.
  destruct (Z.le_gt_cases 0 E_1) as [HE|HE].
  - apply (for_range_ind
      (fun i s =>
         (failed s = true <->
          NDEBUG = false /\ coo_decreases index_info stride E_2 i) /\
         (forall p,
            (forall e_1 e_2 k, 0 <= e_1 < E_1 -> 0 <= e_2 < E_2 ->
                               0 <= k < K ->
                               p <> e_1 * N * K + index_at'' e_1 e_2 * K + k) ->
            load (out_data (bufs s)) p = load out p))); auto.
    + cbn [failed bufs out_data]. split; auto.
      split; [discriminate|]. intros (_ & e_1 & e_2 & H & _); lia.
    + intros i s Hi [Hfail Hfr].
      destruct (failed s) eqn:Hf.
      * unfold coo_block. rewrite Hf. split; auto. rewrite Hf.
        split; auto. intros _.
        destruct (proj1 Hfail eq_refl) as (Hnd & e_1 & e_2 & H1 & H2).
        split; auto. exists e_1, e_2. split; [lia|auto].
      * destruct (coo_block_spec i s Hf) as [Hfail' Hfr'].
        split.
        -- rewrite Hfail'. split.
           ++ intros (Hnd & e_2 & H1 & H2). split; auto.
              exists i, e_2. split; [lia|auto].
           ++ intros (Hnd & e_1 & e_2 & H1 & H2 & H3). split; auto.
              destruct (Z.eq_dec e_1 i) as [->|]; [exists e_2; auto|].
              assert (Hd : NDEBUG = false /\
                           coo_decreases index_info stride E_2 i)
                by (split; auto; exists e_1, e_2; split; [lia|auto]).
              apply Hfail in Hd. discriminate.
        -- intros p Hp. rewrite Hfr'.
           ++ now apply Hfr.
           ++ intros e_2 k H2 Hk. apply Hp; auto.
  - rewrite for_range_empty by lia. cbn [failed bufs out_data]. split; auto.
    split; [discriminate|]. intros (_ & e_1 & e_2 & H & _); lia.
Qed.
End COOSpec.

(** ** [segment_coo]: sortedness and frame *)

Lemma segment_coo_unfold (scalar_t : scalar_type) (NDEBUG : bool)
      (src index out : Tensor)
      (reduce : string) (c : coo_setup) :
  segment_coo_setup src index out reduce = Ok c ->
  segment_coo scalar_t NDEBUG src index out reduce =
  (out_data (bufs (segment_coo_run scalar_t NDEBUG src out c)),
   if failed (segment_coo_run scalar_t NDEBUG src out c)
   then Raise AssertionFailed
   else Ok (with_data out
              (out_data (bufs (segment_coo_run scalar_t NDEBUG src out c))),
            option_map
              (fun a => with_data a
                 (arg_out_data
                    (bufs (segment_coo_run scalar_t NDEBUG src out c))))
              (coo_arg_out c))).
Proof. intros H. unfold segment_coo. now rewrite H. Qed.

(** C7 as stated fails: the comparison of a group index with the next one
    is the argument of [assert], which a build that defines [NDEBUG] does
    not evaluate.  In such a build the index array [2, 1] decreases, and
    the call returns: it stores [3 + 4] for group 2, then [3 + 5] for
    group 1. *)
Lemma coo_ndebug_accepts_unsorted :
  coo_decreases (vector [2; 1]) 1 2 1 /\
  segment_coo int64_t true (vector [4; 5]) (vector [2; 1]) (vector [3; 3; 0])
    "sum"
  = ([3; 8; 7], Ok (vector [3; 8; 7], None)).
Proof.
  split; [|reflexivity].
  exists 0, 0. split; [lia|]. split; [lia|]. vm_compute; reflexivity.
Qed.

(** C7, amended: [segment_coo] compares every group index with the next one
    of its block in an [assert].  When the assertion is compiled in
    ([NDEBUG] not defined), the call ends in the failed [assert] exactly
    when the index array decreases somewhere along the reduce dimension;
    when [NDEBUG] is defined, it never does.  In either build the call
    returns when the index array is sorted. *)
Theorem coo_assert_detects_unsorted
    (scalar_t : scalar_type) (NDEBUG : bool) (src index out : Tensor)
    (reduce : string) (c : coo_setup) :
  segment_coo_setup src index out reduce = Ok c ->
  (snd (segment_coo scalar_t NDEBUG src index out reduce)
   = Raise AssertionFailed <->
   NDEBUG = false /\
   coo_decreases (coo_index c) (coo_stride c) (coo_E_2 c) (coo_E_1 c)) /\
  (NDEBUG = true \/
   (forall e_1 e_2, 0 <= e_1 < coo_E_1 c -> 0 <= e_2 < coo_E_2 c - 1 ->
      coo_idx (coo_index c) (coo_stride c) (coo_E_2 c) e_1 e_2
      <= coo_idx (coo_index c) (coo_stride c) (coo_E_2 c) e_1 (e_2 + 1)) ->
   exists o a,
     snd (segment_coo scalar_t NDEBUG src index out reduce) = Ok (o, a)).
Proof.
  intros Hs. rewrite (segment_coo_unfold scalar_t NDEBUG _ _ _ _ _ Hs).
  cbn [snd].
  destruct (coo_kernel_spec scalar_t (coo_REDUCE c) (data src) (coo_index c)
              (coo_stride c) (coo_E_1 c) (coo_E_2 c) (coo_K c) (coo_N c)
              NDEBUG (data out) (arg_data (coo_arg_out c))) as [Hfail _].
  fold (segment_coo_run scalar_t NDEBUG src out c) in Hfail.
  split.
  - rewrite <- Hfail.
    destruct (failed (segment_coo_run scalar_t NDEBUG src out c)); split;
      auto; discriminate.
  - intros Hok.
    destruct (failed (segment_coo_run scalar_t NDEBUG src out c)) eqn:Hf.
    + destruct (proj1 Hfail eq_refl) as (Hnd & e_1 & e_2 & H1 & H2 & H3).
      destruct Hok as [Hd | Hsorted]; [congruence|].
      specialize (Hsorted e_1 e_2 H1 H2). lia.
    + eexists; eexists; reflexivity.
Qed.

Lemma coo_assert_detects_unsorted_witness :
  snd (segment_coo int64_t false (vector [4; 5]) (vector [2; 1])
         (vector [3; 3; 0]) "sum") = Raise AssertionFailed <->
  false = false /\ coo_decreases (vector [2; 1]) 1 2 1.
Proof.
  apply (coo_assert_detects_unsorted int64_t false
           (vector [4; 5]) (vector [2; 1]) (vector [3; 3; 0]) "sum"
           {| coo_REDUCE := SUM; coo_index := vector [2; 1];
              coo_arg_out := None; coo_stride := 1;
              coo_E_1 := 1; coo_E_2 := 2; coo_K := 1; coo_N := 3 |}).
  reflexivity.
Defined.

(** C10: provided the group indices lie in [0, N), a group [g] that the
    index array does not name within block [e_1] keeps its value-output
    entries [out[e_1, g, :]]: [segment_coo] writes only at the group indices
    it reads. *)
Theorem coo_unnamed_group_untouched
    (scalar_t : scalar_type) (NDEBUG : bool) (src index out : Tensor)
    (reduce : string)
    (c : coo_setup) (e_1 g k : Z) :
  segment_coo_setup src index out reduce = Ok c ->
  (forall e e_2, 0 <= e < coo_E_1 c -> 0 <= e_2 < coo_E_2 c ->
     0 <= coo_idx (coo_index c) (coo_stride c) (coo_E_2 c) e e_2 < coo_N c) ->
  0 <= e_1 < coo_E_1 c -> 0 <= g < coo_N c -> 0 <= k < coo_K c ->
  (forall e_2, 0 <= e_2 < coo_E_2 c ->
     coo_idx (coo_index c) (coo_stride c) (coo_E_2 c) e_1 e_2 <> g) ->
  load (fst (segment_coo scalar_t NDEBUG src index out reduce))
    (e_1 * coo_N c * coo_K c + g * coo_K c + k)
  = load (data out) (e_1 * coo_N c * coo_K c + g * coo_K c + k).
Proof.
  intros Hs Hrange He Hg Hk Hno.
  rewrite (segment_coo_unfold scalar_t NDEBUG _ _ _ _ _ Hs). cbn [fst].
  destruct (coo_kernel_spec scalar_t (coo_REDUCE c) (data src) (coo_index c)
              (coo_stride c) (coo_E_1 c) (coo_E_2 c) (coo_K c) (coo_N c) NDEBUG
              (data out) (arg_data (coo_arg_out c))) as [_ Hfr].
  fold (segment_coo_run scalar_t NDEBUG src out c) in Hfr.
  apply Hfr. intros e e_2 k' He' He2 Hk' Heq.
  set (i := coo_idx (coo_index c) (coo_stride c) (coo_E_2 c) e e_2) in *.
  pose proof (Hrange e e_2 He' He2) as Hi. fold i in Hi.
  destruct (lane_addr_inj (e_1 * coo_N c + g) (e * coo_N c + i) k k'
              (coo_K c) Hk Hk') as [H1 _].
  { replace ((e_1 * coo_N c + g) * coo_K c + k)
      with (e_1 * coo_N c * coo_K c + g * coo_K c + k) by ring.
    rewrite Heq. ring. }
  destruct (lane_addr_inj e_1 e g i (coo_N c) Hg Hi H1) as [-> Hgi].
  apply (Hno e_2 He2). fold i. lia.
Qed.

Lemma coo_unnamed_group_untouched_witness :
  load (fst (segment_coo int64_t false (vector [1; 2; 3]) (vector [0; 0; 2])
               (vector [10; 20; 30]) "sum")) (0 * 3 * 1 + 1 * 1 + 0)
  = load [10; 20; 30] (0 * 3 * 1 + 1 * 1 + 0).
Proof.
  apply (coo_unnamed_group_untouched int64_t false
           (vector [1; 2; 3]) (vector [0; 0; 2]) (vector [10; 20; 30]) "sum"
           {| coo_REDUCE := SUM; coo_index := vector [0; 0; 2];
              coo_arg_out := None; coo_stride := 1;
              coo_E_1 := 1; coo_E_2 := 3; coo_K := 1; coo_N := 3 |} 0 1 0).
  - reflexivity.
  - cbn [coo_E_1 coo_E_2 coo_N coo_index coo_stride]. intros e e_2 He He2.
    assert (e = 0) by lia; subst.
    assert (E : e_2 = 0 \/ e_2 = 1 \/ e_2 = 2) by lia.
    destruct E as [-> | [-> | ->]]; vm_compute; split; congruence.
  - simpl; lia.
  - simpl; lia.
  - simpl; lia.
  - cbn [coo_E_1 coo_E_2 coo_N coo_index coo_stride]. intros e_2 He2.
    assert (E : e_2 = 0 \/ e_2 = 1 \/ e_2 = 2) by lia.
    destruct E as [-> | [-> | ->]]; vm_compute; congruence.
Defined.

(** ** The argument output *)


Lemma coo_setup_arg_out (src index out : Tensor) (reduce : string)
      (c : coo_setup) :
  segment_coo_setup src index out reduce = Ok c ->
  lookup_reduce reduce = Ok (coo_REDUCE c) /\
  size src (dim (coo_index c) - 1) = Ok (coo_E_2 c) /\
  coo_arg_out c =
    (if is_arg_reduction (coo_REDUCE c)
     then Some (full_like out (coo_E_2 c)) else None).
Proof.
  unfold segment_coo_setup. intros H.
  destruct (segment_coo_shapes src index out) as [ix|]; simpl in H;
    try discriminate.
  destruct (lookup_reduce reduce) as [R|]; simpl in H; try discriminate.
  destruct (size src (dim ix - 1)) as [E|] eqn:EE.
  - destruct (is_arg_reduction R) eqn:HR; simpl in H;
      destruct (negb (E =? 0)); try discriminate;
      destruct (negb (numel ix =? 0)); try discriminate;
      destruct (size out (dim ix - 1)); simpl in H; try discriminate;
      inversion H; subst; simpl; rewrite HR; auto.
  - destruct (is_arg_reduction R); simpl in H; discriminate.
Qed.



(** ** [segment_coo] across calls *)

(** C1 (the code departs from the claim): at the start of a block the
    accumulators are read from [out_data[e_1 * N * K + k]], the cells of
    group 0, whatever the first group index [idx] is; only the re-seed at a
    change of group reads the cells of [next_idx].  After a first call that
    leaves [3,3,0], the call with index [2] and value [4] adds [out[0]] and
    stores [7] in [out[2]]. *)
Theorem coo_block_seed_reads_group_zero
    (scalar_t : scalar_type) (NDEBUG : bool) :
  segment_coo scalar_t NDEBUG (vector [1; 2; 3]) (vector [0; 0; 1])
    (vector [0; 0; 0]) "sum"
  = ([3; 3; 0], Ok (vector [3; 3; 0], None)) /\
  segment_coo scalar_t NDEBUG (vector [4]) (vector [2]) (vector [3; 3; 0])
    "sum"
  = ([3; 3; 7], Ok (vector [3; 3; 7], None)).
Proof. destruct scalar_t, NDEBUG; split; reflexivity. Qed.

(** ** Mean *)

(** C3: for "mean", [write] stores the accumulated sum divided (with the
    truncating division of the element type) by [max(count, 1)], a divisor
    that is never zero.  In [segment_csr], where [count] is
    [row_end - row_start] converted to [int], a group with [count > 0] gets
    [acc / count] and an empty group has [count == 0] and gets [0]; in
    [segment_coo] every [write] is called with [count >= 1]. *)
Theorem mean_divides_by_max_count_1
    (scalar_t : scalar_type) (NDEBUG : bool) (fresh : Z -> Z)
    (src indptr : Tensor) (out_opt : option Tensor) (reduce : string)
    (c : csr_setup) (n k : Z) :
  reduce = "mean"%string ->
  dense src = true ->
  (forall o, out_opt = Some o -> dense o = true) ->
  segment_csr_setup fresh src indptr out_opt reduce = Ok c ->
  0 <= n < csr_N c -> 0 <= k < csr_K c ->
  (forall out address val arg_out arg_address arg count,
     Reducer.write scalar_t MEAN out address val arg_out arg_address arg count
     = (store out address (wrap scalar_t (Z.quot val (Z.max count 1))),
        arg_out) /\
     (if count >? 0 then count else 1) = Z.max count 1 /\
     Z.max count 1 <> 0) /\
  (let count := csr_count (csr_indptr c) (csr_stride c) n in
   let acc := wrap scalar_t
                (sum_range
                   (fun e => csr_src (data src) (csr_last c) (csr_K c)
                               (csr_E c) n e k)
                   (csr_row_start (csr_indptr c) n)
                   (csr_row_end (csr_indptr c) (csr_stride c) n)) in
   exists o,
     segment_csr scalar_t fresh src indptr out_opt reduce = Ok (o, None) /\
     (0 < count ->
      load (data o) (n * csr_K c + k) = wrap scalar_t (Z.quot acc count)) /\
     (csr_row_end (csr_indptr c) (csr_stride c) n
      - csr_row_start (csr_indptr c) n = 0 ->
      count = 0 /\ load (data o) (n * csr_K c + k) = 0)) /\
  (forall REDUCE src_data index_info stride E_2 K N e_1 b i,
     1 <= E_2 -> 0 <= i < E_2 ->
     let s := for_range 0 i
                (coo_step scalar_t REDUCE src_data index_info stride E_2 K N
                   NDEBUG e_1 (coo_offset index_info E_2 e_1))
                {| bufs := b;
                   idx := load (data index_info)
                            (coo_offset index_info E_2 e_1);
                   row_start := 0; failed := false |} in
     failed s = false -> 1 <= i + 1 - row_start s).
Proof.
  intros Hred Hsrc Hout Hs Hn Hk.
  split; [|split].
  - intros. unfold Reducer.write.
    assert (E : (if count >? 0 then count else 1) = Z.max count 1)
      by (destruct (Z.gtb_spec count 0); lia).
    rewrite E. repeat split; auto. lia.
  - cbv zeta.
    destruct (csr_setup_ok _ _ _ _ _ _ Hs Hsrc Hout) as (_ & Hl & Ha & _).
    subst reduce. inversion Hl as [HR]. rewrite <- HR in Ha. simpl in Ha.
    destruct (csr_run_out scalar_t _ _ _ _ _ _ Hs Hsrc Hout) as [_ Hv].
    specialize (Hv n k Hn Hk). rewrite <- HR in Hv.
    rewrite csr_lane_val_sum in Hv by auto.
    unfold segment_csr. rewrite Hs; simpl. rewrite Ha; simpl.
    eexists; split; [reflexivity|]. simpl. rewrite Hv.
    unfold written_value. split.
    + intros Hc.
      destruct (Z.gtb_spec (csr_count (csr_indptr c) (csr_stride c) n) 0);
        [|lia].
      reflexivity.
    + intros Hc. rewrite csr_count_id by lia. rewrite Hc. simpl.
      rewrite sum_range_empty by lia.
      rewrite wrap_zero. simpl. split; [reflexivity | apply wrap_zero].
  - intros REDUCE src_data index_info stride E_2 K N e_1 b i HE Hi s Hf.
    destruct (coo_rows_inv scalar_t REDUCE src_data index_info stride E_2 K N
                NDEBUG e_1 b i HE ltac:(lia)) as (Hinv & _).
    fold s in Hinv. destruct (Hinv Hf) as [_ Hrs]. lia.
Qed.

Lemma mean_divides_by_max_count_1_witness :
  exists o,
    segment_csr int64_t (fun _ => 0) (vector [1; 2; 3; 4; 5])
      (vector [0; 2; 2; 5]) None "mean" = Ok (o, None) /\
    load (data o) (1 * 1 + 0) = 0.
Proof.
  destruct (mean_divides_by_max_count_1 int64_t false (fun _ => 0)
              (vector [1; 2; 3; 4; 5]) (vector [0; 2; 2; 5]) None "mean"
              {| csr_REDUCE := MEAN; csr_indptr := vector [0; 2; 2; 5];
                 csr_out := vector [0; 0; 0]; csr_arg_out := None;
                 csr_last := 4; csr_stride := 1; csr_N := 3; csr_K := 1;
                 csr_E := 5 |} 1 0)
    as (_ & (o & Ho & _ & Hz) & _).
  - reflexivity.
  - reflexivity.
  - discriminate.
  - reflexivity.
  - simpl; lia.
  - simpl; lia.
  - exists o. split; [exact Ho|]. apply Hz. reflexivity.
Defined.

(** ** Ties in "min" and "max" *)

Lemma lane_first_winner (scalar_t : scalar_type) (REDUCE : ReductionType)
      (x : Z -> Z) (lo hi v0 a0 : Z) :
  REDUCE = MIN \/ REDUCE = MAX ->
  (exists e, lo <= e < hi /\ better REDUCE (x e) v0) ->
  let va := fold_left (fun va e => accumulate scalar_t REDUCE va (x e) e)
              (zrange lo hi) (v0, a0) in
  first_winner REDUCE x lo hi (fst va) (snd va).
Proof.
  intros HR (e0 & He0 & Hb0); simpl.
  assert (Hle : lo <= hi) by lia.
  pose proof (for_range_ind
    (fun i va =>
       ((forall e, lo <= e < i -> ~ better REDUCE (x e) v0) /\ va = (v0, a0)) \/
       (better REDUCE (fst va) v0 /\ lo <= snd va < i /\ x (snd va) = fst va /\
        (forall e, lo <= e < i -> ~ better REDUCE (x e) (fst va)) /\
        (forall e, lo <= e < snd va -> better REDUCE (fst va) (x e))))
    lo hi (fun e va => accumulate scalar_t REDUCE va (x e) e) (v0, a0) Hle)
    as Hinv.
  unfold for_range in Hinv.
  destruct Hinv as [[Hnone _]|(_ & Ha & Hx & Hmin & Hfirst)].
  - left. split; auto. intros; lia.
  - intros i [v a] Hi [[Hnone Heq]|(Hb & Ha & Hx & Hmin & Hfirst)].
    + inversion Heq; subst v a; clear Heq.
      unfold accumulate.
      destruct HR as [-> | ->]; simpl in *.
      * destruct (Z.ltb_spec (x i) v0).
        -- right. simpl. repeat split; auto; try lia.
           ++ intros e He. destruct (Z.eq_dec e i) as [->|]; [lia|].
              specialize (Hnone e ltac:(lia)). lia.
           ++ intros e He. specialize (Hnone e ltac:(lia)). lia.
        -- left. split; auto. intros e He.
           destruct (Z.eq_dec e i) as [->|]; [lia|]. apply Hnone; lia.
      * destruct (Z.gtb_spec (x i) v0).
        -- right. simpl. repeat split; auto; try lia.
           ++ intros e He. destruct (Z.eq_dec e i) as [->|]; [lia|].
              specialize (Hnone e ltac:(lia)). lia.
           ++ intros e He. specialize (Hnone e ltac:(lia)). lia.
        -- left. split; auto. intros e He.
           destruct (Z.eq_dec e i) as [->|]; [lia|]. apply Hnone; lia.
    + right. unfold accumulate. simpl in *.
      destruct HR as [-> | ->]; simpl in *.
      * destruct (Z.ltb_spec (x i) v); simpl.
        -- repeat split; auto; try lia.
           ++ intros e He. destruct (Z.eq_dec e i) as [->|]; [lia|].
              specialize (Hmin e ltac:(lia)). lia.
           ++ intros e He. specialize (Hmin e ltac:(lia)). lia.
        -- repeat split; auto; try lia.
           intros e He. destruct (Z.eq_dec e i) as [->|]; [lia|].
           apply Hmin; lia.
      * destruct (Z.gtb_spec (x i) v); simpl.
        -- repeat split; auto; try lia.
           ++ intros e He. destruct (Z.eq_dec e i) as [->|]; [lia|].
              specialize (Hmin e ltac:(lia)). lia.
           ++ intros e He. specialize (Hmin e ltac:(lia)). lia.
        -- repeat split; auto; try lia.
           intros e He. destruct (Z.eq_dec e i) as [->|]; [lia|].
           apply Hmin; lia.
  - exfalso. apply (Hnone e0 He0 Hb0).
  - unfold first_winner. repeat split; auto; lia.
Qed.

(** C4 as stated fails: a group of [segment_csr] whose values all equal the
    number the accumulator starts from (here 255 for "min" on [uint8_t])
    never passes the strict comparison, and [write] stores the argument left
    in [args] by the group before it.  Group 1 holds position 1 only and is
    given argument 0. *)
Lemma csr_min_arg_counterexample :
  exists o a,
    segment_csr uint8_t (fun _ => 0) (vector [5; 255]) (vector [0; 1; 2])
      None "min" = Ok (o, Some a) /\
    data o = [5; 255] /\ data a = [0; 0] /\
    ~ first_winner MIN (load [5; 255]) 1 2 (load (data o) 1) (load (data a) 1).
Proof.
  eexists; eexists; split; [reflexivity|].
  split; [reflexivity|]. split; [reflexivity|].
  intros [[H _] _]. vm_compute in H. now apply H.
Qed.

(** C4, amended: for "min" (resp. "max") [update] replaces the accumulator
    and its argument only when the candidate is strictly less (resp.
    greater); so in every group of [segment_csr] that holds a value strictly
    better than the value the accumulator starts from, and whose number of
    positions reaches [write] as a positive [int count] (as that of every
    group of fewer than [2 ^ 31] positions does), the recorded argument is
    the lowest source index that attains the winning value, later equal
    values never replacing it; values [3,3] with offsets [0,2] and "min" give
    the argument [0].  Were the conversion to [int] to leave a [count] that
    is not positive, [write] would store [0] and no argument. *)
Theorem csr_arg_is_first_winner
    (scalar_t : scalar_type) (fresh : Z -> Z)
    (src indptr : Tensor) (out_opt : option Tensor) (reduce : string)
    (c : csr_setup) (n k : Z) :
  reduce = "min"%string \/ reduce = "max"%string ->
  dense src = true ->
  (forall o, out_opt = Some o -> dense o = true) ->
  segment_csr_setup fresh src indptr out_opt reduce = Ok c ->
  0 <= n < csr_N c -> 0 <= k < csr_K c ->
  (exists e,
     csr_row_start (csr_indptr c) n <= e
     < csr_row_end (csr_indptr c) (csr_stride c) n /\
     better (csr_REDUCE c)
       (csr_src (data src) (csr_last c) (csr_K c) (csr_E c) n e k)
       (Reducer.init scalar_t (csr_REDUCE c))) ->
  (forall vals val new_val args arg new_arg,
     (better (csr_REDUCE c) new_val (load vals val) ->
      Reducer.update scalar_t (csr_REDUCE c) vals val new_val args arg new_arg
      = (store vals val new_val, store args arg new_arg)) /\
     (~ better (csr_REDUCE c) new_val (load vals val) ->
      Reducer.update scalar_t (csr_REDUCE c) vals val new_val args arg new_arg
      = (vals, args))) /\
  (exists o a,
     segment_csr scalar_t fresh src indptr out_opt reduce = Ok (o, Some a) /\
     (0 < csr_count (csr_indptr c) (csr_stride c) n ->
      first_winner (csr_REDUCE c)
        (fun e => csr_src (data src) (csr_last c) (csr_K c) (csr_E c) n e k)
        (csr_row_start (csr_indptr c) n)
        (csr_row_end (csr_indptr c) (csr_stride c) n)
        (load (data o) (n * csr_K c + k))
        (load (data a) (n * csr_K c + k))) /\
     (csr_count (csr_indptr c) (csr_stride c) n <= 0 ->
      load (data o) (n * csr_K c + k) = 0 /\
      load (data a) (n * csr_K c + k) = csr_E c)) /\
  segment_csr scalar_t fresh (vector [3; 3]) (vector [0; 2]) None "min"
  = Ok (vector [3], Some (vector [0])).
Proof.
  intros Hred Hsrc Hout Hs Hn Hk Hex.
  destruct (csr_setup_ok _ _ _ _ _ _ Hs Hsrc Hout) as (_ & Hl & _).
  assert (Harg : is_arg_reduction (csr_REDUCE c) = true)
    by (apply (lookup_arg_reduction reduce); auto).
  assert (HR : csr_REDUCE c = MIN \/ csr_REDUCE c = MAX)
    by (destruct (csr_REDUCE c); try discriminate; auto).
  split; [|split; [|destruct scalar_t; reflexivity]].
  - intros vs v nv ags ag na. unfold Reducer.update.
    destruct HR as [-> | ->]; simpl.
    + destruct (Z.ltb_spec nv (load vs v)); split; auto; intros; lia.
    + destruct (Z.gtb_spec nv (load vs v)); split; auto; intros; lia.
  - destruct (csr_run_out scalar_t _ _ _ _ _ _ Hs Hsrc Hout) as [_ Hv].
    destruct (csr_run_arg scalar_t _ _ _ _ _ _ Hs Hsrc Hout Harg)
      as (Hao & _ & Ha).
    specialize (Hv n k Hn Hk). specialize (Ha n k Hn Hk).
    unfold segment_csr. rewrite Hs; simpl. rewrite Hao; simpl.
    eexists; eexists; split; [reflexivity|]. simpl.
    unfold writes_arg in Ha. rewrite Harg in Ha. simpl in Ha.
    split.
    + intros Hpos.
      assert (Hcount : (csr_count (csr_indptr c) (csr_stride c) n >? 0)
                       = true)
        by (apply Z.gtb_lt; lia).
      rewrite Hcount in Ha. destruct Ha as [a0 Ha].
      rewrite Hv, Ha.
      replace (written_value scalar_t (csr_REDUCE c) _ _)
        with (fst (csr_lane scalar_t (csr_REDUCE c) (data src) (csr_indptr c)
                     (csr_last c) (csr_stride c) (csr_K c) (csr_E c) n k
                     (Reducer.init scalar_t (csr_REDUCE c), a0))).
      * apply (lane_first_winner scalar_t (csr_REDUCE c)); auto.
      * unfold written_value. rewrite Hcount.
        unfold csr_lane_val.
        rewrite (csr_lane_fst_indep scalar_t (csr_REDUCE c) (data src)
                   (csr_indptr c) (csr_last c) (csr_stride c) (csr_K c)
                   (csr_E c) n k _ a0 0).
        now destruct HR as [-> | ->].
    + intros Hle.
      assert (Hcount : (csr_count (csr_indptr c) (csr_stride c) n >? 0)
                       = false)
        by (destruct (Z.gtb_spec
                        (csr_count (csr_indptr c) (csr_stride c) n) 0);
            auto; lia).
      rewrite Hcount in Ha. split; [|exact Ha].
      rewrite Hv. unfold written_value. rewrite Hcount.
      now destruct HR as [-> | ->].
Qed.

Lemma csr_arg_is_first_winner_witness :
  exists o a,
    segment_csr int64_t (fun _ => 0) (vector [5; 1; 9; 2]) (vector [0; 2; 4])
      None "max" = Ok (o, Some a) /\
    first_winner MAX (fun e => load [5; 1; 9; 2] (1 ÷ 2 * 4 * 1 + e * 1 + 0))
      2 4 (load (data o) (1 * 1 + 0)) (load (data a) (1 * 1 + 0)).
Proof.
  destruct (proj1 (proj2
    (csr_arg_is_first_winner int64_t (fun _ => 0)
       (vector [5; 1; 9; 2]) (vector [0; 2; 4]) None "max"
       {| csr_REDUCE := MAX; csr_indptr := vector [0; 2; 4];
          csr_out := vector [0; 0];
          csr_arg_out := Some (vector [4; 4]);
          csr_last := 3; csr_stride := 1; csr_N := 2; csr_K := 1;
          csr_E := 4 |} 1 0
       (or_intror eq_refl) eq_refl
       ltac:(discriminate) eq_refl ltac:(simpl; lia) ltac:(simpl; lia)
       ltac:(exists 2; split; vm_compute; split; congruence))))
    as (o & a & Hcall & Hpos & _).
  exists o, a. split; [exact Hcall|]. apply Hpos. vm_compute; reflexivity.
Defined.

(** * Further properties of [segment_csr] *)

(** The call of [segment_csr] once its set-up is known. *)
Lemma segment_csr_unfold (scalar_t : scalar_type) (fresh : Z -> Z)
      (src indptr : Tensor) (out_opt : option Tensor) (reduce : string)
      (c : csr_setup) :
  segment_csr_setup fresh src indptr out_opt reduce = Ok c ->
  segment_csr scalar_t fresh src indptr out_opt reduce =
  Ok (with_data (csr_out c) (out_data (segment_csr_run scalar_t src c)),
      option_map
        (fun a => with_data a (arg_out_data (segment_csr_run scalar_t src c)))
        (csr_arg_out c)).
Proof. intros H. unfold segment_csr. now rewrite H. Qed.

(** X1: for "sum" and "add", whatever the rank of [src] and the number [K]
    of lanes, the cell [n * K + k] that [segment_csr] returns is the sum, in
    the element type, of the cells [src_data[offset + e * K + k]] for
    [row_start <= e < row_end] of group [n]. *)
Theorem csr_sum_every_lane
    (scalar_t : scalar_type) (fresh : Z -> Z)
    (src indptr : Tensor) (out_opt : option Tensor) (reduce : string)
    (c : csr_setup) (n k : Z) :
  reduce = "sum"%string \/ reduce = "add"%string ->
  dense src = true ->
  (forall o, out_opt = Some o -> dense o = true) ->
  segment_csr_setup fresh src indptr out_opt reduce = Ok c ->
  0 <= n < csr_N c -> 0 <= k < csr_K c ->
  exists o,
    segment_csr scalar_t fresh src indptr out_opt reduce = Ok (o, None) /\
    load (data o) (n * csr_K c + k) =
    wrap scalar_t
      (sum_range
         (fun e => csr_src (data src) (csr_last c) (csr_K c) (csr_E c) n e k)
         (csr_row_start (csr_indptr c) n)
         (csr_row_end (csr_indptr c) (csr_stride c) n)).
Proof.
  intros Hred Hsrc Hout Hs Hn Hk.
  destruct (csr_setup_ok _ _ _ _ _ _ Hs Hsrc Hout) as (_ & Hl & Ha & _).
  assert (HR : csr_REDUCE c = SUM).
  { destruct Hred as [-> | ->]; now inversion Hl. }
  rewrite HR in Ha; simpl in Ha.
  destruct (csr_run_out scalar_t _ _ _ _ _ _ Hs Hsrc Hout) as [_ Hv].
  specialize (Hv n k Hn Hk). rewrite HR in Hv.
  rewrite csr_lane_val_sum in Hv by auto.
  rewrite (segment_csr_unfold scalar_t _ _ _ _ _ _ Hs), Ha. simpl.
  eexists; split; [reflexivity|]. exact Hv.
Qed.

Lemma csr_sum_every_lane_witness :
  exists o,
    segment_csr int64_t (fun _ => 0)
      {| sizes := [2; 3; 2]; strides := [6; 2; 1];
         data := [1; 2; 3; 4; 5; 6; 7; 8; 9; 10; 11; 12] |}
      {| sizes := [1; 3]; strides := [3; 1]; data := [0; 1; 3] |}
      None "sum" = Ok (o, None) /\
    load (data o) (3 * 2 + 1) =
    wrap int64_t
      (sum_range
         (fun e => csr_src [1; 2; 3; 4; 5; 6; 7; 8; 9; 10; 11; 12]
                     3 2 3 3 e 1) 1 3).
Proof.
  refine (csr_sum_every_lane int64_t (fun _ => 0)
            {| sizes := [2; 3; 2]; strides := [6; 2; 1];
               data := [1; 2; 3; 4; 5; 6; 7; 8; 9; 10; 11; 12] |}
            {| sizes := [1; 3]; strides := [3; 1]; data := [0; 1; 3] |}
            None "sum"
            {| csr_REDUCE := SUM;
               csr_indptr := {| sizes := [2; 3]; strides := [0; 1];
                                data := [0; 1; 3] |};
               csr_out := {| sizes := [2; 2; 2]; strides := [4; 2; 1];
                             data := [0; 0; 0; 0; 0; 0; 0; 0] |};
               csr_arg_out := None; csr_last := 3; csr_stride := 1;
               csr_N := 4; csr_K := 2; csr_E := 3 |} 3 1 _ _ _ _ _ _).
  - left; reflexivity.
  - reflexivity.
  - discriminate.
  - reflexivity.
  - simpl; lia.
  - simpl; lia.
Defined.

Lemma lane_no_better (scalar_t : scalar_type) (REDUCE : ReductionType)
      (x : Z -> Z) (l : list Z) (v0 a0 : Z) :
  REDUCE = MIN \/ REDUCE = MAX ->
  (forall e, In e l -> ~ better REDUCE (x e) v0) ->
  fold_left (fun va e => accumulate scalar_t REDUCE va (x e) e) l (v0, a0)
  = (v0, a0).
Proof.
  intros HR. induction l as [|e l IH]; intros H; simpl; auto.
  replace (accumulate scalar_t REDUCE (v0, a0) (x e) e) with (v0, a0).
  - apply IH. intros; apply H; now right.
  - specialize (H e (or_introl eq_refl)).
    unfold accumulate. destruct HR as [-> | ->]; simpl in *.
    + destruct (Z.ltb_spec (x e) v0); auto; lia.
    + destruct (Z.gtb_spec (x e) v0); auto; lia.
Qed.

Lemma better_search (REDUCE : ReductionType) (x : Z -> Z) (lo hi v : Z) :
  (exists e, lo <= e < hi /\ better REDUCE (x e) v) \/
  (forall e, lo <= e < hi -> ~ better REDUCE (x e) v).
Proof.
  destruct (Z.le_gt_cases hi lo) as [Hle|Hgt]; [right; intros; lia|].
  replace hi with (lo + Z.of_nat (Z.to_nat (hi - lo))) by lia.
  generalize (Z.to_nat (hi - lo)) as m. clear Hgt.
  induction m as [|m [IH|IH]].
  - right; intros; lia.
  - left. destruct IH as (e & He & Hb). exists e; split; [lia|auto].
  - assert (D : better REDUCE (x (lo + Z.of_nat m)) v \/
               ~ better REDUCE (x (lo + Z.of_nat m)) v).
    { unfold better. destruct REDUCE; try tauto; lia. }
    destruct D as [D|D].
    + left. exists (lo + Z.of_nat m); split; [lia|auto].
    + right. intros e He.
      destruct (Z.eq_dec e (lo + Z.of_nat m)) as [->|]; auto.
      apply IH; lia.
Qed.

(** X2: for "min" and "max", whatever the argument recorded, the value that
    [segment_csr] returns for a group that is not empty and whose elements
    are values of the element type is the least (resp. greatest) element of
    the group, provided the number of positions of the group reaches [write]
    as a positive [int count], as that of every group of fewer than [2 ^ 31]
    positions does; otherwise the value is [0]. *)
Theorem csr_min_max_value_is_extremum
    (scalar_t : scalar_type) (fresh : Z -> Z)
    (src indptr : Tensor) (out_opt : option Tensor) (reduce : string)
    (c : csr_setup) (n k : Z) :
  reduce = "min"%string \/ reduce = "max"%string ->
  dense src = true ->
  (forall o, out_opt = Some o -> dense o = true) ->
  segment_csr_setup fresh src indptr out_opt reduce = Ok c ->
  0 <= n < csr_N c -> 0 <= k < csr_K c ->
  csr_row_start (csr_indptr c) n
  < csr_row_end (csr_indptr c) (csr_stride c) n ->
  (forall e,
     csr_row_start (csr_indptr c) n <= e
     < csr_row_end (csr_indptr c) (csr_stride c) n ->
     numeric_lowest scalar_t
     <= csr_src (data src) (csr_last c) (csr_K c) (csr_E c) n e k
     <= numeric_max scalar_t) ->
  exists o a,
    segment_csr scalar_t fresh src indptr out_opt reduce = Ok (o, Some a) /\
    (0 < csr_count (csr_indptr c) (csr_stride c) n ->
     extremum (csr_REDUCE c)
       (fun e => csr_src (data src) (csr_last c) (csr_K c) (csr_E c) n e k)
       (csr_row_start (csr_indptr c) n)
       (csr_row_end (csr_indptr c) (csr_stride c) n)
       (load (data o) (n * csr_K c + k))) /\
    (csr_count (csr_indptr c) (csr_stride c) n <= 0 ->
     load (data o) (n * csr_K c + k) = 0).
Proof.
  intros Hred Hsrc Hout Hs Hn Hk Hne Hrange.
  destruct (csr_setup_ok _ _ _ _ _ _ Hs Hsrc Hout) as (_ & Hl & Ha & _).
  assert (Harg : is_arg_reduction (csr_REDUCE c) = true)
    by (apply (lookup_arg_reduction reduce); auto).
  assert (HR : csr_REDUCE c = MIN \/ csr_REDUCE c = MAX)
    by (destruct (csr_REDUCE c); try discriminate; auto).
  rewrite Harg in Ha.
  destruct (csr_run_out scalar_t _ _ _ _ _ _ Hs Hsrc Hout) as [_ Hv].
  specialize (Hv n k Hn Hk).
  rewrite (segment_csr_unfold scalar_t _ _ _ _ _ _ Hs), Ha. simpl.
  eexists; eexists; split; [reflexivity|]. simpl. rewrite Hv.
  split.
  2:{ intros Hle. unfold written_value.
      destruct (Z.gtb_spec (csr_count (csr_indptr c) (csr_stride c) n) 0);
        [lia|].
      now destruct HR as [-> | ->]. }
  intros Hpos.
  set (rs := csr_row_start (csr_indptr c) n) in *.
  set (re := csr_row_end (csr_indptr c) (csr_stride c) n) in *.
  set (x := fun e => csr_src (data src) (csr_last c) (csr_K c) (csr_E c)
                       n e k).
  assert (Hw : written_value scalar_t (csr_REDUCE c)
                 (csr_lane_val scalar_t (csr_REDUCE c) (data src)
                    (csr_indptr c) (csr_last c) (csr_stride c) (csr_K c)
                    (csr_E c) n k)
                 (csr_count (csr_indptr c) (csr_stride c) n)
               = csr_lane_val scalar_t (csr_REDUCE c) (data src)
                   (csr_indptr c) (csr_last c) (csr_stride c) (csr_K c)
                   (csr_E c) n k).
  { unfold written_value.
    destruct (Z.gtb_spec (csr_count (csr_indptr c) (csr_stride c) n) 0);
      [|lia].
    now destruct HR as [-> | ->]. }
  rewrite Hw. unfold csr_lane_val, csr_lane. fold rs re.
  change (fun va e => accumulate scalar_t (csr_REDUCE c) va
                        (csr_src (data src) (csr_last c) (csr_K c) (csr_E c)
                           n e k) e)
    with (fun va e => accumulate scalar_t (csr_REDUCE c) va (x e) e).
  destruct (better_search (csr_REDUCE c) x rs re
              (Reducer.init scalar_t (csr_REDUCE c))) as [Hex|Hnone].
  - destruct (lane_first_winner scalar_t (csr_REDUCE c) x rs re
                (Reducer.init scalar_t (csr_REDUCE c)) 0 HR Hex)
      as (Ha' & Hx & Hmin & _).
    split; auto.
    eexists; split; [exact Ha'|exact Hx].
  - rewrite (lane_no_better scalar_t (csr_REDUCE c) x (zrange rs re)
               (Reducer.init scalar_t (csr_REDUCE c)) 0 HR)
      by (intros e He; apply Hnone, zrange_In, He).
    simpl. split.
    + exists rs. split; [lia|].
      specialize (Hnone rs ltac:(lia)). specialize (Hrange rs ltac:(lia)).
      unfold x, better, Reducer.init in *. cbv beta in *.
      destruct HR as [HR | HR]; rewrite HR in *; lia.
    + intros e He. now apply Hnone.
Qed.

Lemma csr_min_max_value_is_extremum_witness :
  exists o a,
    segment_csr uint8_t (fun _ => 0) (vector [5; 255]) (vector [0; 1; 2])
      None "min" = Ok (o, Some a) /\
    extremum MIN (fun e => csr_src [5; 255] 3 1 2 1 e 0) 1 2
      (load (data o) (1 * 1 + 0)).
Proof.
  destruct (csr_min_max_value_is_extremum uint8_t (fun _ => 0)
              (vector [5; 255]) (vector [0; 1; 2]) None "min"
              {| csr_REDUCE := MIN; csr_indptr := vector [0; 1; 2];
                 csr_out := vector [0; 0];
                 csr_arg_out := Some (vector [2; 2]);
                 csr_last := 3; csr_stride := 1; csr_N := 2; csr_K := 1;
                 csr_E := 2 |} 1 0)
    as (o & a & Hcall & Hpos & _).
  - left; reflexivity.
  - reflexivity.
  - discriminate.
  - reflexivity.
  - simpl; lia.
  - simpl; lia.
  - reflexivity.
  - intros e He. change (1 <= e < 2) in He. assert (e = 1) as -> by lia.
    vm_compute. split; discriminate.
  - exists o, a. split; [exact Hcall|]. apply Hpos. vm_compute; reflexivity.
Defined.

(** X3: a group whose offsets do not increase ([row_end <= row_start]: an
    empty group, or offsets that decrease) reads no element.  [write]
    receives [row_end - row_start] converted to [int].  When that [count] is
    not positive (as it is unless [row_start - row_end] exceeds [2 ^ 31]),
    the group gets the value [0] under every reduce, and under "min" and
    "max" its argument entry holds [src.size(reduce_dim)].  When the
    conversion makes it positive (offsets [4294967291] and [0] give
    [count = 5]), the group gets the value of [init()], which for "min" and
    "max" is a limit of the element type. *)
Theorem csr_non_increasing_offsets_give_zero
    (scalar_t : scalar_type) (fresh : Z -> Z)
    (src indptr : Tensor) (out_opt : option Tensor) (reduce : string)
    (c : csr_setup) (n k : Z) :
  dense src = true ->
  (forall o, out_opt = Some o -> dense o = true) ->
  segment_csr_setup fresh src indptr out_opt reduce = Ok c ->
  0 <= n < csr_N c -> 0 <= k < csr_K c ->
  csr_row_end (csr_indptr c) (csr_stride c) n
  <= csr_row_start (csr_indptr c) n ->
  exists o a,
    segment_csr scalar_t fresh src indptr out_opt reduce = Ok (o, a) /\
    (csr_count (csr_indptr c) (csr_stride c) n <= 0 ->
     load (data o) (n * csr_K c + k) = 0 /\
     forall t, a = Some t -> load (data t) (n * csr_K c + k) = csr_E c) /\
    (0 < csr_count (csr_indptr c) (csr_stride c) n ->
     load (data o) (n * csr_K c + k)
     = Reducer.init scalar_t (csr_REDUCE c)).
Proof.
  intros Hsrc Hout Hs Hn Hk Hrow.
  destruct (csr_run_out scalar_t _ _ _ _ _ _ Hs Hsrc Hout) as [_ Hv].
  specialize (Hv n k Hn Hk).
  rewrite (segment_csr_unfold scalar_t _ _ _ _ _ _ Hs).
  eexists; eexists; split; [reflexivity|]. simpl.
  set (cnt := csr_count (csr_indptr c) (csr_stride c) n) in *.
  assert (Hval : csr_lane_val scalar_t (csr_REDUCE c) (data src)
                   (csr_indptr c) (csr_last c) (csr_stride c) (csr_K c)
                   (csr_E c) n k
                 = Reducer.init scalar_t (csr_REDUCE c)).
  { unfold csr_lane_val, csr_lane. now rewrite zrange_empty by lia. }
  rewrite Hval in Hv.
  split.
  - intros Hle.
    assert (Hcnt : (cnt >? 0) = false)
      by (destruct (Z.gtb_spec cnt 0); auto; lia).
    split.
    + rewrite Hv. unfold written_value, Reducer.init. rewrite Hcnt.
      destruct (csr_REDUCE c); auto.
      simpl. apply wrap_zero.
    + intros t Ht.
      destruct (csr_arg_out c) as [t0|] eqn:Ha; [|discriminate].
      inversion Ht; subst t; clear Ht. simpl.
      destruct (csr_setup_ok _ _ _ _ _ _ Hs Hsrc Hout) as (_ & _ & Ha' & _).
      assert (Harg : is_arg_reduction (csr_REDUCE c) = true).
      { rewrite Ha in Ha'. destruct (is_arg_reduction (csr_REDUCE c)); auto.
        discriminate. }
      destruct (csr_run_arg scalar_t _ _ _ _ _ _ Hs Hsrc Hout Harg)
        as (_ & _ & Hargs).
      specialize (Hargs n k Hn Hk). fold cnt in Hargs.
      unfold writes_arg in Hargs. rewrite Hcnt, andb_false_r in Hargs.
      exact Hargs.
  - intros Hpos.
    assert (Hcnt : (cnt >? 0) = true) by (apply Z.gtb_lt; lia).
    rewrite Hv. unfold written_value, Reducer.init. rewrite Hcnt.
    destruct (csr_REDUCE c); auto.
    rewrite Z.quot_0_l by lia. apply wrap_zero.
Qed.

Lemma csr_non_increasing_offsets_give_zero_witness :
  exists o a,
    segment_csr int64_t (fun _ => 7) (vector [1; 2; 3; 4])
      (vector [3; 1; 4]) None "max" = Ok (o, a) /\
    load (data o) (0 * 1 + 0) = 0 /\
    forall t, a = Some t -> load (data t) (0 * 1 + 0) = 4.
Proof.
  destruct (csr_non_increasing_offsets_give_zero int64_t (fun _ => 7)
              (vector [1; 2; 3; 4]) (vector [3; 1; 4]) None "max"
              {| csr_REDUCE := MAX; csr_indptr := vector [3; 1; 4];
                 csr_out := vector [7; 7];
                 csr_arg_out := Some (vector [4; 4]);
                 csr_last := 3; csr_stride := 1; csr_N := 2; csr_K := 1;
                 csr_E := 4 |} 0 0)
    as (o & a & Hcall & Hle & _).
  - reflexivity.
  - discriminate.
  - reflexivity.
  - simpl; lia.
  - simpl; lia.
  - vm_compute. discriminate.
  - exists o, a. split; [exact Hcall|]. apply Hle.
    vm_compute. discriminate.
Defined.

(** The offsets [4294967291] and [0] of one group: no element is read,
    [write] receives [count = 5], and "min" stores the greatest [int64_t]
    together with the argument [0] that [args] holds from the start. *)
Example csr_decreasing_offsets_positive_count :
  csr_count (vector [4294967291; 0]) 1 0 = 5 /\
  segment_csr int64_t (fun _ => 0) (vector [1; 2; 3; 4])
    (vector [4294967291; 0]) None "min"
  = Ok (vector [9223372036854775807], Some (vector [0])).
Proof. split; vm_compute; reflexivity. Qed.

(** The storage of both outputs keeps its length through the loops. *)
Lemma csr_run_lengths (scalar_t : scalar_type) (src : Tensor)
      (c : csr_setup) :
  0 < csr_N c -> 0 <= csr_K c ->
  length (out_data (segment_csr_run scalar_t src c))
  = length (data (csr_out c)) /\
  length (arg_out_data (segment_csr_run scalar_t src c))
  = length (arg_data (csr_arg_out c)).
Proof.
  intros HN HK.
  destruct (csr_kernel_spec scalar_t (csr_REDUCE c) (data src) (csr_indptr c)
              (csr_last c) (csr_stride c) (csr_N c) (csr_K c) (csr_E c)
              (data (csr_out c)) (arg_data (csr_arg_out c))
              ltac:(lia) HK) as (H1 & H2 & _).
  split; assumption.
Qed.

(** X4: when [out] is omitted, the tensor that [segment_csr] returns has
    the extents of [src] with the reduce dimension [indptr.dim() - 1]
    replaced by [indptr.size(-1) - 1]; its storage, and that of the argument
    tensor when there is one, holds exactly one element per position. *)
Theorem csr_allocated_output_shape
    (scalar_t : scalar_type) (fresh : Z -> Z)
    (src indptr : Tensor) (reduce : string) (o : Tensor)
    (a : option Tensor) :
  dense src = true ->
  segment_csr scalar_t fresh src indptr None reduce = Ok (o, a) ->
  sizes o = store (sizes src) (dim indptr - 1)
              (load (sizes indptr) (dim indptr - 1) - 1) /\
  dense o = true /\
  forall t, a = Some t -> sizes t = sizes o /\ dense t = true.
Proof.
  intros Hsrc H.
  assert (Hout : forall o', @None Tensor = Some o' -> dense o' = true)
    by discriminate.
  unfold segment_csr in H.
  destruct (segment_csr_setup fresh src indptr None reduce) as [c|] eqn:Hs;
    simpl in H; try discriminate.
  inversion H; subst o a; clear H.
  destruct (csr_setup_ok _ _ _ _ _ _ Hs Hsrc Hout)
    as (Hsh & _ & Ha & _ & _ & _ & _ & HN & HK & HNK).
  destruct (csr_shapes_ok _ _ _ _ _ _ Hsh Hsrc Hout)
    as (_ & _ & _ & _ & _ & Hdense & _ & _ & Hsz).
  destruct (csr_run_lengths scalar_t src c HN HK) as [Hl1 Hl2].
  assert (Hd : forall t d, dense t = true ->
                           length d = length (data t) ->
                           dense (with_data t d) = true).
  { intros t d Ht Hd. unfold dense in *. simpl.
    apply andb_true_iff in Ht. destruct Ht as [Ht1 Ht2].
    rewrite Ht1. simpl. rewrite Hd. exact Ht2. }
  split; [exact Hsz|]. split; [now apply Hd|].
  intros t Ht. rewrite Ha in Ht, Hl2.
  destruct (is_arg_reduction (csr_REDUCE c)); [|discriminate].
  simpl in Ht, Hl2. inversion Ht; subst t; clear Ht. simpl.
  split; auto.
  unfold dense in *; simpl.
  apply andb_true_iff in Hdense. destruct Hdense as [Hf _].
  rewrite Hf. simpl.
  rewrite Hl2, repeat_length. apply Z.eqb_eq.
  unfold numel.
  assert (0 <= fold_right Z.mul 1 (sizes (csr_out c))).
  { rewrite fold_mul_prod_range. apply prod_range_nonneg.
    intros; now apply forallb_nonneg_load. }
  simpl. lia.
Qed.

Lemma csr_allocated_output_shape_witness :
  sizes {| sizes := [2; 2; 2]; strides := [4; 2; 1];
           data := [1; 2; 8; 10; 7; 8; 20; 22] |}
  = store [2; 3; 2] (2 - 1) (load [1; 3] (2 - 1) - 1).
Proof.
  refine (proj1 (csr_allocated_output_shape int64_t (fun _ => 0)
           {| sizes := [2; 3; 2]; strides := [6; 2; 1];
              data := [1; 2; 3; 4; 5; 6; 7; 8; 9; 10; 11; 12] |}
           {| sizes := [1; 3]; strides := [3; 1]; data := [0; 1; 3] |}
           "sum"
           {| sizes := [2; 2; 2]; strides := [4; 2; 1];
              data := [1; 2; 8; 10; 7; 8; 20; 22] |} None _ _));
    reflexivity.
Defined.

(** The argument that a lane ends with is the one it started with or a
    position of the group. *)
Lemma lane_snd_cases (scalar_t : scalar_type) (REDUCE : ReductionType)
      (x : Z -> Z) (l : list Z) (v a : Z) :
  let va := fold_left (fun va e => accumulate scalar_t REDUCE va (x e) e)
              l (v, a) in
  snd va = a \/ In (snd va) l.
Proof.
  simpl. revert v a. induction l as [|e l IH]; intros v a; simpl; auto.
  assert (Hs : snd (accumulate scalar_t REDUCE (v, a) (x e) e) = a \/
               snd (accumulate scalar_t REDUCE (v, a) (x e) e) = e).
  { unfold accumulate. destruct REDUCE; simpl; auto;
      match goal with |- context [if ?b then _ else _] => destruct b end;
      simpl; auto. }
  destruct (accumulate scalar_t REDUCE (v, a) (x e) e) as [v' a'].
  simpl in Hs. destruct (IH v' a') as [H|H]; auto.
  destruct Hs as [Hs|Hs]; rewrite H, Hs; auto.
Qed.

Section CSRArgs.
Variable scalar_t : scalar_type.
Variable REDUCE : ReductionType.
Variable src_data : list Z.
Variable indptr_info : Tensor.
Variable indptr_size_last : Z.
Variables stride N K E : Z.

Abbreviation lane_of := (csr_lane scalar_t REDUCE src_data indptr_info
                           indptr_size_last stride K E).
Abbreviation count_of := (csr_count indptr_info stride).

(** A property [G] of the arguments that holds of [0] and that every lane
    keeps holds of every argument that the loops store. *)
Lemma csr_kernel_arg_inv (G : Z -> Prop) (out arg_out : list Z) :
  0 <= N -> 0 <= K ->
  G 0 ->
  (forall n k a, 0 <= n < N -> 0 <= k < K -> G a ->
     G (snd (lane_of n k (Reducer.init scalar_t REDUCE, a)))) ->
  forall n k, 0 <= n < N -> 0 <= k < K ->
    n * K + k < Z.of_nat (length arg_out) ->
    writes_arg REDUCE (count_of n) = true ->
    G (load (arg_out_data
               (csr_kernel scalar_t REDUCE src_data indptr_info
                  indptr_size_last stride N K E out arg_out))
         (n * K + k)).
Proof.
  intros HN HK H0 Hlane. unfold csr_kernel.
  assert (Hinv :
    (fun i b =>
       length (vals b) = Z.to_nat K /\ length (args b) = Z.to_nat K /\
       length (arg_out_data b) = length arg_out /\
       (forall k, 0 <= k < K -> G (load (args b) k)) /\
       (forall n k, 0 <= n < i -> 0 <= k < K ->
          n * K + k < Z.of_nat (length arg_out) ->
          writes_arg REDUCE (count_of n) = true ->
          G (load (arg_out_data b) (n * K + k))))
      N (for_range 0 N
           (csr_group scalar_t REDUCE src_data indptr_info indptr_size_last
              stride K E)
           {| vals := repeat 0 (Z.to_nat K); args := repeat 0 (Z.to_nat K);
              out_data := out; arg_out_data := arg_out |})).
  { apply for_range_ind; auto.
    - simpl. rewrite !repeat_length. repeat split; auto.
      + intros k Hk. rewrite load_repeat by lia. exact H0.
      + intros; lia.
    - intros i b Hi (Hv & Ha & Hla & Hargs & Hout).
      destruct (csr_group_spec scalar_t REDUCE src_data indptr_info
                  indptr_size_last stride K E i b Hv Ha)
        as (Hv' & Ha' & Hcell & _ & Hao').
      split; [auto|]. split; [auto|].
      split; [|split].
      + rewrite Hao'. destruct (writes_arg _ _); auto.
        now rewrite store_lanes_length.
      + intros k Hk. specialize (Hcell k Hk).
        unfold cell in Hcell.
        replace (load (args (csr_group scalar_t REDUCE src_data indptr_info
                               indptr_size_last stride K E i b)) k)
          with (snd (lane_of i k (Reducer.init scalar_t REDUCE,
                                  load (args b) k)))
          by (rewrite <- Hcell; reflexivity).
        apply Hlane; auto.
      + intros n k Hn Hk Hlen Hw. rewrite Hao'.
        destruct (Z.eq_dec n i) as [->|Hne].
        * rewrite Hw, load_store_lanes, Hla.
          replace ((i * K <=? i * K + k) && (i * K + k <? i * K + K)
                   && (0 <=? i * K + k)
                   && (i * K + k <? Z.of_nat (length arg_out))) with true.
          -- replace (i * K + k - i * K) with k by lia.
             apply Hlane; auto.
          -- symmetry. rewrite !andb_true_iff.
             repeat split; try apply Z.leb_le; try apply Z.ltb_lt;
               try lia; nia.
        * assert (Hlt : n * K + k < i * K) by (apply lane_addr_lt; lia).
          replace (load (if writes_arg REDUCE (count_of i)
                         then store_lanes (arg_out_data b) (i * K) K _
                         else arg_out_data b) (n * K + k))
            with (load (arg_out_data b) (n * K + k)).
          -- apply Hout; auto; lia.
          -- destruct (writes_arg REDUCE (count_of i)); auto.
             rewrite load_store_lanes.
             replace (i * K <=? n * K + k) with false
               by (symmetry; apply Z.leb_gt; lia).
             reflexivity. }
  simpl in Hinv. destruct Hinv as (_ & _ & _ & _ & Hinv).
  intros n k Hn Hk Hlen Hw. now apply Hinv.
Qed.
End CSRArgs.

(** X5: for "min" and "max", when the offsets lie between [0] and
    [src.size(reduce_dim)] and the difference of the two offsets of a group
    fits an [int], the argument entry of the group is the sentinel
    [src.size(reduce_dim)] exactly when the group is empty; the entry of any
    other such group is an index into the reduce dimension of [src]. *)
Theorem csr_sentinel_marks_empty_groups
    (scalar_t : scalar_type) (fresh : Z -> Z)
    (src indptr : Tensor) (out_opt : option Tensor) (reduce : string)
    (c : csr_setup) (n k : Z) :
  reduce = "min"%string \/ reduce = "max"%string ->
  dense src = true ->
  (forall o, out_opt = Some o -> dense o = true) ->
  segment_csr_setup fresh src indptr out_opt reduce = Ok c ->
  (forall m, 0 <= m < csr_N c ->
     0 <= csr_row_start (csr_indptr c) m /\
     csr_row_end (csr_indptr c) (csr_stride c) m <= csr_E c) ->
  0 <= n < csr_N c -> 0 <= k < csr_K c ->
  - 2 ^ 31
  <= csr_row_end (csr_indptr c) (csr_stride c) n
     - csr_row_start (csr_indptr c) n
  < 2 ^ 31 ->
  exists o a,
    segment_csr scalar_t fresh src indptr out_opt reduce = Ok (o, Some a) /\
    (load (data a) (n * csr_K c + k) = csr_E c <->
     csr_row_end (csr_indptr c) (csr_stride c) n
     <= csr_row_start (csr_indptr c) n) /\
    (csr_row_start (csr_indptr c) n
     < csr_row_end (csr_indptr c) (csr_stride c) n ->
     0 <= load (data a) (n * csr_K c + k) < csr_E c).
Proof.
  intros Hred Hsrc Hout Hs Hoff Hn Hk Hint.
  destruct (csr_setup_ok _ _ _ _ _ _ Hs Hsrc Hout)
    as (_ & Hl & Ha & _ & _ & _ & _ & HN & HK & HNK).
  assert (Harg : is_arg_reduction (csr_REDUCE c) = true)
    by (apply (lookup_arg_reduction reduce); auto).
  destruct (csr_run_arg scalar_t _ _ _ _ _ _ Hs Hsrc Hout Harg)
    as (Hao & Hlen & Hargs).
  pose proof (csr_count_id (csr_indptr c) (csr_stride c) n Hint) as Hcount.
  set (rs := csr_row_start (csr_indptr c)) in *.
  set (re := csr_row_end (csr_indptr c) (csr_stride c)) in *.
  assert (Hnonempty : rs n < re n ->
            0 <= load (arg_out_data (segment_csr_run scalar_t src c))
                   (n * csr_K c + k) < csr_E c).
  { intros Hne.
    assert (Hw : writes_arg (csr_REDUCE c)
                   (csr_count (csr_indptr c) (csr_stride c) n) = true).
    { unfold writes_arg. rewrite Harg, Hcount. apply Z.gtb_lt.
      unfold rs, re in *. lia. }
    pose proof (csr_kernel_arg_inv scalar_t (csr_REDUCE c) (data src)
                  (csr_indptr c) (csr_last c) (csr_stride c) (csr_N c)
                  (csr_K c) (csr_E c)
                  (fun a => 0 <= a /\ (a < csr_E c \/ a = 0))
                  (data (csr_out c)) (arg_data (csr_arg_out c))
                  ltac:(lia) HK) as Hinv.
    cbv beta in Hinv.
    assert (HG : 0 <= load (arg_out_data (segment_csr_run scalar_t src c))
                        (n * csr_K c + k) /\
                 (load (arg_out_data (segment_csr_run scalar_t src c))
                    (n * csr_K c + k) < csr_E c \/
                  load (arg_out_data (segment_csr_run scalar_t src c))
                    (n * csr_K c + k) = 0)).
    { apply Hinv; auto; try lia.
      - intros m j a Hm Hj [Ha0 Ha1].
        destruct (lane_snd_cases scalar_t (csr_REDUCE c)
                    (fun e => csr_src (data src) (csr_last c) (csr_K c)
                                (csr_E c) m e j)
                    (zrange (rs m) (re m))
                    (Reducer.init scalar_t (csr_REDUCE c)) a) as [H|H].
        + unfold csr_lane. fold (rs m) (re m). simpl in H. rewrite H. auto.
        + unfold csr_lane. fold (rs m) (re m). simpl in H.
          apply zrange_In in H. destruct (Hoff m Hm). lia.
      - rewrite Hao. simpl. rewrite repeat_length. nia. }
    destruct (Hoff n Hn). lia. }
  rewrite (segment_csr_unfold scalar_t _ _ _ _ _ _ Hs), Hao. simpl.
  eexists; eexists; split; [reflexivity|]. simpl.
  split; [|exact Hnonempty].
  split.
  - intros Heq. destruct (Z.le_gt_cases (re n) (rs n)); auto.
    specialize (Hnonempty ltac:(lia)). lia.
  - intros Hle. specialize (Hargs n k Hn Hk).
    unfold writes_arg in Hargs. rewrite Hcount in Hargs.
    fold (rs n) (re n) in Hargs.
    replace (re n - rs n >? 0) with false in Hargs
      by (destruct (Z.gtb_spec (re n - rs n) 0); auto; lia).
    rewrite andb_false_r in Hargs. exact Hargs.
Qed.

Lemma csr_sentinel_marks_empty_groups_witness :
  exists o a,
    segment_csr uint8_t (fun _ => 0) (vector [5; 255; 7])
      (vector [0; 1; 2; 2; 3]) None "min" = Ok (o, Some a) /\
    (load (data a) (2 * 1 + 0) = 3 <-> 2 <= 2) /\
    (2 < 2 -> 0 <= load (data a) (2 * 1 + 0) < 3).
Proof.
  refine (csr_sentinel_marks_empty_groups uint8_t (fun _ => 0)
            (vector [5; 255; 7]) (vector [0; 1; 2; 2; 3]) None "min"
            {| csr_REDUCE := MIN; csr_indptr := vector [0; 1; 2; 2; 3];
               csr_out := vector [0; 0; 0; 0];
               csr_arg_out := Some (vector [3; 3; 3; 3]);
               csr_last := 5; csr_stride := 1; csr_N := 4; csr_K := 1;
               csr_E := 3 |} 2 0 _ _ _ _ _ _ _ _).
  - left; reflexivity.
  - reflexivity.
  - discriminate.
  - reflexivity.
  - cbn [csr_N csr_indptr csr_stride csr_E]. intros m Hm.
    assert (D : m = 0 \/ m = 1 \/ m = 2 \/ m = 3) by lia.
    destruct D as [-> | [-> | [-> | ->]]]; vm_compute; split; discriminate.
  - simpl; lia.
  - simpl; lia.
  - vm_compute; split; [discriminate | reflexivity].
Defined.

(** * Empty inputs *)

Lemma size_in_range (t : Tensor) (i : Z) :
  0 <= i < dim t -> size t i = Ok (load (sizes t) i).
Proof.
  intros H. unfold size.
  destruct (Z.ltb_spec i 0); [lia|].
  destruct (Z.leb_spec 0 i); [|lia].
  destruct (Z.ltb_spec i (dim t)); [|lia]. reflexivity.
Qed.

Lemma size_last_in_range (t : Tensor) :
  1 <= dim t -> size t (-1) = Ok (load (sizes t) (dim t - 1)).
Proof.
  intros H. unfold size. change (-1 <? 0) with true. cbv iota.
  replace (-1 + dim t) with (dim t - 1) by lia.
  destruct (Z.leb_spec 0 (dim t - 1)); [|lia].
  destruct (Z.ltb_spec (dim t - 1) (dim t)); [|lia]. reflexivity.
Qed.

Lemma lookup_reduce_total (reduce : string) :
  In reduce ["sum"; "add"; "mean"; "min"; "max"]%string ->
  exists r, lookup_reduce reduce = Ok r.
Proof.
  simpl; intros [<-|[<-|[<-|[<-|[<-|[]]]]]]; eexists; reflexivity.
Qed.

(** X6: an [indptr] with a single offset along its last dimension names no
    group; once the shape checks have passed and the reduce string has been
    found, [segment_csr] divides by [N = 0] when it computes the number of
    lanes [K = out.numel() / N], and returns nothing. *)
Theorem csr_no_group_divides_by_zero
    (scalar_t : scalar_type) (fresh : Z -> Z)
    (src indptr : Tensor) (out_opt : option Tensor) (reduce : string)
    (ip out : Tensor) :
  dense src = true ->
  (forall o, out_opt = Some o -> dense o = true) ->
  segment_csr_shapes fresh src indptr out_opt = Ok (ip, out) ->
  In reduce ["sum"; "add"; "mean"; "min"; "max"]%string ->
  load (sizes indptr) (dim indptr - 1) = 1 ->
  segment_csr scalar_t fresh src indptr out_opt reduce = Raise DivideByZero.
Proof.
  intros Hsrc Hout Hsh Hred Hone.
  destruct (csr_shapes_ok _ _ _ _ _ _ Hsh Hsrc Hout)
    as (_ & Hd & Hdr & Hdo & Hsz & _ & Hlast & _).
  destruct (lookup_reduce_total reduce Hred) as [R HR].
  unfold segment_csr, segment_csr_setup. rewrite Hsh. cbn [bind fst snd].
  unfold segment_csr_params. rewrite HR, Hd. cbn [bind].
  rewrite (size_in_range src (dim indptr - 1)) by lia.
  rewrite (size_in_range out (dim indptr - 1)) by lia.
  rewrite (size_last_in_range ip) by lia.
  rewrite Hd, Hsz, Hlast, Hone.
  replace ((0 <=? dim indptr - 1) && (dim indptr - 1 <? dim indptr - 1))
    with false
    by (destruct (Z.leb_spec 0 (dim indptr - 1)),
          (Z.ltb_spec (dim indptr - 1) (dim indptr - 1)); auto; lia).
  destruct (is_arg_reduction R); reflexivity.
Qed.

Lemma csr_no_group_divides_by_zero_witness :
  segment_csr int64_t (fun _ => 0) (vector [1; 2; 3]) (vector [0]) None "sum"
  = Raise DivideByZero.
Proof.
  apply (csr_no_group_divides_by_zero int64_t (fun _ => 0)
           (vector [1; 2; 3]) (vector [0]) None "sum"
           (vector [0]) (vector [])).
  - reflexivity.
  - discriminate.
  - reflexivity.
  - simpl; tauto.
  - reflexivity.
Defined.

Lemma coo_shapes_ok (src index out ix : Tensor) :
  segment_coo_shapes src index out = Ok ix ->
  dim ix = dim index /\ data ix = data index /\ dim index <= dim src.
Proof.
  unfold segment_coo_shapes. intros H.
  destruct (Z.geb_spec (dim src) (dim index)); try discriminate.
  unfold expand in H.
  destruct (expand_dims _ _ _) as [st|]; simpl in H; try discriminate.
  destruct (check_sizes _ _ _ _) as [[]|]; simpl in H; try discriminate.
  inversion H; subst ix; clear H. simpl.
  repeat split; auto.
  unfold dim; simpl.
  change (for_range 0 (Z.of_nat (length (sizes index)))
            (fun i s => store s i (load (sizes src) i)) (sizes index))
    with (store_lanes (sizes index) 0 (Z.of_nat (length (sizes index)))
            (load (sizes src))).
  now rewrite store_lanes_length.
Qed.

(** X7: when the reduce dimension of [src] is empty, [segment_coo], once the
    shape checks have passed and the reduce string has been found, divides by
    [src.size(reduce_dim) = 0] when it computes [E_1]; it returns nothing and
    leaves the storage of [out] as it was. *)
Theorem coo_empty_reduce_dim_divides_by_zero
    (scalar_t : scalar_type) (NDEBUG : bool) (src index out : Tensor)
    (reduce : string)
    (ix : Tensor) :
  segment_coo_shapes src index out = Ok ix ->
  In reduce ["sum"; "add"; "mean"; "min"; "max"]%string ->
  1 <= dim index ->
  load (sizes src) (dim index - 1) = 0 ->
  segment_coo scalar_t NDEBUG src index out reduce
  = (data out, Raise DivideByZero).
Proof.
  intros Hsh Hred Hdim Hzero.
  destruct (coo_shapes_ok _ _ _ _ Hsh) as (Hd & _ & Hle).
  destruct (lookup_reduce_total reduce Hred) as [R HR].
  unfold segment_coo, segment_coo_setup. rewrite Hsh. cbn [bind].
  rewrite HR, Hd. cbn [bind].
  rewrite (size_in_range src (dim index - 1)) by lia.
  rewrite Hzero.
  destruct (is_arg_reduction R); reflexivity.
Qed.

Lemma coo_empty_reduce_dim_divides_by_zero_witness :
  segment_coo int64_t false (vector []) (vector []) (vector [4; 5]) "max"
  = ([4; 5], Raise DivideByZero).
Proof.
  apply (coo_empty_reduce_dim_divides_by_zero int64_t false
           (vector []) (vector []) (vector [4; 5]) "max" (vector [])).
  - reflexivity.
  - simpl; tauto.
  - vm_compute; discriminate.
  - reflexivity.
Defined.

Lemma load_store_lanes_at (l : list Z) (a K : Z) (f : Z -> Z) (k : Z) :
  0 <= k < K -> 0 <= a + k < Z.of_nat (length l) ->
  load (store_lanes l a K f) (a + k) = f k.
Proof.
  intros Hk Hp. rewrite load_store_lanes.
  destruct (Z.leb_spec a (a + k)); [|lia].
  destruct (Z.ltb_spec (a + k) (a + K)); [|lia].
  destruct (Z.leb_spec 0 (a + k)); [|lia].
  destruct (Z.ltb_spec (a + k) (Z.of_nat (length l))); [|lia].
  simpl. f_equal. lia.
Qed.

Lemma load_store_lanes_other (l : list Z) (a K : Z) (f : Z -> Z) (p : Z) :
  (forall j, 0 <= j < K -> p <> a + j) ->
  load (store_lanes l a K f) p = load l p.
Proof.
  intros Hp. rewrite load_store_lanes.
  destruct (Z.leb_spec a p); auto.
  destruct (Z.ltb_spec p (a + K)); auto.
  exfalso. apply (Hp (p - a)); lia.
Qed.

Lemma coo_addr_inj (K N e_1 g g' k k' : Z) :
  0 <= k < K -> 0 <= k' < K ->
  coo_addr K N e_1 g k = coo_addr K N e_1 g' k' -> g = g' /\ k = k'.
Proof.
  unfold coo_addr. intros Hk Hk' H.
  apply (lane_addr_inj g g' k k' K); auto. lia.
Qed.
(** * What [segment_coo] computes *)

Lemma lane_fst_indep (scalar_t : scalar_type) (REDUCE : ReductionType)
      (x : Z -> Z) (l : list Z) (v a a' : Z) :
  fst (fold_left (fun va e => accumulate scalar_t REDUCE va (x e) e) l (v, a))
  = fst (fold_left (fun va e => accumulate scalar_t REDUCE va (x e) e) l
           (v, a')).
Proof.
  revert v a a'; induction l as [|e l IH]; intros v a a'; simpl; auto.
  pose proof (accumulate_fst_indep scalar_t REDUCE v a a' (x e) e) as H.
  destruct (accumulate scalar_t REDUCE (v, a) (x e) e) as [v1 a1].
  destruct (accumulate scalar_t REDUCE (v, a') (x e) e) as [v2 a2].
  simpl in H; subst v2. apply IH.
Qed.

(** The loop that seeds the accumulators from the cells at address [a]. *)
Lemma seed_loop (K a : Z) (b : buffers) :
  for_range 0 K (fun k b =>
    set_vals b (store (vals b) k (load (out_data b) (a + k)))) b
  = set_accs b (store_lanes (vals b) 0 K (fun k => load (out_data b) (a + k)),
                args b).
Proof.
  destruct (Z.le_gt_cases 0 K) as [HK|HK].
  - apply (for_range_ind
             (fun i b' =>
                b' = set_accs b
                       (store_lanes (vals b) 0 i
                          (fun k => load (out_data b) (a + k)), args b)));
      auto.
    + now rewrite store_lanes_zero, set_accs_id.
    + intros i b' Hi ->. unfold set_vals.
      cbn [set_accs vals args out_data fst snd].
      rewrite store_lanes_snoc by lia. reflexivity.
  - rewrite for_range_empty, store_lanes_neg by lia. now rewrite set_accs_id.
Qed.

(** One pass of [update] over the lanes, for the source position [e]. *)
Lemma update_lanes (scalar_t : scalar_type) (REDUCE : ReductionType)
      (src_data : list Z) (K offset e : Z) (b : buffers) :
  length (vals b) = Z.to_nat K -> length (args b) = Z.to_nat K ->
  let b' :=
    for_range 0 K (fun k b =>
      set_accs b
        (Reducer.update scalar_t REDUCE
           (vals b) k (load src_data (offset + e * K + k))
           (args b) k e)) b in
  length (vals b') = Z.to_nat K /\ length (args b') = Z.to_nat K /\
  out_data b' = out_data b /\ arg_out_data b' = arg_out_data b /\
  forall k, 0 <= k < K ->
    cell b' k =
    accumulate scalar_t REDUCE (cell b k)
      (load src_data (offset + e * K + k)) e.
Proof.
  intros Hv Ha.
  pose proof (update_rows scalar_t REDUCE src_data K offset e (e + 1) b Hv Ha)
    as H.
  cbv zeta in H.
  rewrite (for_range_snoc e e), (for_range_empty e e) in H by lia.
  destruct H as (H1 & H2 & H3 & H4 & H5).
  repeat split; auto.
  intros k Hk. rewrite H5 by auto.
  rewrite (zrange_snoc e e), zrange_empty by lia. reflexivity.
Qed.

(** The accumulators after the loop that writes a finished group at [a] and
    seeds the next one from [a'], when the two groups share no cell. *)
Lemma transition_loop_vals (scalar_t : scalar_type) (REDUCE : ReductionType)
      (K a a' count : Z) (b : buffers) :
  (forall j j', 0 <= j < K -> 0 <= j' < K -> a' + j <> a + j') ->
  let b' :=
    for_range 0 K (fun k b =>
      let b :=
        set_outs b
          (Reducer.write scalar_t REDUCE
             (out_data b) (a + k) (load (vals b) k)
             (arg_out_data b) (a + k) (load (args b) k) count) in
      set_vals b (store (vals b) k (load (out_data b) (a' + k)))) b in
  forall k, 0 <= k < K -> k < Z.of_nat (length (vals b)) ->
    load (vals b') k = load (out_data b) (a' + k).
Proof.
  intros Hdis; simpl.
  destruct (Z.le_gt_cases 0 K) as [HK|HK]; [|intros; lia].
  set (body := fun (k : Z) (b : buffers) => set_vals _ _).
  cut (length (vals (for_range 0 K body b)) = length (vals b) /\
       (forall p, (forall j, 0 <= j < K -> p <> a + j) ->
          load (out_data (for_range 0 K body b)) p = load (out_data b) p) /\
       forall k, 0 <= k < K -> k < Z.of_nat (length (vals b)) ->
         load (vals (for_range 0 K body b)) k = load (out_data b) (a' + k)).
  { intros (_ & _ & H). exact H. }
  apply (for_range_ind
           (fun i b' =>
              length (vals b') = length (vals b) /\
              (forall p, (forall j, 0 <= j < K -> p <> a + j) ->
                 load (out_data b') p = load (out_data b) p) /\
              forall k, 0 <= k < i -> k < Z.of_nat (length (vals b)) ->
                load (vals b') k = load (out_data b) (a' + k))
           0 K body b HK).
  - repeat split; auto. intros; lia.
  - intros i b' Hi (Hlen & Hfr & Hvals). unfold body.
    rewrite write_spec.
    cbn [set_outs set_vals set_accs vals args out_data arg_out_data fst snd].
    rewrite store_length. split; [auto|]. split.
    + intros p Hp. rewrite load_store_other by (apply not_eq_sym, Hp; lia).
      now apply Hfr.
    + intros k Hk Hlk.
      destruct (Z.eq_dec k i) as [->|Hne].
      * rewrite load_store_same by lia.
        rewrite load_store_other by (apply not_eq_sym, Hdis; lia).
        apply Hfr. intros j Hj. apply Hdis; lia.
      * rewrite load_store_other by lia. apply Hvals; lia.
Qed.

Section COOBlockRuns.
Variable scalar_t : scalar_type.
Variable REDUCE : ReductionType.
Variable src_data : list Z.
Variable index_info : Tensor.
Variables stride E_2 K N : Z.
Variable NDEBUG : bool.
Variable e_1 : Z.

Abbreviation run_step := (coo_step scalar_t REDUCE src_data index_info
                            stride E_2 K N NDEBUG e_1
                            (coo_offset index_info E_2 e_1)).
Abbreviation run_idx := (coo_idx index_info stride E_2 e_1).
Abbreviation run_src := (coo_src src_data E_2 K e_1).

(** The state after one iteration of the [e_2] loop, case by case. *)
Lemma coo_step_effect (e_2 : Z) (s : coo_state) :
  failed s = false ->
  length (vals (bufs s)) = Z.to_nat K ->
  length (args (bufs s)) = Z.to_nat K ->
  let s' := run_step e_2 s in
  let c := fun k =>
    accumulate scalar_t REDUCE (cell (bufs s) k) (run_src e_2 k) e_2 in
  let a := e_1 * N * K + idx s * K in
  let count := e_2 + 1 - row_start s in
  let out' :=
    store_lanes (out_data (bufs s)) a K
      (fun k => written_value scalar_t REDUCE (fst (c k)) count) in
  let arg' :=
    if writes_arg REDUCE count
    then store_lanes (arg_out_data (bufs s)) a K (fun k => snd (c k))
    else arg_out_data (bufs s) in
  length (vals (bufs s')) = Z.to_nat K /\
  length (args (bufs s')) = Z.to_nat K /\
  if e_2 =? E_2 - 1 then
    failed s' = false /\ idx s' = idx s /\ row_start s' = row_start s /\
    out_data (bufs s') = out' /\ arg_out_data (bufs s') = arg'
  else if idx s <=? run_idx (e_2 + 1) then
    failed s' = false /\ idx s' = run_idx (e_2 + 1) /\
    if idx s =? run_idx (e_2 + 1) then
      row_start s' = row_start s /\
      out_data (bufs s') = out_data (bufs s) /\
      arg_out_data (bufs s') = arg_out_data (bufs s) /\
      forall k, 0 <= k < K -> cell (bufs s') k = c k
    else
      row_start s' = e_2 + 1 /\
      out_data (bufs s') = out' /\ arg_out_data (bufs s') = arg' /\
      forall k, 0 <= k < K ->
        cell (bufs s') k =
        (load (out_data (bufs s)) (e_1 * N * K + run_idx (e_2 + 1) * K + k),
         snd (c k))
  else NDEBUG = false -> failed s' = true.
Proof.
  intros Hf Hv Ha. cbv zeta. unfold coo_step. rewrite Hf.
  fold (run_idx (e_2 + 1)).
  pose proof (update_lanes scalar_t REDUCE src_data K (e_1 * E_2 * K) e_2
                (bufs s) Hv Ha) as Hu.
  cbv zeta in Hu.
  set (b := for_range 0 K _ (bufs s)) in *.
  destruct Hu as (Hv1 & Ha1 & Ho1 & Hg1 & Hc1).
  assert (Hfst : forall k, 0 <= k < K ->
            load (vals b) k =
            fst (accumulate scalar_t REDUCE (cell (bufs s) k)
                   (run_src e_2 k) e_2)).
  { intros k Hk. unfold coo_src. rewrite <- Hc1 by auto. reflexivity. }
  assert (Hsnd : forall k, 0 <= k < K ->
            load (args b) k =
            snd (accumulate scalar_t REDUCE (cell (bufs s) k)
                   (run_src e_2 k) e_2)).
  { intros k Hk. unfold coo_src. rewrite <- Hc1 by auto. reflexivity. }
  assert (Hout : store_lanes (out_data b) (e_1 * N * K + idx s * K) K
                   (fun k => written_value scalar_t REDUCE (load (vals b) k)
                               (e_2 + 1 - row_start s))
                 = store_lanes (out_data (bufs s)) (e_1 * N * K + idx s * K) K
                     (fun k => written_value scalar_t REDUCE
                        (fst (accumulate scalar_t REDUCE (cell (bufs s) k)
                                (run_src e_2 k) e_2))
                        (e_2 + 1 - row_start s))).
  { rewrite Ho1. apply store_lanes_ext. intros k Hk. now rewrite Hfst. }
  assert (Harg : store_lanes (arg_out_data b) (e_1 * N * K + idx s * K) K
                   (fun k => load (args b) k)
                 = store_lanes (arg_out_data (bufs s))
                     (e_1 * N * K + idx s * K) K
                     (fun k =>
                        snd (accumulate scalar_t REDUCE (cell (bufs s) k)
                               (run_src e_2 k) e_2))).
  { rewrite Hg1. apply store_lanes_ext. intros k Hk. now rewrite Hsnd. }
  destruct (e_2 =? E_2 - 1).
  - cbn [bufs idx row_start failed]. rewrite write_loop.
    cbn [set_outs vals args out_data arg_out_data fst snd].
    rewrite Hout, Harg, Hg1. repeat split; auto.
  - pose proof (transition_loop_outs scalar_t REDUCE K
                  (e_1 * N * K + idx s * K)
                  (e_1 * N * K + run_idx (e_2 + 1) * K)
                  (e_2 + 1 - row_start s) b) as Ht.
    pose proof (transition_loop_vals scalar_t REDUCE K
                  (e_1 * N * K + idx s * K)
                  (e_1 * N * K + run_idx (e_2 + 1) * K)
                  (e_2 + 1 - row_start s) b) as Htv.
    cbv zeta in Ht, Htv.
    set (b' := for_range 0 K _ b) in *.
    destruct Ht as (Ht1 & Ht2 & Ht3 & Ht4).
    destruct (Z.leb_spec (idx s) (run_idx (e_2 + 1))) as [Hle|Hgt];
      cbn [negb]; [rewrite andb_false_r | rewrite andb_true_r].
    + destruct (Z.eqb_spec (idx s) (run_idx (e_2 + 1))) as [Heq|Hne];
        cbn [negb bufs idx row_start failed].
      * repeat split; auto.
      * rewrite Ht1, Ht2, Ht3, Ht4, Hout, Harg, Hg1.
        repeat split; auto.
        intros k Hk. unfold cell. rewrite Ht3, Hsnd by auto.
        rewrite Htv, Ho1; auto; try lia.
        intros j j' Hj Hj' Habs. apply Hne.
        assert (run_idx (e_2 + 1) = idx s); [|lia].
        apply (lane_addr_inj _ _ j j' K); auto. lia.
    + destruct NDEBUG; cbn [negb bufs idx row_start failed].
      * destruct (Z.eqb_spec (idx s) (run_idx (e_2 + 1)));
          cbn [negb bufs]; rewrite ?Ht3, ?Ht4;
          repeat split; auto; discriminate.
      * repeat split; auto.
Qed.

Abbreviation run_lane := (coo_lane scalar_t REDUCE src_data E_2 K e_1).
Abbreviation run_seed := (coo_seed index_info stride E_2 K N).
Abbreviation run_addr := (coo_addr K N e_1).
Abbreviation is_run := (coo_run index_info stride E_2 e_1).
Abbreviation run_result := (coo_run_result scalar_t REDUCE src_data
                              index_info stride E_2 K N).

Lemma run_idx_mono (a b : Z) :
  (forall e, 0 <= e < E_2 - 1 -> run_idx e <= run_idx (e + 1)) ->
  0 <= a <= b -> b < E_2 -> run_idx a <= run_idx b.
Proof.
  intros Hs Hab Hb.
  assert (H : forall n, a + Z.of_nat n < E_2 ->
                        run_idx a <= run_idx (a + Z.of_nat n)).
  { induction n as [|n IH]; intros Hn.
    - rewrite Z.add_0_r. lia.
    - replace (a + Z.of_nat (S n)) with (a + Z.of_nat n + 1) by lia.
      specialize (Hs (a + Z.of_nat n)). lia. }
  specialize (H (Z.to_nat (b - a))).
  replace (a + Z.of_nat (Z.to_nat (b - a))) with b in H by lia. lia.
Qed.

(** Two groups of positions that share a position are the same group. *)
Lemma coo_run_unique (lo hi lo' hi' : Z) :
  is_run lo hi -> is_run lo' hi' -> lo < hi' -> lo' < hi ->
  lo = lo' /\ hi = hi'.
Proof.
  intros (H1 & H2 & H3 & H4 & H5) (H1' & H2' & H3' & H4' & H5') Ha Hb.
  assert (Heq : run_idx lo = run_idx lo').
  { destruct (Z_le_gt_dec lo lo').
    - symmetry. apply H3. lia.
    - apply H3'. lia. }
  assert (lo = lo').
  { destruct (Z_lt_le_dec lo lo') as [Hl|Hl].
    - destruct H4' as [?|H4']; [lia|]. exfalso. apply H4'.
      rewrite <- Heq. apply H3. lia.
    - destruct (Z_lt_le_dec lo' lo) as [Hl'|Hl']; [|lia].
      destruct H4 as [?|H4]; [lia|]. exfalso. apply H4.
      rewrite Heq. apply H3'. lia. }
  subst lo'. split; auto.
  destruct (Z_lt_le_dec hi hi') as [Hl|Hl].
  - destruct H5 as [?|H5]; [lia|]. exfalso. apply H5. apply H3'. lia.
  - destruct (Z_lt_le_dec hi' hi) as [Hl'|Hl']; [|lia].
    destruct H5' as [?|H5']; [lia|]. exfalso. apply H5'. apply H3. lia.
Qed.

(** Storing the result of the group at the positions [r .. i]. *)
Lemma coo_write_run (out0 arg0 args0 out_s arg_s : list Z)
      (cells : Z -> Z * Z) (r i : Z) :
  (forall e, 0 <= e < E_2 - 1 -> run_idx e <= run_idx (e + 1)) ->
  length out_s = length out0 -> length arg_s = length arg0 ->
  0 <= r <= i -> i < E_2 ->
  (forall e, r <= e <= i -> run_idx e = run_idx i) ->
  (r = 0 \/ run_idx (r - 1) <> run_idx i) ->
  (i + 1 = E_2 \/ run_idx (i + 1) <> run_idx i) ->
  (forall k, 0 <= k < K ->
     exists a0,
       cells k = run_lane r (i + 1) k (run_seed out0 e_1 r k, a0) /\
       (r = 0 -> a0 = load args0 k) /\
       (is_arg_reduction REDUCE = true -> 0 < r ->
        0 <= run_addr (run_idx (r - 1)) k < Z.of_nat (length arg0) ->
        load arg_s (run_addr (run_idx (r - 1)) k) = a0)) ->
  (forall lo hi k, is_run lo hi -> hi <= r -> 0 <= k < K ->
     run_result out0 arg0 args0 out_s arg_s e_1 lo hi k) ->
  (forall p,
     (forall e k, 0 <= e < r -> 0 <= k < K -> p <> run_addr (run_idx e) k) ->
     load out_s p = load out0 p /\ load arg_s p = load arg0 p) ->
  let a := e_1 * N * K + run_idx i * K in
  let out' :=
    store_lanes out_s a K
      (fun k => written_value scalar_t REDUCE (fst (cells k)) (i + 1 - r)) in
  let arg' :=
    if writes_arg REDUCE (i + 1 - r)
    then store_lanes arg_s a K (fun k => snd (cells k)) else arg_s in
  (forall lo hi k, is_run lo hi -> hi <= i + 1 -> 0 <= k < K ->
     run_result out0 arg0 args0 out' arg' e_1 lo hi k) /\
  (forall p,
     (forall e k, 0 <= e < i + 1 -> 0 <= k < K ->
                  p <> run_addr (run_idx e) k) ->
     load out' p = load out0 p /\ load arg' p = load arg0 p).
Proof.
  intros Hs Hlo Hla Hr Hi Hsame Hprev Hnext Hcells Hdone Hframe.
  cbv zeta.
  assert (Hrun : is_run r (i + 1)).
  { unfold coo_run. repeat split; try lia.
    - intros e He. rewrite (Hsame e), (Hsame r); auto; lia.
    - destruct Hprev as [?|Hp]; auto. right. now rewrite (Hsame r) by lia.
    - destruct Hnext as [?|Hn]; auto. right. now rewrite (Hsame r) by lia. }
  assert (Hcount : (i + 1 - r >? 0) = true) by (apply Z.gtb_lt; lia).
  assert (Hbelow : forall g k,
            0 <= k < K -> g < run_idx i ->
            load (if writes_arg REDUCE (i + 1 - r)
                  then store_lanes arg_s (e_1 * N * K + run_idx i * K) K
                         (fun k => snd (cells k))
                  else arg_s) (run_addr g k)
            = load arg_s (run_addr g k)).
  { intros g k Hk Hg. destruct (writes_arg _ _); auto.
    apply load_store_lanes_other. intros j Hj Heq.
    destruct (coo_addr_inj K N e_1 g (run_idx i) k j Hk Hj Heq). lia. }
  split.
  - intros lo hi k Hlh Hhi Hk.
    destruct (Z_le_gt_dec hi r) as [Hold|Hnew].
    + destruct (Hdone lo hi k Hlh Hold Hk) as [Ho Ha].
      assert (Hlt : run_idx lo < run_idx i).
      { destruct Hlh as (H1 & H2 & _).
        destruct Hprev as [?|Hp]; [lia|].
        assert (run_idx lo <= run_idx (r - 1))
          by (apply run_idx_mono; auto; lia).
        pose proof (Hs (r - 1)) as Hs'.
        replace (r - 1 + 1) with r in Hs' by lia.
        rewrite (Hsame r) in Hs' by lia. lia. }
      assert (Hdis : forall j, 0 <= j < K ->
                run_addr (run_idx lo) k <> e_1 * N * K + run_idx i * K + j).
      { intros j Hj Heq.
        destruct (coo_addr_inj K N e_1 (run_idx lo) (run_idx i) k j Hk Hj Heq).
        lia. }
      unfold coo_run_result in *. cbv zeta in *. split.
      * intros Hp. rewrite load_store_lanes_other by auto. now apply Ho.
      * intros HR Hp. destruct (Ha HR Hp) as (a0 & A & B & C).
        exists a0. split; [rewrite Hbelow; auto|]. split; auto.
        intros Hpos Hqb. rewrite Hbelow; auto.
        destruct Hlh as (H1 & H2 & _).
        assert (run_idx (lo - 1) <= run_idx lo)
          by (apply run_idx_mono; auto; lia).
        lia.
    + destruct (coo_run_unique lo hi r (i + 1) Hlh Hrun) as [-> ->];
        try lia; [destruct Hlh; lia|].
      destruct (Hcells k Hk) as (a0 & Hc & Hz & Hq).
      unfold coo_run_result. cbv zeta. rewrite (Hsame r) by lia.
      split.
      * intros Hp.
        change (run_addr (run_idx i) k)
          with (e_1 * N * K + run_idx i * K + k) in *.
        rewrite load_store_lanes_at by (auto; lia).
        rewrite Hc. f_equal. apply lane_fst_indep.
      * intros HR Hp. exists a0. split; [|split; auto].
        -- unfold writes_arg. rewrite HR, Hcount. simpl.
           change (run_addr (run_idx i) k)
             with (e_1 * N * K + run_idx i * K + k) in *.
           rewrite load_store_lanes_at by (auto; lia).
           now rewrite Hc.
        -- intros Hpos Hqb. rewrite Hbelow; auto.
           destruct Hprev as [?|Hp']; [lia|].
           pose proof (Hs (r - 1)) as Hs'.
           replace (r - 1 + 1) with r in Hs' by lia.
           rewrite (Hsame r) in Hs' by lia. lia.
  - intros p Hp.
    assert (Hdis : forall j, 0 <= j < K ->
              p <> e_1 * N * K + run_idx i * K + j).
    { intros j Hj. apply (Hp i j); auto; lia. }
    destruct (Hframe p) as [Ho Ha].
    { intros e k He Hk. apply Hp; auto; lia. }
    split.
    + now rewrite load_store_lanes_other.
    + destruct (writes_arg _ _); auto. now rewrite load_store_lanes_other.
Qed.

(** The state with which iteration [i] of the [e_2] loop starts, for a
    block whose group indices do not decrease: [row_start] is the first
    position of the group of [i], the accumulators hold the accumulation of
    the positions [row_start .. i-1] started from the seed, and the groups
    that ended before [row_start] are stored. *)
Lemma coo_runs_inv (b : buffers) (i : Z) :
  (forall e, 0 <= e < E_2 - 1 -> run_idx e <= run_idx (e + 1)) ->
  length (vals b) = Z.to_nat K -> length (args b) = Z.to_nat K ->
  (forall k, 0 <= k < K ->
     load (vals b) k = run_seed (out_data b) e_1 0 k) ->
  0 <= i < E_2 ->
  let s := for_range 0 i run_step
             {| bufs := b; idx := run_idx 0; row_start := 0;
                failed := false |} in
  failed s = false /\ idx s = run_idx i /\
  length (vals (bufs s)) = Z.to_nat K /\
  length (args (bufs s)) = Z.to_nat K /\
  length (out_data (bufs s)) = length (out_data b) /\
  length (arg_out_data (bufs s)) = length (arg_out_data b) /\
  0 <= row_start s <= i /\
  (forall e, row_start s <= e <= i -> run_idx e = run_idx i) /\
  (row_start s = 0 \/ run_idx (row_start s - 1) <> run_idx i) /\
  (forall k, 0 <= k < K ->
     exists a0,
       cell (bufs s) k =
       run_lane (row_start s) i k
         (run_seed (out_data b) e_1 (row_start s) k, a0) /\
       (row_start s = 0 -> a0 = load (args b) k) /\
       (is_arg_reduction REDUCE = true -> 0 < row_start s ->
        0 <= run_addr (run_idx (row_start s - 1)) k
        < Z.of_nat (length (arg_out_data b)) ->
        load (arg_out_data (bufs s)) (run_addr (run_idx (row_start s - 1)) k)
        = a0)) /\
  (forall lo hi k, is_run lo hi -> hi <= row_start s -> 0 <= k < K ->
     run_result (out_data b) (arg_out_data b) (args b)
       (out_data (bufs s)) (arg_out_data (bufs s)) e_1 lo hi k) /\
  (forall p,
     (forall e k, 0 <= e < row_start s -> 0 <= k < K ->
                  p <> run_addr (run_idx e) k) ->
     load (out_data (bufs s)) p = load (out_data b) p /\
     load (arg_out_data (bufs s)) p = load (arg_out_data b) p).
Proof.
  intros Hs Hv Ha Hseed Hi. cbv zeta.
  set (s0 := {| bufs := b; idx := run_idx 0; row_start := 0;
                failed := false |}).
  cut (i < E_2 ->
       failed (for_range 0 i run_step s0) = false /\
       idx (for_range 0 i run_step s0) = run_idx i /\
       length (vals (bufs (for_range 0 i run_step s0))) = Z.to_nat K /\
       length (args (bufs (for_range 0 i run_step s0))) = Z.to_nat K /\
       length (out_data (bufs (for_range 0 i run_step s0)))
       = length (out_data b) /\
       length (arg_out_data (bufs (for_range 0 i run_step s0)))
       = length (arg_out_data b) /\
       0 <= row_start (for_range 0 i run_step s0) <= i /\
       (forall e, row_start (for_range 0 i run_step s0) <= e <= i ->
                  run_idx e = run_idx i) /\
       (row_start (for_range 0 i run_step s0) = 0 \/
        run_idx (row_start (for_range 0 i run_step s0) - 1) <> run_idx i) /\
       (forall k, 0 <= k < K ->
          exists a0,
            cell (bufs (for_range 0 i run_step s0)) k =
            run_lane (row_start (for_range 0 i run_step s0)) i k
              (run_seed (out_data b) e_1
                 (row_start (for_range 0 i run_step s0)) k, a0) /\
            (row_start (for_range 0 i run_step s0) = 0 ->
             a0 = load (args b) k) /\
            (is_arg_reduction REDUCE = true ->
             0 < row_start (for_range 0 i run_step s0) ->
             0 <= run_addr
                    (run_idx (row_start (for_range 0 i run_step s0) - 1)) k
             < Z.of_nat (length (arg_out_data b)) ->
             load (arg_out_data (bufs (for_range 0 i run_step s0)))
               (run_addr
                  (run_idx (row_start (for_range 0 i run_step s0) - 1)) k)
             = a0)) /\
       (forall lo hi k, is_run lo hi ->
          hi <= row_start (for_range 0 i run_step s0) -> 0 <= k < K ->
          run_result (out_data b) (arg_out_data b) (args b)
            (out_data (bufs (for_range 0 i run_step s0)))
            (arg_out_data (bufs (for_range 0 i run_step s0))) e_1 lo hi k) /\
       (forall p,
          (forall e k, 0 <= e < row_start (for_range 0 i run_step s0) ->
                       0 <= k < K -> p <> run_addr (run_idx e) k) ->
          load (out_data (bufs (for_range 0 i run_step s0))) p
          = load (out_data b) p /\
          load (arg_out_data (bufs (for_range 0 i run_step s0))) p
          = load (arg_out_data b) p)).
  { intros H. apply H. lia. }
  apply (for_range_ind
    (fun i s =>
       i < E_2 ->
       failed s = false /\ idx s = run_idx i /\
       length (vals (bufs s)) = Z.to_nat K /\
       length (args (bufs s)) = Z.to_nat K /\
       length (out_data (bufs s)) = length (out_data b) /\
       length (arg_out_data (bufs s)) = length (arg_out_data b) /\
       0 <= row_start s <= i /\
       (forall e, row_start s <= e <= i -> run_idx e = run_idx i) /\
       (row_start s = 0 \/ run_idx (row_start s - 1) <> run_idx i) /\
       (forall k, 0 <= k < K ->
          exists a0,
            cell (bufs s) k =
            run_lane (row_start s) i k
              (run_seed (out_data b) e_1 (row_start s) k, a0) /\
            (row_start s = 0 -> a0 = load (args b) k) /\
            (is_arg_reduction REDUCE = true -> 0 < row_start s ->
             0 <= run_addr (run_idx (row_start s - 1)) k
             < Z.of_nat (length (arg_out_data b)) ->
             load (arg_out_data (bufs s))
               (run_addr (run_idx (row_start s - 1)) k)
             = a0)) /\
       (forall lo hi k, is_run lo hi -> hi <= row_start s -> 0 <= k < K ->
          run_result (out_data b) (arg_out_data b) (args b)
            (out_data (bufs s)) (arg_out_data (bufs s)) e_1 lo hi k) /\
       (forall p,
          (forall e k, 0 <= e < row_start s -> 0 <= k < K ->
                       p <> run_addr (run_idx e) k) ->
          load (out_data (bufs s)) p = load (out_data b) p /\
          load (arg_out_data (bufs s)) p = load (arg_out_data b) p))
    0 i run_step s0); [lia| |].
  - intros _. unfold s0. cbn [bufs idx row_start failed].
    repeat match goal with |- _ /\ _ => split end; auto; try lia.
    + intros e He. f_equal. lia.
    + intros k Hk. exists (load (args b) k).
      unfold coo_lane. rewrite zrange_empty by lia. simpl.
      unfold cell. rewrite Hseed by auto.
      repeat split; auto. intros; lia.
    + intros lo hi k (H1 & _) Hhi. lia.
  - rename i into top, Hi into Htop. intros i s Hi IH Hlt.
    destruct IH as (Hf & Hidx & Hv' & Ha' & Hlo & Hla & Hr & Hsame & Hprev
                    & Hcells & Hdone & Hframe); [lia|].
    pose proof (coo_step_effect i s Hf Hv' Ha') as Hst. cbv zeta in Hst.
    destruct Hst as (Hv1 & Ha1 & Hst).
    destruct (Z.eqb_spec i (E_2 - 1)) as [?|_]; [lia|].
    pose proof (Hs i) as Hsi. rewrite Hidx in Hst.
    destruct (Z.leb_spec (run_idx i) (run_idx (i + 1))) as [_|?]; [|lia].
    destruct Hst as (Hf1 & Hidx1 & Hst).
    assert (Hacc : forall k, 0 <= k < K ->
              exists a0,
                accumulate scalar_t REDUCE (cell (bufs s) k) (run_src i k) i
                = run_lane (row_start s) (i + 1) k
                    (run_seed (out_data b) e_1 (row_start s) k, a0) /\
                (row_start s = 0 -> a0 = load (args b) k) /\
                (is_arg_reduction REDUCE = true -> 0 < row_start s ->
                 0 <= run_addr (run_idx (row_start s - 1)) k
                 < Z.of_nat (length (arg_out_data b)) ->
                 load (arg_out_data (bufs s))
                   (run_addr (run_idx (row_start s - 1)) k)
                 = a0)).
    { intros k Hk. destruct (Hcells k Hk) as (a0 & Hc & Hz & Hq).
      exists a0. split; auto.
      unfold coo_lane in *. rewrite zrange_snoc, fold_left_app by lia.
      simpl. now rewrite Hc. }
    destruct (Z.eqb_spec (run_idx i) (run_idx (i + 1))) as [Heq|Hne].
    + destruct Hst as (Hr1 & Ho1 & Hg1 & Hc1).
      rewrite Hr1, Ho1, Hg1.
      repeat match goal with |- _ /\ _ => split end; auto; try lia.
      * intros e He. destruct (Z.eq_dec e (i + 1)) as [->|]; auto.
        rewrite <- Heq. apply Hsame. lia.
      * intros k Hk. rewrite Hc1 by auto. now apply Hacc.
    + destruct Hst as (Hr1 & Ho1 & Hg1 & Hc1).
      destruct (coo_write_run (out_data b) (arg_out_data b) (args b)
                  (out_data (bufs s)) (arg_out_data (bufs s))
                  (fun k => accumulate scalar_t REDUCE (cell (bufs s) k)
                              (run_src i k) i)
                  (row_start s) i Hs Hlo Hla) as [Hdone1 Hframe1];
        auto; try lia.
      cbv zeta in Hdone1, Hframe1.
      rewrite Hr1, Ho1, Hg1, !store_lanes_length.
      assert (Hlen : length
                (if writes_arg REDUCE (i + 1 - row_start s)
                 then store_lanes (arg_out_data (bufs s))
                        (e_1 * N * K + run_idx i * K) K
                        (fun k => snd (accumulate scalar_t REDUCE
                                         (cell (bufs s) k) (run_src i k) i))
                 else arg_out_data (bufs s))
              = length (arg_out_data b)).
      { destruct (writes_arg _ _); now rewrite ?store_lanes_length. }
      repeat match goal with |- _ /\ _ => split end; auto; try lia.
      * intros e He. f_equal. lia.
      * right. replace (i + 1 - 1) with i by lia. auto.
      * intros k Hk. rewrite Hc1 by auto.
        exists (snd (accumulate scalar_t REDUCE (cell (bufs s) k)
                       (run_src i k) i)).
        split; [|split; [intros; lia|]].
        -- unfold coo_lane. rewrite zrange_empty by lia. simpl.
           f_equal. unfold coo_seed.
           destruct (Z.eqb_spec (i + 1) 0); [lia|].
           apply Hframe. intros e k' He Hk' Habs.
           destruct (coo_addr_inj K N e_1 (run_idx (i + 1)) (run_idx e) k k'
                       Hk Hk' Habs) as [Hg _].
           assert (run_idx e <= run_idx i)
             by (apply run_idx_mono; auto; lia).
           lia.
        -- intros HR _. replace (i + 1 - 1) with i by lia. intros Hqb.
           unfold writes_arg. rewrite HR.
           replace (i + 1 - row_start s >? 0) with true
             by (symmetry; apply Z.gtb_lt; lia).
           simpl.
           change (run_addr (run_idx i) k)
             with (e_1 * N * K + run_idx i * K + k) in *.
           rewrite load_store_lanes_at; auto. lia.
Qed.

(** One block of [segment_coo] whose group indices do not decrease: every
    group of positions is stored in the cells of its group index, and the
    cells of no other group change. *)
Lemma coo_block_runs (s : coo_state) :
  1 <= E_2 ->
  (forall e, 0 <= e < E_2 - 1 -> run_idx e <= run_idx (e + 1)) ->
  failed s = false ->
  length (vals (bufs s)) = Z.to_nat K ->
  length (args (bufs s)) = Z.to_nat K ->
  let s' := coo_block scalar_t REDUCE src_data index_info stride E_2 K N NDEBUG
              e_1 s in
  failed s' = false /\
  length (vals (bufs s')) = Z.to_nat K /\
  length (args (bufs s')) = Z.to_nat K /\
  length (out_data (bufs s')) = length (out_data (bufs s)) /\
  length (arg_out_data (bufs s')) = length (arg_out_data (bufs s)) /\
  (forall lo hi k, is_run lo hi -> 0 <= k < K ->
     run_result (out_data (bufs s)) (arg_out_data (bufs s)) (args (bufs s))
       (out_data (bufs s')) (arg_out_data (bufs s')) e_1 lo hi k) /\
  (forall p,
     (forall e k, 0 <= e < E_2 -> 0 <= k < K ->
                  p <> run_addr (run_idx e) k) ->
     load (out_data (bufs s')) p = load (out_data (bufs s)) p /\
     load (arg_out_data (bufs s')) p = load (arg_out_data (bufs s)) p).
Proof.
  intros HE Hs Hf Hv Ha. cbv zeta. unfold coo_block. rewrite Hf.
  rewrite seed_loop.
  fold (coo_offset index_info E_2 e_1).
  replace (load (data index_info) (coo_offset index_info E_2 e_1))
    with (run_idx 0)
    by (unfold coo_idx; now rewrite Z.mul_0_l, Z.add_0_r).
  set (b := set_accs (bufs s) _).
  assert (Hvb : length (vals b) = Z.to_nat K)
    by (unfold b; simpl; now rewrite store_lanes_length).
  assert (Hab : length (args b) = Z.to_nat K) by exact Ha.
  assert (Hob : out_data b = out_data (bufs s)) by reflexivity.
  assert (Hgb : arg_out_data b = arg_out_data (bufs s)) by reflexivity.
  assert (Hseed : forall k, 0 <= k < K ->
            load (vals b) k = run_seed (out_data b) e_1 0 k).
  { intros k Hk. unfold b; simpl.
    rewrite load_store_lanes_zero.
    destruct (Z.leb_spec 0 k); [|lia].
    destruct (Z.ltb_spec k K); [|lia].
    destruct (Z.ltb_spec k (Z.of_nat (length (vals (bufs s))))); [|lia].
    simpl. unfold coo_seed, coo_addr. simpl. f_equal. lia. }
  assert (Hlast : forall (body : Z -> coo_state -> coo_state) s0,
            for_range 0 E_2 body s0
            = body (E_2 - 1) (for_range 0 (E_2 - 1) body s0)).
  { intros body s0. rewrite <- for_range_snoc by lia.
    f_equal. lia. }
  rewrite Hlast.
  pose proof (coo_runs_inv b (E_2 - 1) Hs Hvb Hab Hseed) as Hinv.
  cbv zeta in Hinv.
  set (s1 := for_range 0 (E_2 - 1) run_step _) in *.
  destruct Hinv as (Hf1 & Hidx & Hv1 & Ha1 & Hlo & Hla & Hr & Hsame & Hprev
                    & Hcells & Hdone & Hframe); [lia|].
  pose proof (coo_step_effect (E_2 - 1) s1 Hf1 Hv1 Ha1) as Hst.
  cbv zeta in Hst. rewrite Z.eqb_refl, Hidx in Hst.
  destruct Hst as (Hv2 & Ha2 & Hf2 & _ & _ & Ho2 & Hg2).
  destruct (coo_write_run (out_data b) (arg_out_data b) (args b)
              (out_data (bufs s1)) (arg_out_data (bufs s1))
              (fun k => accumulate scalar_t REDUCE (cell (bufs s1) k)
                          (run_src (E_2 - 1) k) (E_2 - 1))
              (row_start s1) (E_2 - 1) Hs Hlo Hla) as [Hdone2 Hframe2];
    auto; try lia.
  { intros k Hk. destruct (Hcells k Hk) as (a0 & Hc & Hz & Hq).
    exists a0. split; auto.
    unfold coo_lane in *. rewrite zrange_snoc, fold_left_app by lia.
    simpl. now rewrite Hc. }
  cbv zeta in Hdone2, Hframe2.
  change (args b) with (args (bufs s)) in Hdone2.
  rewrite Ho2, Hg2, <- Hob, <- Hgb.
  repeat match goal with |- _ /\ _ => split end; auto.
  - now rewrite store_lanes_length.
  - destruct (writes_arg _ _); now rewrite ?store_lanes_length.
  - intros lo hi k Hrun Hk. apply Hdone2; auto.
    destruct Hrun as (_ & ? & _). lia.
  - intros p Hp. apply Hframe2. intros e k He Hk. apply Hp; auto. lia.
Qed.
End COOBlockRuns.

Lemma coo_addr_bounds (K N e_1 g k : Z) :
  0 <= g < N -> 0 <= k < K ->
  e_1 * N * K <= coo_addr K N e_1 g k < (e_1 + 1) * N * K.
Proof. unfold coo_addr. intros Hg Hk. nia. Qed.

Section COOKernelRuns.
Variable scalar_t : scalar_type.
Variable REDUCE : ReductionType.
Variable src_data : list Z.
Variable index_info : Tensor.
Variables stride E_1 E_2 K N : Z.
Variable NDEBUG : bool.

Abbreviation group_at := (coo_idx index_info stride E_2).

(** The loops of [segment_coo] on an index array that is sorted along the
    reduce dimension and names groups of [out] only: the assertion holds,
    and every group of positions of every block is stored in the cells of
    its group index.  A block reads and writes its own cells only, so the
    seed of a group is a cell of the buffer the call was given.  The vector
    [args] holds zeros when the first block starts. *)
Lemma coo_kernel_runs (out arg_out : list Z) :
  1 <= E_2 ->
  coo_sorted index_info stride E_1 E_2 ->
  coo_in_range index_info stride E_1 E_2 N ->
  let s := coo_kernel scalar_t REDUCE src_data index_info stride E_1 E_2 K N
             NDEBUG out arg_out in
  failed s = false /\
  length (out_data (bufs s)) = length out /\
  length (arg_out_data (bufs s)) = length arg_out /\
  (forall e_1 lo hi k,
    0 <= e_1 < E_1 ->
    coo_run index_info stride E_2 e_1 lo hi -> 0 <= k < K ->
    exists args0,
      (e_1 = 0 -> forall j, 0 <= j < K -> load args0 j = 0) /\
      coo_run_result scalar_t REDUCE src_data index_info stride E_2 K N
        out arg_out args0 (out_data (bufs s)) (arg_out_data (bufs s))
        e_1 lo hi k) /\
  (forall p,
     (forall e_1 e_2 k, 0 <= e_1 < E_1 -> 0 <= e_2 < E_2 -> 0 <= k < K ->
                        p <> coo_addr K N e_1 (group_at e_1 e_2) k) ->
     load (arg_out_data (bufs s)) p = load arg_out p).
Proof.
  intros HE Hsorted Hrange. cbv zeta. unfold coo_kernel.
  set (s0 := {| bufs := _; idx := 0; row_start := 0; failed := false |}).
  set (blk := coo_block scalar_t REDUCE src_data index_info stride E_2 K N
                NDEBUG).
  destruct (Z.le_gt_cases 0 E_1) as [HE1|HE1].
  2:{ rewrite for_range_empty by lia. unfold s0; simpl.
      repeat match goal with |- _ /\ _ => split end; auto. intros; lia. }
  cut (failed (for_range 0 E_1 blk s0) = false /\
       (E_1 = 0 -> forall j, 0 <= j < K ->
          load (args (bufs (for_range 0 E_1 blk s0))) j = 0) /\
       length (vals (bufs (for_range 0 E_1 blk s0))) = Z.to_nat K /\
       length (args (bufs (for_range 0 E_1 blk s0))) = Z.to_nat K /\
       length (out_data (bufs (for_range 0 E_1 blk s0))) = length out /\
       length (arg_out_data (bufs (for_range 0 E_1 blk s0)))
       = length arg_out /\
       (forall p, 0 <= K -> E_1 * N * K <= p ->
          load (out_data (bufs (for_range 0 E_1 blk s0))) p = load out p /\
          load (arg_out_data (bufs (for_range 0 E_1 blk s0))) p
          = load arg_out p) /\
       (forall e_1 lo hi k,
         0 <= e_1 < E_1 ->
         coo_run index_info stride E_2 e_1 lo hi -> 0 <= k < K ->
         exists args0,
           (e_1 = 0 -> forall j, 0 <= j < K -> load args0 j = 0) /\
           coo_run_result scalar_t REDUCE src_data index_info stride E_2 K N
             out arg_out args0 (out_data (bufs (for_range 0 E_1 blk s0)))
             (arg_out_data (bufs (for_range 0 E_1 blk s0))) e_1 lo hi k) /\
       (forall p,
          (forall e_1 e_2 k, 0 <= e_1 < E_1 -> 0 <= e_2 < E_2 ->
                             0 <= k < K ->
                             p <> coo_addr K N e_1 (group_at e_1 e_2) k) ->
          load (arg_out_data (bufs (for_range 0 E_1 blk s0))) p
          = load arg_out p)).
  { intros (H1 & _ & _ & _ & H2 & H3 & _ & H4 & H5). auto. }
  apply (for_range_ind
    (fun i s =>
       failed s = false /\
       (i = 0 -> forall j, 0 <= j < K -> load (args (bufs s)) j = 0) /\
       length (vals (bufs s)) = Z.to_nat K /\
       length (args (bufs s)) = Z.to_nat K /\
       length (out_data (bufs s)) = length out /\
       length (arg_out_data (bufs s)) = length arg_out /\
       (forall p, 0 <= K -> i * N * K <= p ->
          load (out_data (bufs s)) p = load out p /\
          load (arg_out_data (bufs s)) p = load arg_out p) /\
       (forall e_1 lo hi k,
         0 <= e_1 < i ->
         coo_run index_info stride E_2 e_1 lo hi -> 0 <= k < K ->
         exists args0,
           (e_1 = 0 -> forall j, 0 <= j < K -> load args0 j = 0) /\
           coo_run_result scalar_t REDUCE src_data index_info stride E_2 K N
             out arg_out args0 (out_data (bufs s)) (arg_out_data (bufs s))
             e_1 lo hi k) /\
       (forall p,
          (forall e_1 e_2 k, 0 <= e_1 < i -> 0 <= e_2 < E_2 -> 0 <= k < K ->
                             p <> coo_addr K N e_1 (group_at e_1 e_2) k) ->
          load (arg_out_data (bufs s)) p = load arg_out p))
    0 E_1 blk s0 HE1).
  - unfold s0; simpl. rewrite !repeat_length.
    repeat match goal with |- _ /\ _ => split end; auto.
    + intros _ j Hj. apply load_repeat. lia.
    + intros; lia.
  - intros i s Hi (Hf & Hz & Hv & Ha & Hlo & Hla & Hun & Hres & Hfa).
    assert (Hsi : forall e, 0 <= e < E_2 - 1 ->
              group_at i e <= group_at i (e + 1))
      by (intros e He; apply Hsorted; lia).
    destruct (coo_block_runs scalar_t REDUCE src_data index_info stride E_2
                K N NDEBUG i s HE Hsi Hf Hv Ha)
      as (Hf' & Hv' & Ha' & Hlo' & Hla' & Hres' & Hfr').
    fold blk in Hf', Hv', Ha', Hlo', Hla', Hres', Hfr'.
    assert (Hother : forall p,
              p < i * N * K \/ (i + 1) * N * K <= p ->
              forall e k, 0 <= e < E_2 -> 0 <= k < K ->
                p <> coo_addr K N i (group_at i e) k).
    { intros p Hp e k He Hk.
      pose proof (coo_addr_bounds K N i (group_at i e) k
                    (Hrange i e Hi He) Hk). lia. }
    assert (HN : 0 < N).
    { pose proof (Hrange i 0 Hi). lia. }
    repeat match goal with |- _ /\ _ => split end; auto; try congruence.
    + intros; lia.
    + intros p HK Hp.
      destruct (Hfr' p) as [H1 H2]; [apply Hother; right; lia|].
      destruct (Hun p) as [H3 H4]; [lia|nia|]. split; congruence.
    + intros e_1 lo hi k He Hrun Hk.
      destruct (Z.eq_dec e_1 i) as [->|Hne].
      * specialize (Hres' lo hi k Hrun Hk).
        unfold coo_run_result in *. cbv zeta in *.
        assert (Hseed : coo_seed index_info stride E_2 K N
                          (out_data (bufs s)) i lo k
                        = coo_seed index_info stride E_2 K N out i lo k).
        { unfold coo_seed. apply Hun; [lia|].
          destruct Hrun as (Hl & Hh & _).
          destruct (lo =? 0).
          - apply (coo_addr_bounds K N i 0 k); lia.
          - apply (coo_addr_bounds K N i (group_at i lo) k); auto.
            apply Hrange; lia. }
        rewrite Hseed, Hlo, Hla in Hres'.
        exists (args (bufs s)). split; auto.
      * destruct (Hres e_1 lo hi k ltac:(lia) Hrun Hk)
          as (args0 & Hz0 & Hv0 & Hw0).
        exists args0. split; auto.
        unfold coo_run_result in *. cbv zeta in *.
        assert (Hbelow : forall e, 0 <= e < E_2 ->
                  load (out_data (bufs (blk i s)))
                    (coo_addr K N e_1 (group_at e_1 e) k)
                  = load (out_data (bufs s))
                      (coo_addr K N e_1 (group_at e_1 e) k) /\
                  load (arg_out_data (bufs (blk i s)))
                    (coo_addr K N e_1 (group_at e_1 e) k)
                  = load (arg_out_data (bufs s))
                      (coo_addr K N e_1 (group_at e_1 e) k)).
        { intros e He'. apply Hfr'. apply Hother. left.
          pose proof (coo_addr_bounds K N e_1 (group_at e_1 e) k
                        (Hrange e_1 e ltac:(lia) He') Hk).
          nia. }
        destruct Hrun as (Hl & Hh & _).
        destruct (Hbelow lo ltac:(lia)) as [H1 H2].
        split.
        -- intros Hp. rewrite H1. auto.
        -- intros HR Hp. destruct (Hw0 HR Hp) as (a0 & A & B & C).
           exists a0. rewrite H2. repeat split; auto.
           intros Hpos Hq.
           destruct (Hbelow (lo - 1) ltac:(lia)) as [_ H3].
           rewrite H3. auto.
    + intros p Hp.
      destruct (Hfr' p) as [_ H2].
      { intros e k He Hk. apply Hp; auto; lia. }
      rewrite H2. apply Hfa. intros e_1 e_2 k He1 He2 Hk.
      apply Hp; auto; lia.
Qed.
End COOKernelRuns.

(** * What [segment_coo] returns for a sorted index array *)

Lemma fold_add_shift (x : Z -> Z) (l : list Z) (u w : Z) :
  fold_left (fun acc e => acc + x e) l (u + w)
  = u + fold_left (fun acc e => acc + x e) l w.
Proof.
  revert w; induction l as [|e l IH]; intros w; simpl; auto.
  rewrite <- IH. f_equal. lia.
Qed.

(** For SUM and MEAN the accumulator of a group that is not empty is the sum
    of the seed and the elements, in the element type. *)
Lemma coo_lane_sum (scalar_t : scalar_type) (REDUCE : ReductionType)
      (src_data : list Z) (E_2 K e_1 lo hi k v a : Z) :
  REDUCE = SUM \/ REDUCE = MEAN -> lo < hi ->
  fst (coo_lane scalar_t REDUCE src_data E_2 K e_1 lo hi k (v, a))
  = wrap scalar_t
      (v + sum_range (fun e => coo_src src_data E_2 K e_1 e k) lo hi).
Proof.
  intros HR Hlt. unfold coo_lane, sum_range.
  rewrite (zrange_app lo (lo + 1) hi) by lia.
  rewrite (zrange_snoc lo lo), zrange_empty by lia. simpl.
  replace (accumulate scalar_t REDUCE (v, a)
             (coo_src src_data E_2 K e_1 lo k) lo)
    with (wrap scalar_t (v + coo_src src_data E_2 K e_1 lo k), a)
    by (destruct HR as [-> | ->]; reflexivity).
  rewrite sum_fold by auto. f_equal. now rewrite fold_add_shift.
Qed.

(** [segment_coo] on an index array that is sorted along the reduce
    dimension and names groups of [out] only: the call returns, and every
    group of positions is stored in the cells of its group index. *)
Lemma segment_coo_runs (scalar_t : scalar_type) (NDEBUG : bool)
      (src index out : Tensor)
      (reduce : string) (c : coo_setup) :
  segment_coo_setup src index out reduce = Ok c ->
  1 <= coo_E_2 c ->
  coo_sorted (coo_index c) (coo_stride c) (coo_E_1 c) (coo_E_2 c) ->
  coo_in_range (coo_index c) (coo_stride c) (coo_E_1 c) (coo_E_2 c)
    (coo_N c) ->
  let s := segment_coo_run scalar_t NDEBUG src out c in
  segment_coo scalar_t NDEBUG src index out reduce =
  (out_data (bufs s),
   Ok (with_data out (out_data (bufs s)),
       option_map (fun a => with_data a (arg_out_data (bufs s)))
         (coo_arg_out c))) /\
  (forall e_1 lo hi k,
     0 <= e_1 < coo_E_1 c ->
     coo_run (coo_index c) (coo_stride c) (coo_E_2 c) e_1 lo hi ->
     0 <= k < coo_K c ->
     exists args0,
       (e_1 = 0 -> forall j, 0 <= j < coo_K c -> load args0 j = 0) /\
       coo_run_result scalar_t (coo_REDUCE c) (data src) (coo_index c)
         (coo_stride c) (coo_E_2 c) (coo_K c) (coo_N c)
         (data out) (arg_data (coo_arg_out c)) args0
         (out_data (bufs s)) (arg_out_data (bufs s)) e_1 lo hi k) /\
  (forall p,
     (forall e_1 e_2 k,
        0 <= e_1 < coo_E_1 c -> 0 <= e_2 < coo_E_2 c -> 0 <= k < coo_K c ->
        p <> coo_addr (coo_K c) (coo_N c) e_1
               (coo_idx (coo_index c) (coo_stride c) (coo_E_2 c) e_1 e_2)
               k) ->
     load (arg_out_data (bufs s)) p = load (arg_data (coo_arg_out c)) p).
Proof.
  intros Hs HE Hsorted Hrange. cbv zeta.
  rewrite (segment_coo_unfold scalar_t NDEBUG _ _ _ _ _ Hs).
  destruct (coo_kernel_runs scalar_t (coo_REDUCE c) (data src) (coo_index c)
              (coo_stride c) (coo_E_1 c) (coo_E_2 c) (coo_K c) (coo_N c) NDEBUG
              (data out) (arg_data (coo_arg_out c)) HE Hsorted Hrange)
    as (Hf & _ & _ & Hres & Hfr).
  fold (segment_coo_run scalar_t NDEBUG src out c) in Hf, Hres, Hfr.
  rewrite Hf. auto.
Qed.

(** Case analysis on a position of the examples. *)
Ltac two_cases e :=
  let E := fresh "E" in
  assert (E : e = 0 \/ e = 1) by lia; destruct E as [-> | ->].

Ltac three_cases e :=
  let E := fresh "E" in
  assert (E : e = 0 \/ e = 1 \/ e = 2) by lia;
  destruct E as [-> | [-> | ->]].

(** X8: for "sum" and "add", when the index array is sorted along the reduce
    dimension and names groups of [out] only, [segment_coo] returns, and the
    cells of a group hold the sum, in the element type, of the seed and of
    the elements at the positions [lo <= e_2 < hi] that carry its index.
    The seed is the cell of [out] itself for a group that starts within a
    block ([lo > 0]), and the cell of group 0 of the block for the group
    that starts the block ([lo = 0], line 210). *)
Theorem coo_sum_adds_group_to_seed
    (scalar_t : scalar_type) (NDEBUG : bool) (src index out : Tensor)
    (reduce : string)
    (c : coo_setup) (e_1 lo hi k : Z) :
  reduce = "sum"%string \/ reduce = "add"%string ->
  segment_coo_setup src index out reduce = Ok c ->
  coo_sorted (coo_index c) (coo_stride c) (coo_E_1 c) (coo_E_2 c) ->
  coo_in_range (coo_index c) (coo_stride c) (coo_E_1 c) (coo_E_2 c)
    (coo_N c) ->
  0 <= e_1 < coo_E_1 c ->
  coo_run (coo_index c) (coo_stride c) (coo_E_2 c) e_1 lo hi ->
  0 <= k < coo_K c ->
  coo_addr (coo_K c) (coo_N c) e_1
    (coo_idx (coo_index c) (coo_stride c) (coo_E_2 c) e_1 lo) k
  < Z.of_nat (length (data out)) ->
  exists o,
    segment_coo scalar_t NDEBUG src index out reduce = (data o, Ok (o, None)) /\
    load (data o)
      (coo_addr (coo_K c) (coo_N c) e_1
         (coo_idx (coo_index c) (coo_stride c) (coo_E_2 c) e_1 lo) k)
    = wrap scalar_t
        (coo_seed (coo_index c) (coo_stride c) (coo_E_2 c) (coo_K c)
           (coo_N c) (data out) e_1 lo k
         + sum_range
             (fun e => coo_src (data src) (coo_E_2 c) (coo_K c) e_1 e k)
             lo hi).
Proof.
  intros Hred Hs Hsorted Hrange He Hrun Hk Hp.
  assert (HE : 1 <= coo_E_2 c) by (destruct Hrun as (? & ? & _); lia).
  destruct (coo_setup_arg_out _ _ _ _ _ Hs) as (Hl & _ & Ha).
  assert (HR : coo_REDUCE c = SUM).
  { destruct Hred as [-> | ->]; now inversion Hl. }
  rewrite HR in Ha; simpl in Ha.
  destruct (segment_coo_runs scalar_t NDEBUG _ _ _ _ _ Hs HE Hsorted Hrange)
    as (Hcall & Hres & _).
  cbv zeta in Hcall, Hres.
  destruct (Hres e_1 lo hi k He Hrun Hk) as (args0 & _ & Hv & _).
  rewrite HR in Hv. cbn [written_value] in Hv.
  rewrite coo_lane_sum in Hv by (auto; destruct Hrun; lia).
  rewrite Hcall, Ha. simpl.
  exists (with_data out
            (out_data (bufs (segment_coo_run scalar_t NDEBUG src out c)))).
  split; [reflexivity|]. apply Hv.
  pose proof (Hrange e_1 lo He ltac:(destruct Hrun; lia)) as Hg.
  pose proof (coo_addr_bounds (coo_K c) (coo_N c) e_1 _ k Hg Hk).
  split; [nia|auto].
Qed.

Lemma coo_sum_adds_group_to_seed_witness :
  exists o,
    segment_coo int64_t false
        {| sizes := [2; 3]; strides := [3; 1]; data := [1; 2; 3; 4; 5; 6] |}
        {| sizes := [2; 3]; strides := [3; 1]; data := [1; 1; 2; 0; 2; 2] |}
        {| sizes := [2; 3]; strides := [3; 1];
             data := [10; 20; 30; 40; 50; 60] |}
        "sum" = (data o, Ok (o, None)) /\
    load (data o) 1 = 13.
Proof.
  refine (coo_sum_adds_group_to_seed int64_t false
            {| sizes := [2; 3]; strides := [3; 1]; data := [1; 2; 3; 4; 5; 6] |}
            {| sizes := [2; 3]; strides := [3; 1]; data := [1; 1; 2; 0; 2; 2] |}
            {| sizes := [2; 3]; strides := [3; 1];
               data := [10; 20; 30; 40; 50; 60] |}
            "sum"
            {| coo_REDUCE := SUM;
               coo_index := {| sizes := [2; 3]; strides := [3; 1];
                              data := [1; 1; 2; 0; 2; 2] |};
               coo_arg_out := None;
               coo_stride := 1; coo_E_1 := 2; coo_E_2 := 3; coo_K := 1;
               coo_N := 3 |}
            0 0 2 0 _ _ _ _ _ _ _ _).
  - left; reflexivity.
  - reflexivity.
  - intros e_1 e_2 H1 H2. simpl in H1, H2.
    two_cases e_1; two_cases e_2; vm_compute; congruence.
  - intros e_1 e_2 H1 H2. simpl in H1, H2.
    two_cases e_1; three_cases e_2; vm_compute; split; congruence.
  - simpl; lia.
  - unfold coo_run. simpl.
    split; [lia|]. split; [lia|].
    split; [intros e He; two_cases e; reflexivity|].
    split; [now left | right; vm_compute; congruence].
  - simpl; lia.
  - vm_compute; reflexivity.
Defined.

(** X9: for "mean" under the same conditions, the cell of a group holds the
    quotient (truncated, in the element type) of the sum of the seed and of
    the elements of the group by the number [hi - lo] of elements: the seed
    is part of the dividend and is not counted in the divisor. *)
Theorem coo_mean_divides_seeded_sum_by_count
    (scalar_t : scalar_type) (NDEBUG : bool) (src index out : Tensor)
    (reduce : string)
    (c : coo_setup) (e_1 lo hi k : Z) :
  reduce = "mean"%string ->
  segment_coo_setup src index out reduce = Ok c ->
  coo_sorted (coo_index c) (coo_stride c) (coo_E_1 c) (coo_E_2 c) ->
  coo_in_range (coo_index c) (coo_stride c) (coo_E_1 c) (coo_E_2 c)
    (coo_N c) ->
  0 <= e_1 < coo_E_1 c ->
  coo_run (coo_index c) (coo_stride c) (coo_E_2 c) e_1 lo hi ->
  0 <= k < coo_K c ->
  coo_addr (coo_K c) (coo_N c) e_1
    (coo_idx (coo_index c) (coo_stride c) (coo_E_2 c) e_1 lo) k
  < Z.of_nat (length (data out)) ->
  exists o,
    segment_coo scalar_t NDEBUG src index out reduce = (data o, Ok (o, None)) /\
    load (data o)
      (coo_addr (coo_K c) (coo_N c) e_1
         (coo_idx (coo_index c) (coo_stride c) (coo_E_2 c) e_1 lo) k)
    = wrap scalar_t
        (Z.quot
           (wrap scalar_t
              (coo_seed (coo_index c) (coo_stride c) (coo_E_2 c) (coo_K c)
                 (coo_N c) (data out) e_1 lo k
               + sum_range
                   (fun e => coo_src (data src) (coo_E_2 c) (coo_K c)
                               e_1 e k)
                   lo hi))
           (hi - lo)).
Proof.
  intros Hred Hs Hsorted Hrange He Hrun Hk Hp.
  assert (Hlh : lo < hi) by (destruct Hrun; lia).
  assert (HE : 1 <= coo_E_2 c) by (destruct Hrun as (? & ? & _); lia).
  destruct (coo_setup_arg_out _ _ _ _ _ Hs) as (Hl & _ & Ha).
  assert (HR : coo_REDUCE c = MEAN) by (subst reduce; now inversion Hl).
  rewrite HR in Ha; simpl in Ha.
  destruct (segment_coo_runs scalar_t NDEBUG _ _ _ _ _ Hs HE Hsorted Hrange)
    as (Hcall & Hres & _).
  cbv zeta in Hcall, Hres.
  destruct (Hres e_1 lo hi k He Hrun Hk) as (args0 & _ & Hv & _).
  rewrite HR in Hv. cbn [written_value] in Hv.
  rewrite coo_lane_sum in Hv by auto.
  replace (hi - lo >? 0) with true in Hv by (symmetry; apply Z.gtb_lt; lia).
  rewrite Hcall, Ha. simpl.
  exists (with_data out
            (out_data (bufs (segment_coo_run scalar_t NDEBUG src out c)))).
  split; [reflexivity|]. apply Hv.
  pose proof (Hrange e_1 lo He ltac:(destruct Hrun; lia)) as Hg.
  pose proof (coo_addr_bounds (coo_K c) (coo_N c) e_1 _ k Hg Hk).
  split; [nia|auto].
Qed.

Lemma coo_mean_divides_seeded_sum_by_count_witness :
  exists o,
    segment_coo int64_t false
        {| sizes := [2; 3]; strides := [3; 1]; data := [1; 2; 3; 4; 5; 6] |}
        {| sizes := [2; 3]; strides := [3; 1]; data := [1; 1; 2; 0; 2; 2] |}
        {| sizes := [2; 3]; strides := [3; 1];
             data := [10; 20; 30; 40; 50; 60] |}
        "mean" = (data o, Ok (o, None)) /\
    load (data o) 1 = 6.
Proof.
  refine (coo_mean_divides_seeded_sum_by_count int64_t false
            {| sizes := [2; 3]; strides := [3; 1]; data := [1; 2; 3; 4; 5; 6] |}
            {| sizes := [2; 3]; strides := [3; 1]; data := [1; 1; 2; 0; 2; 2] |}
            {| sizes := [2; 3]; strides := [3; 1];
               data := [10; 20; 30; 40; 50; 60] |}
            "mean"
            {| coo_REDUCE := MEAN;
               coo_index := {| sizes := [2; 3]; strides := [3; 1];
                              data := [1; 1; 2; 0; 2; 2] |};
               coo_arg_out := None;
               coo_stride := 1; coo_E_1 := 2; coo_E_2 := 3; coo_K := 1;
               coo_N := 3 |}
            0 0 2 0 _ _ _ _ _ _ _ _).
  - reflexivity.
  - reflexivity.
  - intros e_1 e_2 H1 H2. simpl in H1, H2.
    two_cases e_1; two_cases e_2; vm_compute; congruence.
  - intros e_1 e_2 H1 H2. simpl in H1, H2.
    two_cases e_1; three_cases e_2; vm_compute; split; congruence.
  - simpl; lia.
  - unfold coo_run. simpl.
    split; [lia|]. split; [lia|].
    split; [intros e He; two_cases e; reflexivity|].
    split; [now left | right; vm_compute; congruence].
  - simpl; lia.
  - vm_compute; reflexivity.
Defined.

(** For MIN and MAX the accumulator ends as the least (greatest) of the
    value it starts with and the elements it is shown. *)
Lemma lane_extremum_seed (scalar_t : scalar_type) (REDUCE : ReductionType)
      (x : Z -> Z) (l : list Z) (v0 a0 : Z) :
  REDUCE = MIN \/ REDUCE = MAX ->
  let v := fst (fold_left (fun va e => accumulate scalar_t REDUCE va (x e) e)
                  l (v0, a0)) in
  (v = v0 \/ exists e, In e l /\ x e = v) /\
  ~ better REDUCE v0 v /\
  forall e, In e l -> ~ better REDUCE (x e) v.
Proof.
  intros HR. cbv zeta. revert v0 a0.
  induction l as [|e l IH]; intros v0 a0; simpl.
  - split; [now left|].
    split; [unfold better; destruct HR as [-> | ->]; lia | intros e []].
  - assert (Hacc :
      (fst (accumulate scalar_t REDUCE (v0, a0) (x e) e) = x e /\
       better REDUCE (x e) v0) \/
      (fst (accumulate scalar_t REDUCE (v0, a0) (x e) e) = v0 /\
       ~ better REDUCE (x e) v0)).
    { unfold accumulate, better. destruct HR as [-> | ->]; simpl.
      - destruct (Z.ltb_spec (x e) v0); simpl; [left|right]; split; auto; lia.
      - destruct (Z.gtb_spec (x e) v0); simpl; [left|right]; split; auto; lia. }
    destruct (accumulate scalar_t REDUCE (v0, a0) (x e) e) as [v1 a1].
    simpl in Hacc.
    destruct (IH v1 a1) as (Hv & Hb & Hall).
    set (v := fst (fold_left _ l (v1, a1))) in *.
    split; [|split].
    + destruct Hv as [Hv | (e' & Hin & Hx)].
      * destruct Hacc as [[H1 _] | [H1 _]].
        -- right. exists e. split; auto. congruence.
        -- left. congruence.
      * right. exists e'. auto.
    + unfold better in *.
      destruct HR as [-> | ->]; destruct Hacc as [[H1 H2] | [H1 H2]]; lia.
    + intros e' [<- | Hin]; auto.
      unfold better in *.
      destruct HR as [-> | ->]; destruct Hacc as [[H1 H2] | [H1 H2]]; lia.
Qed.

(** X10: for "min" and "max" under the same conditions, the cell of a group
    holds the least (resp. greatest) of the seed and of the elements of the
    group: it is the seed or one of the elements, and neither the seed nor
    an element is less (resp. greater). *)
Theorem coo_min_max_value_is_extremum_with_seed
    (scalar_t : scalar_type) (NDEBUG : bool) (src index out : Tensor)
    (reduce : string)
    (c : coo_setup) (e_1 lo hi k : Z) :
  reduce = "min"%string \/ reduce = "max"%string ->
  segment_coo_setup src index out reduce = Ok c ->
  coo_sorted (coo_index c) (coo_stride c) (coo_E_1 c) (coo_E_2 c) ->
  coo_in_range (coo_index c) (coo_stride c) (coo_E_1 c) (coo_E_2 c)
    (coo_N c) ->
  0 <= e_1 < coo_E_1 c ->
  coo_run (coo_index c) (coo_stride c) (coo_E_2 c) e_1 lo hi ->
  0 <= k < coo_K c ->
  coo_addr (coo_K c) (coo_N c) e_1
    (coo_idx (coo_index c) (coo_stride c) (coo_E_2 c) e_1 lo) k
  < Z.of_nat (length (data out)) ->
  exists o a,
    segment_coo scalar_t NDEBUG src index out reduce
    = (data o, Ok (o, Some a)) /\
    (load (data o)
       (coo_addr (coo_K c) (coo_N c) e_1
          (coo_idx (coo_index c) (coo_stride c) (coo_E_2 c) e_1 lo) k)
     = coo_seed (coo_index c) (coo_stride c) (coo_E_2 c) (coo_K c)
         (coo_N c) (data out) e_1 lo k \/
     exists e, lo <= e < hi /\
       coo_src (data src) (coo_E_2 c) (coo_K c) e_1 e k
       = load (data o)
           (coo_addr (coo_K c) (coo_N c) e_1
              (coo_idx (coo_index c) (coo_stride c) (coo_E_2 c) e_1 lo) k)) /\
    ~ better (coo_REDUCE c)
        (coo_seed (coo_index c) (coo_stride c) (coo_E_2 c) (coo_K c)
           (coo_N c) (data out) e_1 lo k)
        (load (data o)
           (coo_addr (coo_K c) (coo_N c) e_1
              (coo_idx (coo_index c) (coo_stride c) (coo_E_2 c) e_1 lo) k)) /\
    forall e, lo <= e < hi ->
      ~ better (coo_REDUCE c)
          (coo_src (data src) (coo_E_2 c) (coo_K c) e_1 e k)
          (load (data o)
             (coo_addr (coo_K c) (coo_N c) e_1
                (coo_idx (coo_index c) (coo_stride c) (coo_E_2 c) e_1 lo)
                k)).
Proof.
  intros Hred Hs Hsorted Hrange He Hrun Hk Hp.
  assert (Hlh : lo < hi) by (destruct Hrun; lia).
  assert (HE : 1 <= coo_E_2 c) by (destruct Hrun as (? & ? & _); lia).
  destruct (coo_setup_arg_out _ _ _ _ _ Hs) as (Hl & _ & Ha).
  assert (Harg : is_arg_reduction (coo_REDUCE c) = true)
    by (apply (lookup_arg_reduction reduce); auto).
  assert (HR : coo_REDUCE c = MIN \/ coo_REDUCE c = MAX)
    by (destruct (coo_REDUCE c); try discriminate; auto).
  rewrite Harg in Ha.
  destruct (segment_coo_runs scalar_t NDEBUG _ _ _ _ _ Hs HE Hsorted Hrange)
    as (Hcall & Hres & _).
  cbv zeta in Hcall, Hres.
  destruct (Hres e_1 lo hi k He Hrun Hk) as (args0 & _ & Hv & _).
  assert (Hval : forall v,
            written_value scalar_t (coo_REDUCE c) v (hi - lo) = v).
  { intros v. unfold written_value.
    replace (hi - lo >? 0) with true by (symmetry; apply Z.gtb_lt; lia).
    destruct HR as [-> | ->]; reflexivity. }
  rewrite Hval in Hv.
  rewrite Hcall, Ha. simpl.
  exists (with_data out
            (out_data (bufs (segment_coo_run scalar_t NDEBUG src out c)))).
  eexists. split; [reflexivity|]. cbn [with_data data].
  rewrite Hv.
  2:{ pose proof (Hrange e_1 lo He ltac:(destruct Hrun; lia)) as Hg.
      pose proof (coo_addr_bounds (coo_K c) (coo_N c) e_1 _ k Hg Hk).
      split; [nia|auto]. }
  unfold coo_lane.
  destruct (lane_extremum_seed scalar_t (coo_REDUCE c)
              (fun e => coo_src (data src) (coo_E_2 c) (coo_K c) e_1 e k)
              (zrange lo hi)
              (coo_seed (coo_index c) (coo_stride c) (coo_E_2 c) (coo_K c)
                 (coo_N c) (data out) e_1 lo k) 0 HR)
    as (H1 & H2 & H3).
  split; [|split]; auto.
  - destruct H1 as [H1 | (e & Hin & Hx)]; auto.
    right. exists e. split; auto. now apply zrange_In.
  - intros e Hin. apply H3. now apply zrange_In.
Qed.

Lemma coo_min_max_value_is_extremum_with_seed_witness :
  exists o a,
    segment_coo int64_t false
        {| sizes := [2; 3]; strides := [3; 1]; data := [1; 2; 3; 4; 5; 6] |}
        {| sizes := [2; 3]; strides := [3; 1]; data := [1; 1; 2; 0; 2; 2] |}
        {| sizes := [2; 3]; strides := [3; 1];
             data := [10; 20; 30; 40; 50; 60] |}
        "min" = (data o, Ok (o, Some a)) /\
    (load (data o) 1 = 10 \/
     exists e, 0 <= e < 2 /\
       coo_src [1; 2; 3; 4; 5; 6] 3 1 0 e 0 = load (data o) 1) /\
    ~ better MIN 10 (load (data o) 1) /\
    forall e, 0 <= e < 2 ->
      ~ better MIN (coo_src [1; 2; 3; 4; 5; 6] 3 1 0 e 0) (load (data o) 1).
Proof.
  refine (coo_min_max_value_is_extremum_with_seed int64_t false
            {| sizes := [2; 3]; strides := [3; 1]; data := [1; 2; 3; 4; 5; 6] |}
            {| sizes := [2; 3]; strides := [3; 1]; data := [1; 1; 2; 0; 2; 2] |}
            {| sizes := [2; 3]; strides := [3; 1];
               data := [10; 20; 30; 40; 50; 60] |}
            "min"
            {| coo_REDUCE := MIN;
               coo_index := {| sizes := [2; 3]; strides := [3; 1];
                              data := [1; 1; 2; 0; 2; 2] |};
               coo_arg_out := Some {| sizes := [2; 3]; strides := [3; 1];
                                    data := [3; 3; 3; 3; 3; 3] |};
               coo_stride := 1; coo_E_1 := 2; coo_E_2 := 3; coo_K := 1;
               coo_N := 3 |}
            0 0 2 0 _ _ _ _ _ _ _ _).
  - left; reflexivity.
  - reflexivity.
  - intros e_1 e_2 H1 H2. simpl in H1, H2.
    two_cases e_1; two_cases e_2; vm_compute; congruence.
  - intros e_1 e_2 H1 H2. simpl in H1, H2.
    two_cases e_1; three_cases e_2; vm_compute; split; congruence.
  - simpl; lia.
  - unfold coo_run. simpl.
    split; [lia|]. split; [lia|].
    split; [intros e He; two_cases e; reflexivity|].
    split; [now left | right; vm_compute; congruence].
  - simpl; lia.
  - vm_compute; reflexivity.
Defined.

(** X11: for "min" and "max" under the same conditions, when some element
    of the group is less (resp. greater) than the seed, the argument cell of
    the group holds the first position [e_2] of the block at which the
    stored value occurs: positions count along the reduce dimension, from
    the start of the block. *)
Theorem coo_arg_is_first_winner
    (scalar_t : scalar_type) (NDEBUG : bool) (src index out : Tensor)
    (reduce : string)
    (c : coo_setup) (e_1 lo hi k : Z) :
  reduce = "min"%string \/ reduce = "max"%string ->
  dense out = true ->
  segment_coo_setup src index out reduce = Ok c ->
  coo_sorted (coo_index c) (coo_stride c) (coo_E_1 c) (coo_E_2 c) ->
  coo_in_range (coo_index c) (coo_stride c) (coo_E_1 c) (coo_E_2 c)
    (coo_N c) ->
  0 <= e_1 < coo_E_1 c ->
  coo_run (coo_index c) (coo_stride c) (coo_E_2 c) e_1 lo hi ->
  0 <= k < coo_K c ->
  coo_addr (coo_K c) (coo_N c) e_1
    (coo_idx (coo_index c) (coo_stride c) (coo_E_2 c) e_1 lo) k
  < Z.of_nat (length (data out)) ->
  (exists e, lo <= e < hi /\
     better (coo_REDUCE c)
       (coo_src (data src) (coo_E_2 c) (coo_K c) e_1 e k)
       (coo_seed (coo_index c) (coo_stride c) (coo_E_2 c) (coo_K c)
          (coo_N c) (data out) e_1 lo k)) ->
  exists o a,
    segment_coo scalar_t NDEBUG src index out reduce
    = (data o, Ok (o, Some a)) /\
    first_winner (coo_REDUCE c)
      (fun e => coo_src (data src) (coo_E_2 c) (coo_K c) e_1 e k) lo hi
      (load (data o)
         (coo_addr (coo_K c) (coo_N c) e_1
            (coo_idx (coo_index c) (coo_stride c) (coo_E_2 c) e_1 lo) k))
      (load (data a)
         (coo_addr (coo_K c) (coo_N c) e_1
            (coo_idx (coo_index c) (coo_stride c) (coo_E_2 c) e_1 lo) k)).
Proof.
  intros Hred Hdense Hs Hsorted Hrange He Hrun Hk Hp Hex.
  assert (Hlh : lo < hi) by (destruct Hrun; lia).
  assert (HE : 1 <= coo_E_2 c) by (destruct Hrun as (? & ? & _); lia).
  destruct (coo_setup_arg_out _ _ _ _ _ Hs) as (Hl & _ & Ha).
  assert (Harg : is_arg_reduction (coo_REDUCE c) = true)
    by (apply (lookup_arg_reduction reduce); auto).
  assert (HR : coo_REDUCE c = MIN \/ coo_REDUCE c = MAX)
    by (destruct (coo_REDUCE c); try discriminate; auto).
  rewrite Harg in Ha.
  destruct (segment_coo_runs scalar_t NDEBUG _ _ _ _ _ Hs HE Hsorted Hrange)
    as (Hcall & Hres & _).
  cbv zeta in Hcall, Hres.
  assert (Hp0 : 0 <= coo_addr (coo_K c) (coo_N c) e_1
                       (coo_idx (coo_index c) (coo_stride c) (coo_E_2 c)
                          e_1 lo) k).
  { pose proof (Hrange e_1 lo He ltac:(destruct Hrun; lia)) as Hg.
    pose proof (coo_addr_bounds (coo_K c) (coo_N c) e_1 _ k Hg Hk). nia. }
  destruct (Hres e_1 lo hi k He Hrun Hk) as (args0 & _ & Hv & Hw).
  destruct (Hw Harg) as (a0 & Ha0 & _).
  { rewrite Ha. simpl. rewrite repeat_length.
    pose proof (dense_length out Hdense). lia. }
  assert (Hval : forall v,
            written_value scalar_t (coo_REDUCE c) v (hi - lo) = v).
  { intros v. unfold written_value.
    replace (hi - lo >? 0) with true by (symmetry; apply Z.gtb_lt; lia).
    destruct HR as [-> | ->]; reflexivity. }
  rewrite Hval in Hv.
  rewrite Hcall, Ha. simpl.
  exists (with_data out
            (out_data (bufs (segment_coo_run scalar_t NDEBUG src out c)))).
  eexists. split; [reflexivity|]. cbn [with_data data].
  rewrite Hv, Ha0 by auto.
  unfold coo_lane.
  rewrite (lane_fst_indep scalar_t (coo_REDUCE c)
             (fun e => coo_src (data src) (coo_E_2 c) (coo_K c) e_1 e k)
             (zrange lo hi) _ 0 a0).
  now apply lane_first_winner.
Qed.

Lemma coo_arg_is_first_winner_witness :
  exists o a,
    segment_coo int64_t false
        {| sizes := [2; 3]; strides := [3; 1]; data := [1; 2; 3; 4; 5; 6] |}
        {| sizes := [2; 3]; strides := [3; 1]; data := [1; 1; 2; 0; 2; 2] |}
        {| sizes := [2; 3]; strides := [3; 1];
             data := [10; 20; 30; 40; 50; 60] |}
        "min" = (data o, Ok (o, Some a)) /\
    first_winner MIN (fun e => coo_src [1; 2; 3; 4; 5; 6] 3 1 0 e 0) 0 2
      (load (data o) 1) (load (data a) 1).
Proof.
  refine (coo_arg_is_first_winner int64_t false
            {| sizes := [2; 3]; strides := [3; 1]; data := [1; 2; 3; 4; 5; 6] |}
            {| sizes := [2; 3]; strides := [3; 1]; data := [1; 1; 2; 0; 2; 2] |}
            {| sizes := [2; 3]; strides := [3; 1];
               data := [10; 20; 30; 40; 50; 60] |}
            "min"
            {| coo_REDUCE := MIN;
               coo_index := {| sizes := [2; 3]; strides := [3; 1];
                              data := [1; 1; 2; 0; 2; 2] |};
               coo_arg_out := Some {| sizes := [2; 3]; strides := [3; 1];
                                    data := [3; 3; 3; 3; 3; 3] |};
               coo_stride := 1; coo_E_1 := 2; coo_E_2 := 3; coo_K := 1;
               coo_N := 3 |}
            0 0 2 0 _ _ _ _ _ _ _ _ _ _).
  - left; reflexivity.
  - reflexivity.
  - reflexivity.
  - intros e_1 e_2 H1 H2. simpl in H1, H2.
    two_cases e_1; two_cases e_2; vm_compute; congruence.
  - intros e_1 e_2 H1 H2. simpl in H1, H2.
    two_cases e_1; three_cases e_2; vm_compute; split; congruence.
  - simpl; lia.
  - unfold coo_run. simpl.
    split; [lia|]. split; [lia|].
    split; [intros e He; two_cases e; reflexivity|].
    split; [now left | right; vm_compute; congruence].
  - simpl; lia.
  - vm_compute; reflexivity.
  - exists 0. split; [lia|]. vm_compute; reflexivity.
Defined.

(** X12: for "min" and "max" under the same conditions, the argument cells
    of a group that the index array does not name within its block still
    hold [src.size(reduce_dim)] when [segment_coo] returns. *)
Theorem coo_unnamed_group_keeps_sentinel
    (scalar_t : scalar_type) (NDEBUG : bool) (src index out : Tensor)
    (reduce : string)
    (c : coo_setup) (e_1 g k : Z) :
  reduce = "min"%string \/ reduce = "max"%string ->
  dense out = true ->
  segment_coo_setup src index out reduce = Ok c ->
  1 <= coo_E_2 c ->
  coo_sorted (coo_index c) (coo_stride c) (coo_E_1 c) (coo_E_2 c) ->
  coo_in_range (coo_index c) (coo_stride c) (coo_E_1 c) (coo_E_2 c)
    (coo_N c) ->
  0 <= e_1 < coo_E_1 c -> 0 <= g < coo_N c -> 0 <= k < coo_K c ->
  (forall e_2, 0 <= e_2 < coo_E_2 c ->
     coo_idx (coo_index c) (coo_stride c) (coo_E_2 c) e_1 e_2 <> g) ->
  coo_addr (coo_K c) (coo_N c) e_1 g k < Z.of_nat (length (data out)) ->
  exists o a,
    segment_coo scalar_t NDEBUG src index out reduce
    = (data o, Ok (o, Some a)) /\
    load (data a) (coo_addr (coo_K c) (coo_N c) e_1 g k) = coo_E_2 c.
Proof.
  intros Hred Hdense Hs HE Hsorted Hrange He Hg Hk Hno Hp.
  destruct (coo_setup_arg_out _ _ _ _ _ Hs) as (Hl & _ & Ha).
  assert (Harg : is_arg_reduction (coo_REDUCE c) = true)
    by (apply (lookup_arg_reduction reduce); auto).
  rewrite Harg in Ha.
  destruct (segment_coo_runs scalar_t NDEBUG _ _ _ _ _ Hs HE Hsorted Hrange)
    as (Hcall & _ & Hfr).
  cbv zeta in Hcall, Hfr.
  rewrite Hcall, Ha. simpl.
  exists (with_data out
            (out_data (bufs (segment_coo_run scalar_t NDEBUG src out c)))).
  eexists. split; [reflexivity|]. cbn [with_data data].
  rewrite Hfr.
  - rewrite Ha. simpl. apply load_repeat.
    pose proof (dense_length out Hdense).
    pose proof (coo_addr_bounds (coo_K c) (coo_N c) e_1 g k Hg Hk). nia.
  - intros e e_2 k' He' He2 Hk' Heq.
    set (i := coo_idx (coo_index c) (coo_stride c) (coo_E_2 c) e e_2) in *.
    pose proof (Hrange e e_2 He' He2) as Hi. fold i in Hi.
    unfold coo_addr in Heq.
    destruct (lane_addr_inj (e_1 * coo_N c + g) (e * coo_N c + i) k k'
                (coo_K c) Hk Hk') as [H1 _]; [lia|].
    destruct (lane_addr_inj e_1 e g i (coo_N c) Hg Hi H1) as [-> Hgi].
    apply (Hno e_2 He2). fold i. lia.
Qed.

Lemma coo_unnamed_group_keeps_sentinel_witness :
  exists o a,
    segment_coo int64_t false
        {| sizes := [2; 3]; strides := [3; 1]; data := [1; 2; 3; 4; 5; 6] |}
        {| sizes := [2; 3]; strides := [3; 1]; data := [1; 1; 2; 0; 2; 2] |}
        {| sizes := [2; 3]; strides := [3; 1];
             data := [10; 20; 30; 40; 50; 60] |}
        "min" = (data o, Ok (o, Some a)) /\
    load (data a) 0 = 3.
Proof.
  refine (coo_unnamed_group_keeps_sentinel int64_t false
            {| sizes := [2; 3]; strides := [3; 1]; data := [1; 2; 3; 4; 5; 6] |}
            {| sizes := [2; 3]; strides := [3; 1]; data := [1; 1; 2; 0; 2; 2] |}
            {| sizes := [2; 3]; strides := [3; 1];
               data := [10; 20; 30; 40; 50; 60] |}
            "min"
            {| coo_REDUCE := MIN;
               coo_index := {| sizes := [2; 3]; strides := [3; 1];
                              data := [1; 1; 2; 0; 2; 2] |};
               coo_arg_out := Some {| sizes := [2; 3]; strides := [3; 1];
                                    data := [3; 3; 3; 3; 3; 3] |};
               coo_stride := 1; coo_E_1 := 2; coo_E_2 := 3; coo_K := 1;
               coo_N := 3 |}
            0 0 0 _ _ _ _ _ _ _ _ _ _ _).
  - left; reflexivity.
  - reflexivity.
  - reflexivity.
  - simpl; lia.
  - intros e_1 e_2 H1 H2. simpl in H1, H2.
    two_cases e_1; two_cases e_2; vm_compute; congruence.
  - intros e_1 e_2 H1 H2. simpl in H1, H2.
    two_cases e_1; three_cases e_2; vm_compute; split; congruence.
  - simpl; lia.
  - simpl; lia.
  - simpl; lia.
  - intros e_2 H2. simpl in H2.
    three_cases e_2; vm_compute; congruence.
  - vm_compute; reflexivity.
Defined.



(** * The rank check *)

(** X14: both operators compare the ranks before anything else: with an
    index tensor of more dimensions than [src] the call raises the input
    mismatch whatever the other arguments are, be the reduce string unknown
    or [out] of a wrong shape, and [segment_coo] leaves the storage of [out]
    as it was. *)
Theorem lower_rank_src_raises_input_mismatch
    (scalar_t : scalar_type) (NDEBUG : bool) (fresh : Z -> Z)
    (src index out : Tensor) (out_opt : option Tensor) (reduce : string) :
  dim src < dim index ->
  segment_csr scalar_t fresh src index out_opt reduce = Raise InputMismatch /\
  segment_coo scalar_t NDEBUG src index out reduce
  = (data out, Raise InputMismatch).
Proof.
  intros H.
  unfold segment_csr, segment_csr_setup, segment_csr_shapes,
    segment_coo, segment_coo_setup, segment_coo_shapes.
  destruct (Z.geb_spec (dim src) (dim index)); [lia|].
  split; reflexivity.
Qed.

Lemma lower_rank_src_raises_input_mismatch_witness :
  segment_csr int64_t (fun _ => 0) (vector [1; 2])
    {| sizes := [1; 2]; strides := [2; 1]; data := [0; 2] |}
    None "prod" = Raise InputMismatch /\
  segment_coo int64_t false (vector [1; 2])
    {| sizes := [1; 2]; strides := [2; 1]; data := [0; 2] |}
    (vector [7]) "prod" = ([7], Raise InputMismatch).
Proof.
  apply (lower_rank_src_raises_input_mismatch int64_t false (fun _ => 0)
           (vector [1; 2])
           {| sizes := [1; 2]; strides := [2; 1]; data := [0; 2] |}
           (vector [7]) None "prod").
  vm_compute; reflexivity.
Defined.
